(** * Newton-type solvers of the HM2 scripts: model and verified properties

    The scripts modelled here are
    - [Gauss_Newton_Verfahren.py]: [solve_2x2], [solve], [gauss_newton],
      [gauss_newton_damped];
    - [gedämpftes_newton_verfahren.py]: [solve_linear_system],
      [damped_newton] and the example system [f], [jacobian];
    - [quadratisch_konvergentes_newton_verfahren.py]: [newton_method].

    Python floats are kept abstract: the solvers are written over a type
    class [Scalar] that only lists the operations the scripts use, so every
    statement about control flow holds for any arithmetic.  The class has
    two instances, the exact rationals [Q] and IEEE binary64; statements
    that need the laws of arithmetic are made at [Q], and the runs on
    concrete data are evaluated in both.  The NumPy routines
    [np.linalg.norm] and [np.linalg.solve] are library code and enter as
    section variables.  Shapes are taken to fit: [func] and [jacobian] are
    total functions, operations on vectors of different lengths stop at
    the shorter one where NumPy would raise, and a matrix, being the list
    of its rows, has a row when it has a column. *)

From Stdlib Require Import List ZArith QArith Qabs Qfield Lia Lqa Bool.
From Stdlib Require Import Floats.PrimFloat.
Import ListNotations.

Set Implicit Arguments.

(** ** Exceptions and results *)

(** The conditions the scripts raise.  [SingularMatrix] stands for the
    [ValueError] of the Cramer solvers and for NumPy's [LinAlgError];
    [NonConvergence] for the [ValueError] raised after the iteration
    budget; [IndexError] for an index outside a list or array. *)
Inductive exn : Type :=
| SingularMatrix
| NonConvergence
| IndexError.

Inductive result (A : Type) : Type :=
| Ok (a : A)
| Raise (e : exn).

Arguments Ok {A} a.
Arguments Raise {A} e.

Definition bind {A B : Type} (r : result A) (k : A -> result B) : result B :=
  match r with
  | Ok a => k a
  | Raise e => Raise e
  end.

Notation "x <- r ;; k" := (bind r (fun x => k))
  (at level 61, r at next level, right associativity).

(** ** Scalars *)

(** The operations on numbers the scripts use.  [lit] reads a numeric
    literal of the source ([1.0], [0.5], [1e-14], [2], [0]). *)
Class Scalar (F : Type) : Type := {
  lit : Q -> F;
  fadd : F -> F -> F;
  fsub : F -> F -> F;
  fmul : F -> F -> F;
  fdiv : F -> F -> F;
  fneg : F -> F;
  fabs : F -> F;
  fltb : F -> F -> bool;
  feqb : F -> F -> bool
}.

Declare Scope scalar_scope.
Delimit Scope scalar_scope with S.
Infix "+" := fadd : scalar_scope.
Infix "-" := fsub : scalar_scope.
Infix "*" := fmul : scalar_scope.
Infix "/" := fdiv : scalar_scope.
Notation "- x" := (fneg x) : scalar_scope.
Infix "<?" := fltb : scalar_scope.
Infix "=?" := feqb : scalar_scope.

(** Strict order on rationals as a boolean. *)
Definition Qltb (x y : Q) : bool := negb (Qle_bool y x).

#[export] Instance Scalar_Q : Scalar Q := {
  lit := fun q => q;
  fadd := Qplus;
  fsub := Qminus;
  fmul := Qmult;
  fdiv := Qdiv;
  fneg := Qopp;
  fabs := Qabs;
  fltb := Qltb;
  feqb := Qeq_bool
}.

(** IEEE binary64, the arithmetic of Python's [float], with rounding to
    nearest.  An integer is built from its binary digits, without rounding
    when it is below 2^53 in absolute value; a literal is read as the
    quotient of two such integers, so that it is rounded once, like a
    literal of the source. *)
Fixpoint float_of_positive (n : positive) : float :=
  match n with
  | xH => PrimFloat.one
  | xO n' => PrimFloat.mul PrimFloat.two (float_of_positive n')
  | xI n' =>
      PrimFloat.add (PrimFloat.mul PrimFloat.two (float_of_positive n'))
        PrimFloat.one
  end.

Definition float_of_Z (z : Z) : float :=
  match z with
  | Z0 => PrimFloat.zero
  | Zpos n => float_of_positive n
  | Zneg n => PrimFloat.opp (float_of_positive n)
  end.

Definition float_of_Q (q : Q) : float :=
  PrimFloat.div (float_of_Z (Qnum q)) (float_of_Z (Zpos (Qden q))).

#[export] Instance Scalar_float : Scalar float := {
  lit := float_of_Q;
  fadd := PrimFloat.add;
  fsub := PrimFloat.sub;
  fmul := PrimFloat.mul;
  fdiv := PrimFloat.div;
  fneg := PrimFloat.opp;
  fabs := PrimFloat.abs;
  fltb := PrimFloat.ltb;
  feqb := PrimFloat.eqb
}.

(** ** Vectors and matrices *)

Section LinearAlgebra.
Context {F : Type} `{Scalar F}.
Local Open Scope scalar_scope.

(** A NumPy vector is the list of its entries, a matrix the list of its
    rows. *)
Definition vec : Type := list F.
Definition mat : Type := list (list F).

Fixpoint map2 (g : F -> F -> F) (u v : vec) : vec :=
  match u, v with
  | a :: u', b :: v' => g a b :: map2 g u' v'
  | _, _ => []
  end.

Definition vadd (u v : vec) : vec := map2 fadd u v.
Definition vsub (u v : vec) : vec := map2 fsub u v.
Definition vneg (u : vec) : vec := map fneg u.
Definition vscale (c : F) (u : vec) : vec := map (fmul c) u.

Fixpoint dot (u v : vec) : F :=
  match u, v with
  | a :: u', b :: v' => a * b + dot u' v'
  | _, _ => lit 0
  end.

(** [matrix.T] *)
Fixpoint combine_rows (r : vec) (cols : mat) : mat :=
  match r, cols with
  | a :: r', c :: cols' => (a :: c) :: combine_rows r' cols'
  | _, _ => []
  end.

Fixpoint transpose (m : mat) : mat :=
  match m with
  | [] => []
  | r :: rs =>
      match rs with
      | [] => map (fun a => [a]) r
      | _ :: _ => combine_rows r (transpose rs)
      end
  end.

(** [matrix @ vector] and [matrix @ matrix] *)
Definition matvec (m : mat) (v : vec) : vec := map (fun r => dot r v) m.
Definition matmul (a b : mat) : mat :=
  map (fun r => map (fun c => dot r c) (transpose b)) a.

(** [v[i]]: a list or array index, which raises when out of range. *)
Definition vget (v : vec) (i : nat) : result F :=
  match nth_error v i with
  | Some a => Ok a
  | None => Raise IndexError
  end.

(** [m[i, j]] and [m[i][j]] *)
Definition mget (m : mat) (i j : nat) : result F :=
  match nth_error m i with
  | Some r => vget r j
  | None => Raise IndexError
  end.

(** [matrix.shape == (2, 2)] *)
Definition is_2x2 (m : mat) : bool :=
  match m with
  | [[_; _]; [_; _]] => true
  | _ => false
  end.

(** The indices 0, ..., [k - 1] of the first [k] passes of a loop. *)
Definition upto (k : nat) : list Z := map Z.of_nat (seq 0 k).

(** [range(n)], which is empty for [n <= 0]. *)
Definition range (n : Z) : list Z := upto (Z.to_nat n).

(** *** The 2x2 solvers *)

(** [solve_2x2] of [Gauss_Newton_Verfahren.py]. *)
Definition solve_2x2 (matrix : mat) (vector : vec) : result vec :=
  m00 <- mget matrix 0 0 ;;
  m11 <- mget matrix 1 1 ;;
  m01 <- mget matrix 0 1 ;;
  m10 <- mget matrix 1 0 ;;
  let determinant := m00 * m11 - m01 * m10 in
  if fabs determinant <? lit (1 # 100000000000000)
  then Raise SingularMatrix
  else
    v0 <- vget vector 0 ;;
    v1 <- vget vector 1 ;;
    let solution_0 := (v0 * m11 - v1 * m01) / determinant in
    let solution_1 := (m00 * v1 - m10 * v0) / determinant in
    Ok [solution_0; solution_1].

(** [solve_linear_system] of [gedämpftes_newton_verfahren.py] (the same
    function is repeated in [vereinfachtes_newton_verfahren.py]). *)
Definition solve_linear_system (A : mat) (b : vec) : result vec :=
  a00 <- mget A 0 0 ;;
  a11 <- mget A 1 1 ;;
  a01 <- mget A 0 1 ;;
  a10 <- mget A 1 0 ;;
  let det := a00 * a11 - a01 * a10 in
  if det =? lit 0
  then Raise SingularMatrix
  else
    b0 <- vget b 0 ;;
    b1 <- vget b 1 ;;
    let x0 := (b0 * a11 - b1 * a01) / det in
    let x1 := (a00 * b1 - a10 * b0) / det in
    Ok [x0; x1].

End LinearAlgebra.

Arguments vec F : clear implicits.
Arguments mat F : clear implicits.

(** ** Loops with early return *)

(** What one pass through a loop body decides: go on with a new state, or
    leave the function with a value. *)
Inductive control (S R : Type) : Type :=
| Continue (s : S)
| Return (r : R).

Arguments Continue {S R} s.
Arguments Return {S R} r.

Section Loops.
Variables I S R : Type.
Variable body : I -> S -> result (control S R).
Variable orelse : S -> result R.

(** [for i in its: body] followed by [orelse]: the body may return from the
    enclosing function or raise; [orelse] is the code after the loop. *)
Fixpoint for_each (its : list I) (s : S) : result R :=
  match its with
  | [] => orelse s
  | i :: rest =>
      c <- body i s ;;
      match c with
      | Return r => Ok r
      | Continue s' => for_each rest s'
      end
  end.

(** The same loop, which also counts the passes through the body that were
    started, the returning one included. *)
Fixpoint for_each_count (its : list I) (s : S) (executed : nat)
  : result (R * nat) :=
  match its with
  | [] => r <- orelse s ;; Ok (r, executed)
  | i :: rest =>
      c <- body i s ;;
      match c with
      | Return r => Ok (r, Datatypes.S executed)
      | Continue s' => for_each_count rest s' (Datatypes.S executed)
      end
  end.

(** The loop alone: the state it ends in, or the value it returned. *)
Fixpoint run_loop (its : list I) (s : S) : result (control S R) :=
  match its with
  | [] => Ok (Continue s)
  | i :: rest =>
      c <- body i s ;;
      match c with
      | Return r => Ok (Return r)
      | Continue s' => run_loop rest s'
      end
  end.

End Loops.

(** ** The solvers *)

Section Solvers.
Context {F : Type} `{Scalar F}.
Local Open Scope scalar_scope.

(** [np.linalg.norm] on a vector. *)
Variable norm : vec F -> F.

(** [np.linalg.solve]; [None] is its [LinAlgError] on a singular matrix. *)
Variable linalg_solve : mat F -> vec F -> option (vec F).

Definition np_linalg_solve (a : mat F) (b : vec F) : result (vec F) :=
  match linalg_solve a b with
  | Some x => Ok x
  | None => Raise SingularMatrix
  end.

(** [solve] of [Gauss_Newton_Verfahren.py] *)
Definition solve (matrix : mat F) (vector : vec F) : result (vec F) :=
  if is_2x2 matrix then solve_2x2 matrix vector
  else np_linalg_solve matrix vector.

(** *** Gauss-Newton, [Gauss_Newton_Verfahren.py] *)

(** The dictionary appended by [gauss_newton]. *)
Record gn_entry : Type := {
  gn_iteration : Z;
  gn_params : vec F;
  gn_step : vec F;
  gn_error : F
}.

(** The dictionary appended by [gauss_newton_damped]. *)
Record gnd_entry : Type := {
  gnd_iteration : Z;
  gnd_params : vec F;
  gnd_step : vec F;
  gnd_old_error : F;
  gnd_new_error : F;
  gnd_damping_factor : F
}.

Section GaussNewton.
(** The samples [x_vals] are only handed on to [func] and [jacobian]. *)
Variable X : Type.
Variable func : vec F -> X -> vec F.
Variable jacobian : vec F -> X -> mat F.
Variable x_vals : X.
Variable y_vals : vec F.
Variable tolerance : F.

(** Body of the loop of [gauss_newton]; the state is
    [(params, iteration_history)].  The source updates [params] in place
    ([params += step]) and appends copies of it to the history, so that a
    record does not change once it is written. *)
Definition gauss_newton_body (iteration : Z) (st : vec F * list gn_entry)
  : result (control (vec F * list gn_entry) (vec F * list gn_entry)) :=
  let '(params, iteration_history) := st in
  let residuals := vsub y_vals (func params x_vals) in
  let jacobi_matrix := jacobian params x_vals in
  let normal_matrix := matmul (transpose jacobi_matrix) jacobi_matrix in
  let right_hand_side := matvec (transpose jacobi_matrix) residuals in
  step <- solve normal_matrix right_hand_side ;;
  let iteration_history :=
    iteration_history ++
    [ {| gn_iteration := iteration;
         gn_params := params;
         gn_step := step;
         gn_error := norm residuals |} ] in
  if norm step <? tolerance
  then Ok (Return (vadd params step, iteration_history))
  else Ok (Continue (vadd params step, iteration_history)).

Definition gauss_newton (initial_guess : vec F) (max_iterations : Z)
  : result (vec F * list gn_entry) :=
  for_each gauss_newton_body (fun st => Ok st)
    (range max_iterations) (initial_guess, []).

(** The inner loop of [gauss_newton_damped] with its [else] branch: [None]
    when the loop ran out without [break], otherwise the values of
    [damping_factor], [trial_params] and [new_error] at the [break]. *)
Fixpoint backtrack (params step : vec F) (old_error : F)
  (halvings : list Z) (damping_factor : F) : option (F * vec F * F) :=
  match halvings with
  | [] => None
  | _ :: rest =>
      let trial_params := vadd params (vscale damping_factor step) in
      let new_error := norm (vsub y_vals (func trial_params x_vals)) in
      if new_error <? old_error
      then Some (damping_factor, trial_params, new_error)
      else backtrack params step old_error rest
             (damping_factor * lit (1 # 2))
  end.

(** Body of the outer loop of [gauss_newton_damped]. *)
Definition gauss_newton_damped_body (max_halving : Z) (iteration : Z)
  (st : vec F * list gnd_entry)
  : result (control (vec F * list gnd_entry) (vec F * list gnd_entry)) :=
  let '(params, iteration_history) := st in
  let residuals := vsub y_vals (func params x_vals) in
  let jacobi_matrix := jacobian params x_vals in
  let normal_matrix := matmul (transpose jacobi_matrix) jacobi_matrix in
  let right_hand_side := matvec (transpose jacobi_matrix) residuals in
  step <- solve normal_matrix right_hand_side ;;
  let old_error := norm residuals in
  match backtrack params step old_error (range (max_halving + 1)) (lit 1) with
  | None => Ok (Return (params, iteration_history))
  | Some (damping_factor, trial_params, new_error) =>
      let iteration_history :=
        iteration_history ++
        [ {| gnd_iteration := iteration;
             gnd_params := params;
             gnd_step := vscale damping_factor step;
             gnd_old_error := old_error;
             gnd_new_error := new_error;
             gnd_damping_factor := damping_factor |} ] in
      if norm (vscale damping_factor step) <? tolerance
      then Ok (Return (trial_params, iteration_history))
      else Ok (Continue (trial_params, iteration_history))
  end.

Definition gauss_newton_damped (initial_guess : vec F)
  (max_iterations max_halving : Z) : result (vec F * list gnd_entry) :=
  for_each (gauss_newton_damped_body max_halving) (fun st => Ok st)
    (range max_iterations) (initial_guess, []).

(** Both solvers with the count of outer iterations that were started. *)
Definition gauss_newton_count (initial_guess : vec F) (max_iterations : Z)
  : result (vec F * list gn_entry * nat) :=
  for_each_count gauss_newton_body (fun st => Ok st)
    (range max_iterations) (initial_guess, []) 0.

Definition gauss_newton_damped_count (initial_guess : vec F)
  (max_iterations max_halving : Z) : result (vec F * list gnd_entry * nat) :=
  for_each_count (gauss_newton_damped_body max_halving) (fun st => Ok st)
    (range max_iterations) (initial_guess, []) 0.

(** *** The runs of the two solvers, iteration by iteration

    The definitions below say what the specification says about a run: the
    correction of one iteration, the parameters and the history after [k]
    updates, the stopping tests.  The theorems compare the loops above with
    them. *)

(** [r = y_vals - func(params)] *)
Definition residual (params : vec F) : vec F :=
  vsub y_vals (func params x_vals).

(** The correction at [params]: what the linear solver returns for the
    normal equations [(J^T J) step = J^T r]. *)
Definition normal_step (params : vec F) : result (vec F) :=
  let J := jacobian params x_vals in
  solve (matmul (transpose J) J) (matvec (transpose J) (residual params)).

(** Parameters and history after [k] undamped updates; undefined once a
    linear solve has failed. *)
Fixpoint gn_updates (initial_guess : vec F) (k : nat)
  : option (vec F * list gn_entry) :=
  match k with
  | O => Some (initial_guess, [])
  | Datatypes.S k' =>
      match gn_updates initial_guess k' with
      | Some (p, h) =>
          match normal_step p with
          | Ok step =>
              Some (vadd p step,
                    h ++ [ {| gn_iteration := Z.of_nat k';
                              gn_params := p;
                              gn_step := step;
                              gn_error := norm (residual p) |} ])
          | Raise _ => None
          end
      | None => None
      end
  end.

(** The stopping test of iteration [j] (counted from 0): the norm of its
    step is below [tolerance]. *)
Definition gn_small_step (initial_guess : vec F) (j : nat) : bool :=
  match gn_updates initial_guess j with
  | Some (p, _) =>
      match normal_step p with
      | Ok step => norm step <? tolerance
      | Raise _ => false
      end
  | None => false
  end.

(** The damping factor after [j] halvings: 1, 1/2, 1/4, ... *)
Fixpoint halved (j : nat) : F :=
  match j with
  | O => lit 1
  | Datatypes.S j' => halved j' * lit (1 # 2)
  end.

(** The trial point [params + lambda * step] of the [j]-th factor. *)
Definition trial (params step : vec F) (j : nat) : vec F :=
  vadd params (vscale (halved j) step).

(** The [j]-th factor decreases the norm of the residual. *)
Definition improves (params step : vec F) (j : nat) : bool :=
  norm (residual (trial params step j)) <? norm (residual params).

(** The first improving factor among those numbered [j], ..., [j + n - 1]. *)
Fixpoint first_improving (params step : vec F) (n j : nat) : option nat :=
  match n with
  | O => None
  | Datatypes.S n' =>
      if improves params step j then Some j
      else first_improving params step n' (Datatypes.S j)
  end.

(** The record of a damped iteration that accepted the [j]-th factor. *)
Definition gnd_record (iteration : Z) (params step : vec F) (j : nat)
  : gnd_entry :=
  {| gnd_iteration := iteration;
     gnd_params := params;
     gnd_step := vscale (halved j) step;
     gnd_old_error := norm (residual params);
     gnd_new_error := norm (residual (trial params step j));
     gnd_damping_factor := halved j |}.

(** Parameters and history after [k] accepted damped updates; undefined
    once a linear solve has failed or no factor has improved. *)
Fixpoint gnd_updates (initial_guess : vec F) (max_halving : Z) (k : nat)
  : option (vec F * list gnd_entry) :=
  match k with
  | O => Some (initial_guess, [])
  | Datatypes.S k' =>
      match gnd_updates initial_guess max_halving k' with
      | Some (p, h) =>
          match normal_step p with
          | Ok step =>
              match first_improving p step (Z.to_nat (max_halving + 1)) 0 with
              | Some j =>
                  Some (trial p step j,
                        h ++ [gnd_record (Z.of_nat k') p step j])
              | None => None
              end
          | Raise _ => None
          end
      | None => None
      end
  end.

(** The stopping test of damped iteration [j]: the norm of the accepted
    damped step is below [tolerance]. *)
Definition gnd_small_step (initial_guess : vec F) (max_halving : Z) (j : nat)
  : bool :=
  match gnd_updates initial_guess max_halving j with
  | Some (p, _) =>
      match normal_step p with
      | Ok step =>
          match first_improving p step (Z.to_nat (max_halving + 1)) 0 with
          | Some i => norm (vscale (halved i) step) <? tolerance
          | None => false
          end
      | Raise _ => false
      end
  | None => false
  end.

End GaussNewton.

(** *** Newton's method, [quadratisch_konvergentes_newton_verfahren.py] *)

Section Newton.
Variable f : vec F -> vec F.
Variable jacobian : vec F -> mat F.
Variable tol : F.

Definition newton_method_body (i : Z) (x : vec F)
  : result (control (vec F) (vec F * Z)) :=
  let fx := f x in
  let dfx := jacobian x in
  delta_x <- np_linalg_solve dfx (vneg fx) ;;
  let x := vadd x delta_x in
  if norm fx <? tol
  then Ok (Return (x, (i + 1)%Z))
  else Ok (Continue x).

Definition newton_method (x0 : vec F) (max_iter : Z) : result (vec F * Z) :=
  for_each newton_method_body (fun _ => Raise NonConvergence)
    (range max_iter) x0.

(** *** Damped Newton, [gedämpftes_newton_verfahren.py] *)

(** [sum(abs(v[i]) for i in range(2))] *)
Definition sum_abs (v : vec F) : result F :=
  v0 <- vget v 0 ;;
  v1 <- vget v 1 ;;
  Ok (lit 0 + fabs v0 + fabs v1).

(** [[x[i] + lambda_ * delta_x[i] for i in range(2)]] *)
Definition damped_point (x delta_x : vec F) (lambda_ : F) : result (vec F) :=
  x0 <- vget x 0 ;;
  d0 <- vget delta_x 0 ;;
  x1 <- vget x 1 ;;
  d1 <- vget delta_x 1 ;;
  Ok [x0 + lambda_ * d0; x1 + lambda_ * d1].

(** The [while True] loop of [damped_newton].  The source gives it no
    bound, so the model takes the number of passes it may make as [fuel];
    [None] says that the loop is still running when the fuel is used up.
    On [break] the loop leaves [lambda_] and [x_new]. *)
Fixpoint damped_newton_search (fuel : nat) (x delta_x : vec F) (lambda_ : F)
  : option (result (F * vec F)) :=
  match fuel with
  | O => None
  | Datatypes.S fuel' =>
      match damped_point x delta_x lambda_ with
      | Raise e => Some (Raise e)
      | Ok x_new =>
          match sum_abs (f x_new), sum_abs (f x) with
          | Raise e, _ => Some (Raise e)
          | Ok _, Raise e => Some (Raise e)
          | Ok s_new, Ok s_old =>
              if s_new <? s_old
              then Some (Ok (lambda_, x_new))
              else damped_newton_search fuel' x delta_x (lambda_ / lit 2)
          end
      end
  end.

(** The outer loop of [damped_newton]; every inner loop gets [fuel]. *)
Fixpoint damped_newton_loop (fuel : nat) (ks : list Z) (x : vec F)
  : option (result (vec F * Z)) :=
  match ks with
  | [] => Some (Raise NonConvergence)
  | k :: rest =>
      let fx := f x in
      let J := jacobian x in
      match (fx0 <- vget fx 0 ;;
             fx1 <- vget fx 1 ;;
             solve_linear_system J [- fx0; - fx1]) with
      | Raise e => Some (Raise e)
      | Ok delta_x =>
          match damped_newton_search fuel x delta_x (lit 1) with
          | None => None
          | Some (Raise e) => Some (Raise e)
          | Some (Ok (_, x_new)) =>
              match sum_abs fx with
              | Raise e => Some (Raise e)
              | Ok s =>
                  if s <? tol
                  then Some (Ok (x_new, (k + 1)%Z))
                  else damped_newton_loop fuel rest x_new
              end
          end
      end
  end.

Definition damped_newton (fuel : nat) (x0 : vec F) (k_max : Z)
  : option (result (vec F * Z)) :=
  damped_newton_loop fuel (range k_max) x0.

(** *** The runs of the root finders, iteration by iteration *)

(** The Newton correction of [newton_method] at [x]: the solution of
    [J delta = -f(x)]. *)
Definition newton_step (x : vec F) : result (vec F) :=
  np_linalg_solve (jacobian x) (vneg (f x)).

(** The point after [k] Newton updates; undefined once a solve failed. *)
Fixpoint newton_updates (x0 : vec F) (k : nat) : option (vec F) :=
  match k with
  | O => Some x0
  | Datatypes.S k' =>
      match newton_updates x0 k' with
      | Some x =>
          match newton_step x with
          | Ok delta_x => Some (vadd x delta_x)
          | Raise _ => None
          end
      | None => None
      end
  end.

(** The stopping test of iteration [j] (counted from 0): the norm of [f]
    at the point the iteration starts from is below [tol]. *)
Definition newton_small_residual (x0 : vec F) (j : nat) : bool :=
  match newton_updates x0 j with
  | Some x => norm (f x) <? tol
  | None => false
  end.

(** The Newton correction of [damped_newton] at [x]. *)
Definition damped_newton_step (x : vec F) : result (vec F) :=
  fx0 <- vget (f x) 0 ;;
  fx1 <- vget (f x) 1 ;;
  solve_linear_system (jacobian x) [- fx0; - fx1].

(** [lambda_] after [j] passes of [lambda_ /= 2]. *)
Fixpoint halved_by_division (lambda_ : F) (j : nat) : F :=
  match j with
  | O => lambda_
  | Datatypes.S j' => halved_by_division lambda_ j' / lit 2
  end.

(** A pass of the [while True] loop at [lambda_] that computes its damped
    point and does not accept it. *)
Definition damped_newton_rejects (x delta_x : vec F) (lambda_ : F) : bool :=
  match damped_point x delta_x lambda_ with
  | Ok x_new =>
      match sum_abs (f x_new), sum_abs (f x) with
      | Ok s_new, Ok s_old => negb (s_new <? s_old)
      | _, _ => false
      end
  | Raise _ => false
  end.

(** The first [n] passes from [lambda_] on all do so. *)
Fixpoint damped_newton_rejects_first (n : nat) (x delta_x : vec F)
  (lambda_ : F) : bool :=
  match n with
  | O => true
  | Datatypes.S n' =>
      damped_newton_rejects x delta_x lambda_ &&
      damped_newton_rejects_first n' x delta_x (lambda_ / lit 2)
  end.

End Newton.

End Solvers.

(** ** The data of the examples *)

(** The determinant [solve_2x2] and [solve_linear_system] compute. *)
Definition det2 (a b c d : Q) : Q := a * d - b * c.

(** The threshold [1e-14] of [solve_2x2]. *)
Definition singular_threshold : Q := 1 # 100000000000000.

(** Square root of a rational rounded down to a multiple of [2^-53]; it is
    exact on the squares of such multiples. *)
Definition Qsqrt (q : Q) : Q :=
  Qred (Z.sqrt (Qnum q * 2 ^ 106 / Zpos (Qden q)) # 2 ^ 53).

(** The Euclidean norm, for [np.linalg.norm], on rationals and in
    binary64. *)
Definition norm_Q (v : vec Q) : Q := Qsqrt (dot v v).
Definition norm_float (v : vec float) : float := PrimFloat.sqrt (dot v v).

(** Cramer's rule on 2x2 systems, for [np.linalg.solve]. *)
Definition linalg_solve_2x2 {F : Type} `{Scalar F} (a : mat F) (b : vec F)
  : option (vec F) :=
  match solve_linear_system a b with
  | Ok x => Some x
  | Raise _ => None
  end.

Definition linalg_solve_Q : mat Q -> vec Q -> option (vec Q) :=
  linalg_solve_2x2.
Definition linalg_solve_float : mat float -> vec float -> option (vec float) :=
  linalg_solve_2x2.

Module Example.
Section Data.
Context {F : Type} `{Scalar F}.
Local Open Scope scalar_scope.

(** The system [f] and its [jacobian] of [gedämpftes_newton_verfahren.py]
    and of [quadratisch_konvergentes_newton_verfahren.py].  The powers
    [x[1]**3] and [x[1]**2] are written as products. *)
Definition f (x : vec F) : vec F :=
  match x with
  | x0 :: x1 :: _ =>
      [lit 2 * x0 + lit 4 * x1; lit 4 * x0 + lit 8 * (x1 * x1 * x1)]
  | _ => []
  end.

Definition jacobian (x : vec F) : mat F :=
  match x with
  | _ :: x1 :: _ => [[lit 2; lit 4]; [lit 4; lit 24 * (x1 * x1)]]
  | _ => []
  end.

(** A straight line [a + b * x] fitted to samples, and its Jacobian. *)
Definition line (params x_values : vec F) : vec F :=
  match params with
  | a :: b :: _ => map (fun x => a + b * x) x_values
  | _ => []
  end.

Definition line_jacobian (params x_values : vec F) : mat F :=
  map (fun x => [lit 1; x]) x_values.

(** Two points, (0, 1) and (1, 3), which the line [1 + 2 * x] fits. *)
Definition line_x : vec F := [lit 0; lit 1].
Definition line_y : vec F := [lit 1; lit 3].

(** Both samples taken at [x = 0]: no line is determined. *)
Definition twice_x : vec F := [lit 0; lit 0].

(** The record of the damped iteration that goes from [[0, 0]] to the exact
    fit [[1, 2]] with the full step. *)
Definition line_record (norm : vec F -> F) : gnd_entry :=
  gnd_record norm line line_x line_y 0 [lit 0; lit 0] [lit 1; lit 2] 0.

End Data.
End Example.

From Stdlib Require Import Qpower.

(** ** Reading a history *)

Section Histories.
Context {F : Type} `{Scalar F}.

(** Where a run stands after the records [h]: at the initial guess, or at
    [params + step] of the last record. *)
Definition gn_position (initial_guess : vec F) (h : list gn_entry) : vec F :=
  fold_left (fun _ e => vadd (gn_params e) (gn_step e)) h initial_guess.

Definition gnd_position (initial_guess : vec F) (h : list gnd_entry)
  : vec F :=
  fold_left (fun _ e => vadd (gnd_params e) (gnd_step e)) h initial_guess.

(** What the record number [k] of a history [h] says of the run it was
    written by. *)
Section Traces.
Variable norm : vec F -> F.
Variable linalg_solve : mat F -> vec F -> option (vec F).
Variable X : Type.
Variable func : vec F -> X -> vec F.
Variable jacobian : vec F -> X -> mat F.
Variable x_vals : X.
Variable y_vals : vec F.

Definition gn_trace_record (init : vec F) (h : list gn_entry) (k : nat)
  (e : gn_entry) : Prop :=
  gn_iteration e = Z.of_nat k /\
  gn_params e = gn_position init (firstn k h) /\
  normal_step linalg_solve func jacobian x_vals y_vals (gn_params e) =
    Ok (gn_step e) /\
  gn_error e = norm (residual func x_vals y_vals (gn_params e)).

Definition gnd_trace_record (init : vec F) (max_halving : Z)
  (h : list gnd_entry) (k : nat) (e : gnd_entry) : Prop :=
  gnd_params e = gnd_position init (firstn k h) /\
  exists step i,
    normal_step linalg_solve func jacobian x_vals y_vals (gnd_params e) =
      Ok step /\
    (i < Z.to_nat (max_halving + 1))%nat /\
    e = gnd_record norm func x_vals y_vals (Z.of_nat k) (gnd_params e)
          step i /\
    improves norm func x_vals y_vals (gnd_params e) step i = true /\
    (forall i', (i' < i)%nat ->
                improves norm func x_vals y_vals (gnd_params e) step i' =
                false).

End Traces.

End Histories.

(** ** Shapes *)

(** A matrix with at least one row, all of whose rows have two entries:
    the Jacobian of a model with two parameters. *)
Definition two_columns {F : Type} (m : list (list F)) : Prop :=
  m <> [] /\ Forall (fun r => length r = 2%nat) m.

(** ** The linear solvers of [vereinfachtes_newton_verfahren.py] *)

From Stdlib Require String.

(** What the functions of that file raise: the conditions of the Cramer
    solver, Python's [ZeroDivisionError] of a division by zero, and the
    [ValueError] of [solve_with_method] for a method it does not know. *)
Inductive method_exn : Type :=
| Solver (e : exn)
| ZeroDivisionError
| UnknownMethod.

Inductive outcome (A : Type) : Type :=
| Done (a : A)
| Fail (e : method_exn).

Arguments Done {A} a.
Arguments Fail {A} e.

Definition and_then {A B : Type} (r : outcome A) (k : A -> outcome B)
  : outcome B :=
  match r with
  | Done a => k a
  | Fail e => Fail e
  end.

Notation "x <~ r ;; k" := (and_then r (fun x => k))
  (at level 61, r at next level, right associativity).

Definition lift {A : Type} (r : result A) : outcome A :=
  match r with
  | Ok a => Done a
  | Raise e => Fail (Solver e)
  end.

(** [for i in its: body], where the body neither breaks nor returns. *)
Fixpoint for_in {I S : Type} (its : list I) (body : I -> S -> outcome S)
  (s : S) : outcome S :=
  match its with
  | [] => Done s
  | i :: rest => s' <~ body i s ;; for_in rest body s'
  end.

Module Simplified.
Import Stdlib.Strings.String.

Section Methods.
Context {F : Type} `{Scalar F}.
Local Open Scope scalar_scope.

(** [v[i] = a] *)
Definition vset (v : vec F) (i : nat) (a : F) : outcome (vec F) :=
  if Nat.ltb i (List.length v)
  then Done (firstn i v ++ a :: skipn (Datatypes.S i) v)
  else Fail (Solver IndexError).

(** [m[i][j] = a] *)
Definition mset (m : mat F) (i j : nat) (a : F) : outcome (mat F) :=
  match nth_error m i with
  | Some r =>
      r' <~ vset r j a ;;
      Done (firstn i m ++ r' :: skipn (Datatypes.S i) m)
  | None => Fail (Solver IndexError)
  end.

(** [x / y] on Python numbers *)
Definition divide (x y : F) : outcome F :=
  if y =? lit 0 then Fail ZeroDivisionError else Done (x / y).

(** [sum(term(k) for k in ks)]; Python's [sum] starts from 0. *)
Fixpoint sum_from (acc : F) (ks : list nat) (term : nat -> outcome F)
  : outcome F :=
  match ks with
  | [] => Done acc
  | k :: rest => t <~ term k ;; sum_from (acc + t) rest term
  end.

Definition py_sum (ks : list nat) (term : nat -> outcome F) : outcome F :=
  sum_from (lit 0) ks term.

(** [[0.0] * n] *)
Definition zeros (n : nat) : vec F := repeat (lit 0) n.

(** [L[i][k] * U[k][j]] *)
Definition entry_product (L U : mat F) (i k j : nat) : outcome F :=
  l <~ lift (mget L i k) ;;
  u <~ lift (mget U k j) ;;
  Done (l * u).

(** The first inner loop of the decomposition: row [i] of [U]. *)
Definition lu_upper (A : mat F) (n i : nat) (LU : mat F * mat F)
  : outcome (mat F * mat F) :=
  for_in (seq i (n - i))
    (fun j '(L, U) =>
       a <~ lift (mget A i j) ;;
       s <~ py_sum (seq 0 i) (fun k => entry_product L U i k j) ;;
       U' <~ mset U i j (a - s) ;;
       Done (L, U'))
    LU.

(** The second inner loop: column [i] of [L]. *)
Definition lu_lower (A : mat F) (n i : nat) (LU : mat F * mat F)
  : outcome (mat F * mat F) :=
  for_in (seq i (n - i))
    (fun j '(L, U) =>
       if Nat.eqb i j
       then
         L' <~ mset L i i (lit 1) ;;
         Done (L', U)
       else
         a <~ lift (mget A j i) ;;
         s <~ py_sum (seq 0 i) (fun k => entry_product L U j k i) ;;
         u <~ lift (mget U i i) ;;
         q <~ divide (a - s) u ;;
         L' <~ mset L j i q ;;
         Done (L', U))
    LU.

(** "Decompose A into L and U" *)
Definition lu_factors (A : mat F) : outcome (mat F * mat F) :=
  let n := List.length A in
  for_in (seq 0 n)
    (fun i LU => LU' <~ lu_upper A n i LU ;; lu_lower A n i LU')
    (repeat (zeros n) n, repeat (zeros n) n).

(** "Forward substitution to solve L * y = b" *)
Definition forward_substitution (L : mat F) (b : vec F) (n : nat)
  : outcome (vec F) :=
  for_in (seq 0 n)
    (fun i y =>
       b_i <~ lift (vget b i) ;;
       s <~ py_sum (seq 0 i)
              (fun j =>
                 l <~ lift (mget L i j) ;;
                 y_j <~ lift (vget y j) ;;
                 Done (l * y_j)) ;;
       vset y i (b_i - s))
    (zeros n).

(** "Backward substitution to solve U * x = y"; the loop runs over
    [range(n - 1, -1, -1)]. *)
Definition backward_substitution (U : mat F) (y : vec F) (n : nat)
  : outcome (vec F) :=
  for_in (rev (seq 0 n))
    (fun i x =>
       y_i <~ lift (vget y i) ;;
       s <~ py_sum (seq (i + 1) (n - (i + 1)))
              (fun j =>
                 u <~ lift (mget U i j) ;;
                 x_j <~ lift (vget x j) ;;
                 Done (u * x_j)) ;;
       u_ii <~ lift (mget U i i) ;;
       q <~ divide (y_i - s) u_ii ;;
       vset x i q)
    (zeros n).

Definition lu_decomposition (A : mat F) (b : vec F) : outcome (vec F) :=
  let n := List.length A in
  LU <~ lu_factors A ;;
  y <~ forward_substitution (fst LU) b n ;;
  backward_substitution (snd LU) y n.

Definition solve_with_method (A : mat F) (b : vec F)
  (method : String.string) : outcome (vec F) :=
  if String.eqb method "2x2"%string then lift (solve_linear_system A b)
  else if String.eqb method "LU"%string then lu_decomposition A b
  else if String.eqb method "LGS"%string then lift (solve_linear_system A b)
  else Fail UnknownMethod.

End Methods.
End Simplified.

(** ** A fit that takes more than one step *)

Module Curve.
Section Data.
Context {F : Type} `{Scalar F}.
Local Open Scope scalar_scope.

(** The model [a + b^2 * x], which is not linear in [b], and its
    Jacobian. *)
Definition model (params x_values : vec F) : vec F :=
  match params with
  | a :: b :: _ => map (fun x => a + b * b * x) x_values
  | _ => []
  end.

Definition model_jacobian (params x_values : vec F) : mat F :=
  match params with
  | a :: b :: _ => map (fun x => [lit 1; lit 2 * b * x]) x_values
  | _ => []
  end.

(** Two points, (0, 1) and (1, 5), which [1 + 2^2 * x] fits. *)
Definition data_x : vec F := [lit 0; lit 1].
Definition data_y : vec F := [lit 1; lit 5].

End Data.
End Curve.

(** ** The array behind [initial_guess]

    [np.asarray(initial_guess, dtype=float)] returns its argument when
    that is an array of floats already, as [initial_parameters] of the
    script is.  [params] of [gauss_newton] is then the caller's array, and
    [params += step] writes into that array, while [params + step] and
    [params.copy()] make new ones.  The loop below is the loop of
    [gauss_newton] with the contents of that array as its state; it
    returns what [gauss_newton] returns together with what the array holds
    after the call. *)

Section InPlace.
Context {F : Type} `{Scalar F}.
Variable norm : vec F -> F.
Variable linalg_solve : mat F -> vec F -> option (vec F).
Variable X : Type.
Variable func : vec F -> X -> vec F.
Variable jacobian : vec F -> X -> mat F.
Variable x_vals : X.
Variable y_vals : vec F.
Variable tolerance : F.

Definition gauss_newton_in_place_body (iteration : Z)
  (st : vec F * list gn_entry)
  : result (control (vec F * list gn_entry)
                    (vec F * list gn_entry * vec F)) :=
  match gauss_newton_body norm linalg_solve func jacobian x_vals y_vals
          tolerance iteration st with
  | Ok (Return r) => Ok (Return (r, fst st))
  | Ok (Continue st') => Ok (Continue st')
  | Raise e => Raise e
  end.

Definition gauss_newton_in_place (initial_guess : vec F)
  (max_iterations : Z) : result (vec F * list gn_entry * vec F) :=
  for_each gauss_newton_in_place_body (fun st => Ok (st, fst st))
    (range max_iterations) (initial_guess, []).

End InPlace.

(** ** Reading the arrays of [lu_decomposition] *)

(** The entries [v[i]] and [m[i][j]] of arrays of rationals, with 0
    outside, and sums [t(k1) + ... ] over a list of indices, added up from
    0 as Python's [sum] does. *)
Definition entry (v : vec Q) (i : nat) : Q := nth i v 0.

Definition entry2 (m : mat Q) (i j : nat) : Q := nth j (nth i m []) 0.

Definition sigma (t : nat -> Q) (ks : list nat) : Q :=
  fold_left (fun acc k => acc + t k) ks 0.

(** A matrix of [n] rows with [n] entries each. *)
Definition square (n : nat) (m : mat Q) : Prop :=
  length m = n /\ forall r, (r < n)%nat -> length (nth r m []) = n.

(** * Properties *)

(** ** Loops *)

Lemma upto_S (k : nat) : upto (S k) = upto k ++ [Z.of_nat k].
Proof.
  unfold upto. rewrite seq_S, map_app. reflexivity.
Qed.

Lemma upto_length (k : nat) : length (upto k) = k.
Proof.
  unfold upto. rewrite length_map, length_seq. reflexivity.
Qed.

Lemma range_upto (n : Z) : range n = upto (Z.to_nat n).
Proof. reflexivity. Qed.

(** A [range] loop split at its pass number [k]. *)
Lemma upto_split (n k : nat) :
  (k < n)%nat ->
  exists rest, upto n = upto k ++ Z.of_nat k :: rest.
Proof.
  intros Hk. unfold upto.
  exists (map Z.of_nat (seq (S k) (n - S k))).
  replace n with (k + S (n - S k))%nat at 1 by lia.
  rewrite seq_app, map_app. reflexivity.
Qed.

Section LoopFacts.
Variables I S R : Type.
Variable body : I -> S -> result (control S R).
Variable orelse : S -> result R.

Lemma for_each_reach (l1 l2 : list I) (s s' : S) :
  run_loop body l1 s = Ok (Continue s') ->
  for_each body orelse (l1 ++ l2) s = for_each body orelse l2 s'.
Proof.
  revert s. induction l1 as [|i l1 IH]; intros s Hrun; simpl in *.
  - congruence.
  - destruct (body i s) as [[s1|r]|e]; simpl in *; try discriminate.
    apply IH, Hrun.
Qed.

Lemma for_each_count_reach (l1 l2 : list I) (s s' : S) (n : nat) :
  run_loop body l1 s = Ok (Continue s') ->
  for_each_count body orelse (l1 ++ l2) s n =
  for_each_count body orelse l2 s' (length l1 + n).
Proof.
  revert s n. induction l1 as [|i l1 IH]; intros s n Hrun; simpl in *.
  - congruence.
  - destruct (body i s) as [[s1|r]|e]; simpl in *; try discriminate.
    rewrite (IH _ _ Hrun). f_equal. lia.
Qed.

Lemma run_loop_snoc (l : list I) (i : I) (s s1 s2 : S) :
  run_loop body l s = Ok (Continue s1) ->
  body i s1 = Ok (Continue s2) ->
  run_loop body (l ++ [i]) s = Ok (Continue s2).
Proof.
  revert s. induction l as [|i0 l IH]; intros s Hrun Hbody; simpl in *.
  - injection Hrun as ->. rewrite Hbody. reflexivity.
  - destruct (body i0 s) as [[s0|r]|e]; simpl in *; try discriminate.
    apply IH; assumption.
Qed.

Lemma run_loop_snoc_inv (l : list I) (i : I) (s s2 : S) :
  run_loop body (l ++ [i]) s = Ok (Continue s2) ->
  exists s1, run_loop body l s = Ok (Continue s1) /\
             body i s1 = Ok (Continue s2).
Proof.
  revert s. induction l as [|i0 l IH]; intros s; simpl.
  - destruct (body i s) as [[s1|r]|e] eqn:Hb; simpl; try discriminate.
    intros [= <-]. exists s. split; [reflexivity|exact Hb].
  - destruct (body i0 s) as [[s0|r]|e]; simpl; try discriminate.
    apply IH.
Qed.

(** A relation between the state and the count that every pass keeps holds
    of what the counting loop returns. *)
Lemma for_each_count_invariant (Inv : S -> nat -> Prop)
  (Post : R -> nat -> Prop) :
  (forall i s s' n, Inv s n -> body i s = Ok (Continue s') ->
                    Inv s' (Datatypes.S n)) ->
  (forall i s r n, Inv s n -> body i s = Ok (Return r) ->
                   Post r (Datatypes.S n)) ->
  (forall s r n, Inv s n -> orelse s = Ok r -> Post r n) ->
  forall l s n r m,
    Inv s n -> for_each_count body orelse l s n = Ok (r, m) -> Post r m.
Proof.
  intros Hstep Hret Helse l.
  induction l as [|i l IH]; intros s n r m Hinv; simpl.
  - destruct (orelse s) as [r0|e] eqn:Ho; simpl; [|discriminate].
    intros [= <- <-]. eapply Helse; eassumption.
  - destruct (body i s) as [[s1|r1]|e] eqn:Hb; simpl; try discriminate.
    + apply IH. eapply Hstep; eassumption.
    + intros [= <- <-]. eapply Hret; eassumption.
Qed.

(** Dropping the count gives the loop back. *)
Lemma for_each_count_erase (l : list I) (s : S) (n m : nat) (r : R) :
  for_each_count body orelse l s n = Ok (r, m) ->
  for_each body orelse l s = Ok r.
Proof.
  revert s n. induction l as [|i l IH]; intros s n; simpl.
  - destruct (orelse s); simpl; congruence.
  - destruct (body i s) as [[s1|r1]|e]; simpl; try discriminate.
    + apply IH.
    + congruence.
Qed.

Lemma for_each_count_total (l : list I) (s : S) (n : nat) (r : R) :
  for_each body orelse l s = Ok r ->
  exists m, for_each_count body orelse l s n = Ok (r, m).
Proof.
  revert s n. induction l as [|i l IH]; intros s n; simpl.
  - intros ->. exists n. reflexivity.
  - destruct (body i s) as [[s1|r1]|e]; simpl; try discriminate.
    + apply IH.
    + intros [= <-]. exists (Datatypes.S n). reflexivity.
Qed.

(** A property of the state that every pass keeps holds of what the loop
    returns. *)
Lemma for_each_invariant (Inv : S -> Prop) (Post : R -> Prop) :
  (forall i s s', Inv s -> body i s = Ok (Continue s') -> Inv s') ->
  (forall i s r, Inv s -> body i s = Ok (Return r) -> Post r) ->
  (forall s r, Inv s -> orelse s = Ok r -> Post r) ->
  forall l s r, Inv s -> for_each body orelse l s = Ok r -> Post r.
Proof.
  intros Hstep Hret Helse l.
  induction l as [|i l IH]; intros s r Hinv; simpl.
  - apply Helse, Hinv.
  - destruct (body i s) as [[s1|r1]|e] eqn:Hb; simpl; try discriminate.
    + apply IH. eapply Hstep; eassumption.
    + intros [= <-]. eapply Hret; eassumption.
Qed.

End LoopFacts.

(** ** The 2x2 solvers in exact arithmetic *)

Lemma Qltb_lt (x y : Q) : Qltb x y = true <-> x < y.
Proof.
  unfold Qltb. rewrite negb_true_iff.
  split; intros Hxy.
  - apply Qnot_le_lt. intros Hle.
    apply Qle_bool_iff in Hle. congruence.
  - destruct (Qle_bool y x) eqn:Hle; [|reflexivity].
    apply Qle_bool_iff in Hle. exfalso. eapply Qlt_not_le; eassumption.
Qed.

Lemma Qltb_ge (x y : Q) : Qltb x y = false <-> y <= x.
Proof.
  unfold Qltb. rewrite negb_false_iff. apply Qle_bool_iff.
Qed.

(** In any arithmetic the two solvers raise by their own tests, made on
    the determinant as they compute it. *)
Lemma solve_2x2_raises_iff {F : Type} `{Scalar F} (a b c d : F)
  (v : vec F) :
  solve_2x2 [[a; b]; [c; d]] v = Raise SingularMatrix <->
  (fabs (a * d - b * c) <? lit (1 # 100000000000000))%S = true.
Proof.
  unfold solve_2x2. cbn [mget vget nth_error bind].
  destruct (fabs (a * d - b * c) <? lit (1 # 100000000000000))%S.
  - tauto.
  - split; [|discriminate].
    destruct v as [|v0 [|v1 v]]; discriminate.
Qed.

Lemma solve_linear_system_raises_iff {F : Type} `{Scalar F} (a b c d : F)
  (v : vec F) :
  solve_linear_system [[a; b]; [c; d]] v = Raise SingularMatrix <->
  (a * d - b * c =? lit 0)%S = true.
Proof.
  unfold solve_linear_system. cbn [mget vget nth_error bind].
  destruct (a * d - b * c =? lit 0)%S.
  - tauto.
  - split; [|discriminate].
    destruct v as [|v0 [|v1 v]]; discriminate.
Qed.

Lemma solve_2x2_singular_iff (a b c d : Q) (v : vec Q) :
  solve_2x2 [[a; b]; [c; d]] v = Raise SingularMatrix <->
  Qabs (det2 a b c d) < singular_threshold.
Proof.
  rewrite solve_2x2_raises_iff. apply Qltb_lt.
Qed.

Lemma solve_linear_system_singular_iff (a b c d : Q) (v : vec Q) :
  solve_linear_system [[a; b]; [c; d]] v = Raise SingularMatrix <->
  det2 a b c d == 0.
Proof.
  rewrite solve_linear_system_raises_iff. apply Qeq_bool_iff.
Qed.

(** C5, with each solver given its own test, made on the determinant as
    the solver computes it.  In any arithmetic [solve_2x2] raises its
    singular-matrix error exactly when the absolute value of the computed
    determinant [a * d - b * c] compares below 1e-14, whereas
    [solve_linear_system] raises it exactly when the computed determinant
    compares equal to 0.  In exact arithmetic the computed determinant is
    the determinant of the matrix, and the tests are [|det A| < 1e-14] and
    [det A = 0].  For the matrix [[1, 2], [2, 4]] both raise it whatever
    the right-hand side is, in exact arithmetic and in binary64. *)
Theorem singular_matrix_conditions :
  (forall (F : Type) (S : Scalar F) (a b c d : F) (v : vec F),
      (solve_2x2 [[a; b]; [c; d]] v = Raise SingularMatrix <->
       (fabs (a * d - b * c) <? lit (1 # 100000000000000))%S = true) /\
      (solve_linear_system [[a; b]; [c; d]] v = Raise SingularMatrix <->
       (a * d - b * c =? lit 0)%S = true)) /\
  (forall (a b c d : Q) (v : vec Q),
      solve_2x2 [[a; b]; [c; d]] v = Raise SingularMatrix <->
      Qabs (det2 a b c d) < singular_threshold) /\
  (forall (a b c d : Q) (v : vec Q),
      solve_linear_system [[a; b]; [c; d]] v = Raise SingularMatrix <->
      det2 a b c d == 0) /\
  (forall v : vec Q,
      solve_2x2 [[1; 2]; [2; 4]] v = Raise SingularMatrix /\
      solve_linear_system [[1; 2]; [2; 4]] v = Raise SingularMatrix) /\
  (forall v : vec float,
      solve_2x2 [[lit 1; lit 2]; [lit 2; lit 4]] v = Raise SingularMatrix /\
      solve_linear_system [[lit 1; lit 2]; [lit 2; lit 4]] v =
        Raise SingularMatrix).
Proof.
  split; [|split; [|split; [|split]]].
  - intros F S a b c d v. split.
    + apply solve_2x2_raises_iff.
    + apply solve_linear_system_raises_iff.
  - apply solve_2x2_singular_iff.
  - apply solve_linear_system_singular_iff.
  - intros v. split; reflexivity.
  - intros v. split.
    + apply solve_2x2_raises_iff. vm_compute. reflexivity.
    + apply solve_linear_system_raises_iff. vm_compute. reflexivity.
Qed.

(** C5 does not hold of [solve_linear_system]: a matrix with determinant
    2^-50, far below 1e-14, is solved without an error. *)
Lemma solve_linear_system_below_threshold :
  Qabs (det2 (1 # 2 ^ 50) 0 0 1) < singular_threshold /\
  solve_linear_system [[1 # 2 ^ 50; 0]; [0; 1]] [1; 1] =
    Ok [(1 * 1 - 1 * 0) / det2 (1 # 2 ^ 50) 0 0 1;
        ((1 # 2 ^ 50) * 1 - 0 * 1) / det2 (1 # 2 ^ 50) 0 0 1] /\
  ~ (solve_linear_system [[1 # 2 ^ 50; 0]; [0; 1]] [1; 1] =
       Raise SingularMatrix <->
     Qabs (det2 (1 # 2 ^ 50) 0 0 1) < singular_threshold).
Proof.
  assert (Hdet : Qabs (det2 (1 # 2 ^ 50) 0 0 1) < singular_threshold)
    by reflexivity.
  split; [exact Hdet|]. split; [reflexivity|].
  intros [_ Hraise]. specialize (Hraise Hdet). discriminate Hraise.
Qed.

(** In binary64 the two solvers part on the same matrix. *)
Lemma tiny_determinant_in_binary64 :
  solve_linear_system (F := float)
    [[lit (1 # 2 ^ 50); lit 0]; [lit 0; lit 1]] [lit 1; lit 1] =
    Ok [lit 1125899906842624; lit 1] /\
  solve_2x2 (F := float)
    [[lit (1 # 2 ^ 50); lit 0]; [lit 0; lit 1]] [lit 1; lit 1] =
    Raise SingularMatrix.
Proof. split; vm_compute; reflexivity. Qed.

(** In binary64 the determinant that the solvers compute is a rounded
    one.  The entries below are the doubles 0x1.0000000000001p+60, 0x1p+60,
    0x1.0000000000002p+60 and 0x1.0000000000001p+60; the determinant of
    the matrix is 65536, but both products round to the same double, the
    computed determinant is 0 and both solvers raise, where in exact
    arithmetic both solve the system. *)
Lemma determinant_rounded_in_binary64 :
  [lit 1152921504606847232; lit 1152921504606846976;
   lit 1152921504606847488] =
  [0x1.0000000000001p+60; 0x1p+60; 0x1.0000000000002p+60]%float /\
  det2 1152921504606847232 1152921504606846976
       1152921504606847488 1152921504606847232 == 65536 /\
  (forall v : vec float,
      solve_2x2
        [[lit 1152921504606847232; lit 1152921504606846976];
         [lit 1152921504606847488; lit 1152921504606847232]] v =
        Raise SingularMatrix /\
      solve_linear_system
        [[lit 1152921504606847232; lit 1152921504606846976];
         [lit 1152921504606847488; lit 1152921504606847232]] v =
        Raise SingularMatrix) /\
  (forall v : vec Q,
      solve_2x2
        [[1152921504606847232; 1152921504606846976];
         [1152921504606847488; 1152921504606847232]] v <>
        Raise SingularMatrix /\
      solve_linear_system
        [[1152921504606847232; 1152921504606846976];
         [1152921504606847488; 1152921504606847232]] v <>
        Raise SingularMatrix).
Proof.
  split; [vm_compute; reflexivity|]. split; [reflexivity|]. split.
  - intros v. split.
    + apply solve_2x2_raises_iff. vm_compute. reflexivity.
    + apply solve_linear_system_raises_iff. vm_compute. reflexivity.
  - intros v. split.
    + rewrite solve_2x2_singular_iff. intros Hlt.
      vm_compute in Hlt. discriminate Hlt.
    + rewrite solve_linear_system_singular_iff. intros Hz.
      vm_compute in Hz. discriminate Hz.
Qed.

(** Cramer's rule in exact arithmetic. *)
Lemma solve_2x2_exact (a b c d b0 b1 : Q) :
  ~ Qabs (det2 a b c d) < singular_threshold ->
  exists x0 x1,
    solve_2x2 [[a; b]; [c; d]] [b0; b1] = Ok [x0; x1] /\
    Forall2 Qeq (matvec [[a; b]; [c; d]] [x0; x1]) [b0; b1].
Proof.
  intros Hdet.
  assert (Hge : singular_threshold <= Qabs (det2 a b c d))
    by (apply Qnot_lt_le, Hdet).
  assert (Hnz : ~ det2 a b c d == 0).
  { intros Hz. rewrite Hz in Hge. revert Hge. unfold singular_threshold.
    apply Qlt_not_le. reflexivity. }
  apply Qltb_ge in Hge.
  unfold solve_2x2. cbn [mget vget nth_error bind].
  unfold det2, singular_threshold in *. cbn [lit Scalar_Q] in *.
  cbn [fltb fabs fsub fmul fdiv Scalar_Q]. rewrite Hge.
  eexists. eexists. split; [reflexivity|].
  cbn [matvec map dot fadd fmul lit Scalar_Q].
  repeat constructor; field; exact Hnz.
Qed.

(** Whatever [solve_2x2] returns is a solution. *)
Lemma solve_2x2_sound (a b c d b0 b1 : Q) (x : vec Q) :
  solve_2x2 [[a; b]; [c; d]] [b0; b1] = Ok x ->
  Forall2 Qeq (matvec [[a; b]; [c; d]] x) [b0; b1].
Proof.
  intros Hx.
  destruct (Qlt_le_dec (Qabs (det2 a b c d)) singular_threshold)
    as [Hlt|Hge].
  - apply (solve_2x2_singular_iff a b c d [b0; b1]) in Hlt. congruence.
  - apply Qle_not_lt in Hge.
    destruct (solve_2x2_exact b0 b1 Hge) as (x0 & x1 & Hok & Hsol).
    rewrite Hok in Hx. injection Hx as <-. exact Hsol.
Qed.

(** C6.  When the determinant of a 2x2 matrix [A] is not flagged as
    singular, [solve_2x2] returns a vector [x] with [A x = b] in exact
    rational arithmetic; for [A = [[2, 0], [0, 3]]] and [b = [4, 9]] it
    returns [[2, 3]]. *)
Theorem solve_2x2_solves :
  (forall a b c d b0 b1 : Q,
      ~ Qabs (det2 a b c d) < singular_threshold ->
      exists x0 x1,
        solve_2x2 [[a; b]; [c; d]] [b0; b1] = Ok [x0; x1] /\
        Forall2 Qeq (matvec [[a; b]; [c; d]] [x0; x1]) [b0; b1]) /\
  (exists x0 x1,
      solve_2x2 [[2; 0]; [0; 3]] [4; 9] = Ok [x0; x1] /\
      x0 == 2 /\ x1 == 3).
Proof.
  split.
  - apply solve_2x2_exact.
  - exists (12 # 6), (18 # 6). repeat split.
Qed.

(** In exact arithmetic the step of a fit with two parameters solves the
    normal equations [(J^T J) step = J^T r]. *)
Lemma normal_step_solves_normal_equations
  (linalg_solve : mat Q -> vec Q -> option (vec Q)) (X : Type)
  (func : vec Q -> X -> vec Q) (jacobian : vec Q -> X -> mat Q)
  (x_vals : X) (y_vals params step : vec Q) :
  is_2x2 (matmul (transpose (jacobian params x_vals))
            (jacobian params x_vals)) = true ->
  normal_step linalg_solve func jacobian x_vals y_vals params = Ok step ->
  Forall2 Qeq
    (matvec (matmul (transpose (jacobian params x_vals))
               (jacobian params x_vals)) step)
    (matvec (transpose (jacobian params x_vals))
       (residual func x_vals y_vals params)).
Proof.
  unfold normal_step, solve, matmul, matvec.
  set (J := jacobian params x_vals).
  set (r := residual func x_vals y_vals params).
  destruct (transpose J) as [|r0 [|r1 [|r2 rows]]]; cbn [map is_2x2];
    try discriminate.
  intros _ Hstep. apply solve_2x2_sound. exact Hstep.
Qed.

(** ** Gauss-Newton *)

Section GaussNewtonFacts.
Context {F : Type} `{Scalar F}.
Local Open Scope scalar_scope.
Variable norm : vec F -> F.
Variable linalg_solve : mat F -> vec F -> option (vec F).
Variable X : Type.
Variable func : vec F -> X -> vec F.
Variable jacobian : vec F -> X -> mat F.
Variable x_vals : X.
Variable y_vals : vec F.
Variable tolerance : F.

Local Abbreviation gn := (gauss_newton norm linalg_solve func jacobian
                        x_vals y_vals tolerance).
Local Abbreviation gn_body := (gauss_newton_body norm linalg_solve func jacobian
                             x_vals y_vals tolerance).
Local Abbreviation gn_count := (gauss_newton_count norm linalg_solve func
                              jacobian x_vals y_vals tolerance).
Local Abbreviation updates := (gn_updates norm linalg_solve func jacobian
                             x_vals y_vals).
Local Abbreviation small_step := (gn_small_step norm linalg_solve func jacobian
                                x_vals y_vals tolerance).
Local Abbreviation the_step := (normal_step linalg_solve func jacobian
                              x_vals y_vals).
Local Abbreviation res := (residual func x_vals y_vals).

(** One pass of the loop of [gauss_newton], in terms of [normal_step]. *)
Lemma gauss_newton_body_eq (iteration : Z) (p : vec F) (h : list gn_entry) :
  gn_body iteration (p, h) =
  (step <- the_step p ;;
   let h' := h ++ [ {| gn_iteration := iteration; gn_params := p;
                       gn_step := step; gn_error := norm (res p) |} ] in
   if norm step <? tolerance
   then Ok (Return (vadd p step, h'))
   else Ok (Continue (vadd p step, h'))).
Proof. reflexivity. Qed.

Lemma gn_updates_length (init : vec F) (k : nat) p h :
  updates init k = Some (p, h) -> length h = k.
Proof.
  revert p h. induction k as [|k IH]; intros p h; simpl.
  - intros [= <- <-]. reflexivity.
  - destruct (updates init k) as [[p0 h0]|]; [|discriminate].
    destruct (the_step p0) as [step|e]; [|discriminate].
    intros [= <- <-]. rewrite length_app, (IH _ _ eq_refl). simpl. lia.
Qed.

(** After [k] updates without a small step the loop is in the state that
    [gn_updates] gives. *)
Lemma gn_reach (init : vec F) (k : nat) p h :
  updates init k = Some (p, h) ->
  (forall j, (j < k)%nat -> small_step init j = false) ->
  run_loop gn_body (upto k) (init, []) = Ok (Continue (p, h)).
Proof.
  revert p h. induction k as [|k IH]; intros p h Hup Hsmall.
  - simpl in Hup. injection Hup as <- <-. reflexivity.
  - pose proof (Hsmall k (Nat.lt_succ_diag_r k)) as Hk.
    unfold gn_small_step in Hk. simpl in Hup.
    destruct (updates init k) as [[p0 h0]|] eqn:Hup0; [|discriminate].
    destruct (the_step p0) as [step|e] eqn:Hstep; [|discriminate].
    injection Hup as <- <-.
    rewrite upto_S. eapply run_loop_snoc.
    + apply IH; [reflexivity|]. intros j Hj. apply Hsmall. lia.
    + rewrite gauss_newton_body_eq, Hstep. cbn [bind].
      rewrite Hk. reflexivity.
Qed.

(** C1, for a linear solver that may fail.  Each iteration of
    [gauss_newton] takes as step what the linear solver returns for the
    normal equations [(J^T J) step = J^T r] with
    [r = y_vals - func(params)].  In a run in which iterations
    0, ..., k-1 got their steps and none was small: if iteration [k] gets a
    step of norm below [tolerance], the solver returns [params + step] and
    the history with the record of iteration [k] as its last; if the linear
    solver raises in iteration [k], so does the solver.  If all
    [max_iterations] iterations got their steps and none was small, the
    solver returns the parameters after [max_iterations] updates and the
    full history, without raising. *)
Theorem gauss_newton_runs (init : vec F) (max_iterations : Z) :
  (forall k p h step,
      (k < Z.to_nat max_iterations)%nat ->
      updates init k = Some (p, h) ->
      (forall j, (j < k)%nat -> small_step init j = false) ->
      the_step p = Ok step ->
      (norm step <? tolerance) = true ->
      gn init max_iterations =
      Ok (vadd p step,
          h ++ [ {| gn_iteration := Z.of_nat k; gn_params := p;
                    gn_step := step; gn_error := norm (res p) |} ])) /\
  (forall k p h e,
      (k < Z.to_nat max_iterations)%nat ->
      updates init k = Some (p, h) ->
      (forall j, (j < k)%nat -> small_step init j = false) ->
      the_step p = Raise e ->
      gn init max_iterations = Raise e) /\
  (forall p h,
      updates init (Z.to_nat max_iterations) = Some (p, h) ->
      (forall j, (j < Z.to_nat max_iterations)%nat ->
                 small_step init j = false) ->
      gn init max_iterations = Ok (p, h) /\
      length h = Z.to_nat max_iterations).
Proof.
  unfold gauss_newton. rewrite range_upto.
  split; [|split].
  - intros k p h step Hk Hup Hsmall Hstep Htest.
    destruct (upto_split Hk) as [rest ->].
    erewrite for_each_reach by (eapply gn_reach; eassumption).
    cbn [for_each]. rewrite gauss_newton_body_eq, Hstep.
    cbn [bind]. rewrite Htest. reflexivity.
  - intros k p h e Hk Hup Hsmall Hstep.
    destruct (upto_split Hk) as [rest ->].
    erewrite for_each_reach by (eapply gn_reach; eassumption).
    cbn [for_each]. rewrite gauss_newton_body_eq, Hstep. reflexivity.
  - intros p h Hup Hsmall. split.
    + rewrite <- (app_nil_r (upto _)).
      erewrite for_each_reach by (eapply gn_reach; eassumption).
      reflexivity.
    + eapply gn_updates_length, Hup.
Qed.

(** *** The damped solver *)

Local Abbreviation gnd := (gauss_newton_damped norm linalg_solve func jacobian
                         x_vals y_vals tolerance).
Local Abbreviation gnd_body := (gauss_newton_damped_body norm linalg_solve func
                              jacobian x_vals y_vals tolerance).
Local Abbreviation gnd_count := (gauss_newton_damped_count norm linalg_solve
                               func jacobian x_vals y_vals tolerance).
Local Abbreviation dupdates := (gnd_updates norm linalg_solve func jacobian
                              x_vals y_vals).
Local Abbreviation dsmall_step := (gnd_small_step norm linalg_solve func
                                 jacobian x_vals y_vals tolerance).
Local Abbreviation better := (improves norm func x_vals y_vals).
Local Abbreviation first_better := (first_improving norm func x_vals y_vals).
Local Abbreviation record := (gnd_record norm func x_vals y_vals).
Local Abbreviation search := (backtrack norm func x_vals y_vals).

(** [first_improving] returns the least improving factor in its window. *)
Lemma first_improving_some (p step : vec F) (n j i : nat) :
  first_better p step n j = Some i ->
  (j <= i < j + n)%nat /\ better p step i = true /\
  (forall i', (j <= i' < i)%nat -> better p step i' = false).
Proof.
  revert j. induction n as [|n IH]; intros j; simpl; [discriminate|].
  destruct (better p step j) eqn:Hj.
  - intros [= <-]. repeat split; try lia. exact Hj.
  - intros Hfind. destruct (IH _ Hfind) as (Hrange & Hi & Hbefore).
    repeat split; try lia; [exact Hi|].
    intros i' Hi'. destruct (Nat.eq_dec i' j) as [->|Hne]; [exact Hj|].
    apply Hbefore. lia.
Qed.

Lemma first_improving_none (p step : vec F) (n j : nat) :
  first_better p step n j = None <->
  (forall i, (j <= i < j + n)%nat -> better p step i = false).
Proof.
  revert j. induction n as [|n IH]; intros j; simpl.
  - split; [intros _ i Hi; lia | reflexivity].
  - destruct (better p step j) eqn:Hj.
    + split; [discriminate|]. intros Hall.
      rewrite Hall in Hj by lia. discriminate.
    + rewrite IH. split; intros Hall i Hi.
      * destruct (Nat.eq_dec i j) as [->|Hne]; [exact Hj|].
        apply Hall. lia.
      * apply Hall. lia.
Qed.

Lemma first_improving_found (p step : vec F) (n j i : nat) :
  (j <= i < j + n)%nat ->
  better p step i = true ->
  (forall i', (j <= i' < i)%nat -> better p step i' = false) ->
  first_better p step n j = Some i.
Proof.
  intros Hrange Hi Hbefore.
  destruct (first_better p step n j) as [i0|] eqn:Hfind.
  - destruct (first_improving_some _ _ _ _ Hfind) as (Hr0 & Hi0 & Hb0).
    f_equal. destruct (Nat.lt_trichotomy i0 i) as [Hlt|[Heq|Hgt]].
    + rewrite Hbefore in Hi0 by lia. discriminate.
    + exact Heq.
    + rewrite Hb0 in Hi by lia. discriminate.
  - rewrite first_improving_none in Hfind.
    rewrite Hfind in Hi by lia. discriminate.
Qed.

(** The inner loop finds the first improving factor among the
    [length halvings] factors it may try, and nothing else. *)
Lemma backtrack_first_improving (p step : vec F) (halvings : list Z)
  (j : nat) :
  search p step (norm (res p)) halvings (halved j) =
  match first_better p step (length halvings) j with
  | Some i => Some (halved i, trial p step i, norm (res (trial p step i)))
  | None => None
  end.
Proof.
  revert j. induction halvings as [|z l IH]; intros j; [reflexivity|].
  cbn [backtrack length first_improving].
  fold (trial p step j). fold (res (trial p step j)).
  fold (better p step j).
  destruct (better p step j); [reflexivity|].
  apply (IH (S j)).
Qed.

(** The inner loop of [gauss_newton_damped] tries the factors numbered
    0, ..., [max_halving] at most: it stops at the first improving one, and
    when it stops without one, none of these factors improves. *)
Lemma backtrack_tries_at_most (p step : vec F) (max_halving : Z) :
  match search p step (norm (res p)) (range (max_halving + 1)) (lit 1) with
  | Some (damping_factor, trial_params, new_error) =>
      exists i, (i < Z.to_nat (max_halving + 1))%nat /\
        damping_factor = halved i /\
        trial_params = vadd p (vscale (halved i) step) /\
        new_error = norm (res trial_params) /\
        better p step i = true /\
        (forall i', (i' < i)%nat -> better p step i' = false)
  | None =>
      forall i, (i < Z.to_nat (max_halving + 1))%nat ->
                better p step i = false
  end.
Proof.
  change (lit 1) with (halved 0).
  rewrite backtrack_first_improving, range_upto, upto_length.
  destruct (first_better p step (Z.to_nat (max_halving + 1)) 0)
    as [i|] eqn:Hfind.
  - destruct (first_improving_some _ _ _ _ Hfind) as (Hrange & Hi & Hbefore).
    exists i. repeat split; try lia; try assumption.
    intros i' Hi'. apply Hbefore. lia.
  - intros i Hi. rewrite first_improving_none in Hfind.
    apply Hfind. lia.
Qed.

(** One pass of the outer loop of [gauss_newton_damped]. *)
Lemma gauss_newton_damped_body_eq (max_halving k : Z) (p : vec F)
  (h : list gnd_entry) :
  gnd_body max_halving k (p, h) =
  (step <- the_step p ;;
   match first_better p step (Z.to_nat (max_halving + 1)) 0 with
   | None => Ok (Return (p, h))
   | Some j =>
       if norm (vscale (halved j) step) <? tolerance
       then Ok (Return (trial p step j, h ++ [record k p step j]))
       else Ok (Continue (trial p step j, h ++ [record k p step j]))
   end).
Proof.
  unfold gauss_newton_damped_body, normal_step.
  fold (res p).
  destruct (solve linalg_solve _ _) as [step|e]; [|reflexivity].
  cbn [bind]. change (lit 1) with (halved 0).
  rewrite backtrack_first_improving, range_upto, upto_length.
  destruct (first_better p step (Z.to_nat (max_halving + 1)) 0);
    reflexivity.
Qed.

Lemma gnd_updates_length (init : vec F) (max_halving : Z) (k : nat) p h :
  dupdates init max_halving k = Some (p, h) -> length h = k.
Proof.
  revert p h. induction k as [|k IH]; intros p h; simpl.
  - intros [= <- <-]. reflexivity.
  - destruct (dupdates init max_halving k) as [[p0 h0]|]; [|discriminate].
    destruct (the_step p0) as [step|e]; [|discriminate].
    destruct (first_better p0 step _ 0) as [j|]; [|discriminate].
    intros [= <- <-]. rewrite length_app, (IH _ _ eq_refl). simpl. lia.
Qed.

(** After [k] accepted updates without a small step the outer loop is in
    the state that [gnd_updates] gives. *)
Lemma gnd_reach (init : vec F) (max_halving : Z) (k : nat) p h :
  dupdates init max_halving k = Some (p, h) ->
  (forall j, (j < k)%nat -> dsmall_step init max_halving j = false) ->
  run_loop (gnd_body max_halving) (upto k) (init, []) = Ok (Continue (p, h)).
Proof.
  revert p h. induction k as [|k IH]; intros p h Hup Hsmall.
  - simpl in Hup. injection Hup as <- <-. reflexivity.
  - pose proof (Hsmall k (Nat.lt_succ_diag_r k)) as Hk.
    unfold gnd_small_step in Hk. simpl in Hup.
    destruct (dupdates init max_halving k) as [[p0 h0]|] eqn:Hup0;
      [|discriminate].
    destruct (the_step p0) as [step|e] eqn:Hstep; [|discriminate].
    destruct (first_better p0 step _ 0) as [i|] eqn:Hfind; [|discriminate].
    injection Hup as <- <-.
    rewrite upto_S. eapply run_loop_snoc.
    + apply IH; [reflexivity|]. intros j Hj. apply Hsmall. lia.
    + rewrite gauss_newton_damped_body_eq, Hstep. cbn [bind].
      rewrite Hfind, Hk. reflexivity.
Qed.

(** C4.  Let the damped run have come to iteration [k] with parameters [p]
    and history [h], and let the linear solver give a step there.  If none
    of the factors tried decreases the norm of the residual, the solver
    returns [p], the parameters before the step, and [h], the history so
    far; it does not raise.  The history is then shorter than
    [max_iterations], unlike the one returned when the budget runs out. *)
Theorem gauss_newton_damped_stagnates (init : vec F)
  (max_iterations max_halving : Z) (k : nat) (p : vec F)
  (h : list gnd_entry) (step : vec F) :
  (k < Z.to_nat max_iterations)%nat ->
  dupdates init max_halving k = Some (p, h) ->
  (forall j, (j < k)%nat -> dsmall_step init max_halving j = false) ->
  the_step p = Ok step ->
  (forall i, (i < Z.to_nat (max_halving + 1))%nat ->
             better p step i = false) ->
  gnd init max_iterations max_halving = Ok (p, h) /\
  (length h < Z.to_nat max_iterations)%nat.
Proof.
  intros Hk Hup Hsmall Hstep Hnone. split.
  - unfold gauss_newton_damped. rewrite range_upto.
    destruct (upto_split Hk) as [rest ->].
    erewrite for_each_reach by (eapply gnd_reach; eassumption).
    cbn [for_each]. rewrite gauss_newton_damped_body_eq, Hstep. cbn [bind].
    replace (first_better p step (Z.to_nat (max_halving + 1)) 0)
      with (@None nat); [reflexivity|].
    symmetry. apply first_improving_none. intros i Hi. apply Hnone. lia.
  - rewrite (gnd_updates_length _ _ _ Hup). exact Hk.
Qed.

(** C9.  Let the damped run have come to iteration [k] with parameters [p]
    and history [h], let the linear solver give [step] there and let the
    factor [lambda] numbered [i] be the one accepted.  If the norm of the
    damped step [lambda * step] is below [tolerance], the solver returns
    the trial point [p + lambda * step], and the record it appended holds
    the iteration number, [p], [lambda * step], the norms of the residual
    at [p] and at the trial point, and [lambda]. *)
Theorem gauss_newton_damped_converges (init : vec F)
  (max_iterations max_halving : Z) (k : nat) (p : vec F)
  (h : list gnd_entry) (step : vec F) (i : nat) :
  (k < Z.to_nat max_iterations)%nat ->
  dupdates init max_halving k = Some (p, h) ->
  (forall j, (j < k)%nat -> dsmall_step init max_halving j = false) ->
  the_step p = Ok step ->
  (i < Z.to_nat (max_halving + 1))%nat ->
  better p step i = true ->
  (forall i', (i' < i)%nat -> better p step i' = false) ->
  (norm (vscale (halved i) step) <? tolerance) = true ->
  gnd init max_iterations max_halving =
  Ok (vadd p (vscale (halved i) step),
      h ++ [ {| gnd_iteration := Z.of_nat k;
                gnd_params := p;
                gnd_step := vscale (halved i) step;
                gnd_old_error := norm (res p);
                gnd_new_error :=
                  norm (res (vadd p (vscale (halved i) step)));
                gnd_damping_factor := halved i |} ]).
Proof.
  intros Hk Hup Hsmall Hstep Hi Hbetter Hbefore Htest.
  unfold gauss_newton_damped. rewrite range_upto.
  destruct (upto_split Hk) as [rest ->].
  erewrite for_each_reach by (eapply gnd_reach; eassumption).
  cbn [for_each]. rewrite gauss_newton_damped_body_eq, Hstep. cbn [bind].
  rewrite (@first_improving_found p step _ 0 i); try lia; try assumption.
  - rewrite Htest. reflexivity.
  - intros i' Hi'. apply Hbefore. lia.
Qed.

(** The counting solvers return what the solvers return. *)
Lemma gauss_newton_count_agrees (init : vec F) (max_iterations : Z) p h :
  gn init max_iterations = Ok (p, h) <->
  exists n, gn_count init max_iterations = Ok (p, h, n).
Proof.
  unfold gauss_newton, gauss_newton_count. split.
  - apply for_each_count_total.
  - intros [n Hn]. eapply for_each_count_erase, Hn.
Qed.

Lemma gauss_newton_damped_count_agrees (init : vec F)
  (max_iterations max_halving : Z) p h :
  gnd init max_iterations max_halving = Ok (p, h) <->
  exists n, gnd_count init max_iterations max_halving = Ok (p, h, n).
Proof.
  unfold gauss_newton_damped, gauss_newton_damped_count. split.
  - apply for_each_count_total.
  - intros [n Hn]. eapply for_each_count_erase, Hn.
Qed.

(** C8, with the stagnating iteration counted.  The undamped solver
    returns a history as long as the number of outer iterations it started.
    The damped solver does so when it ends by the tolerance test or by
    exhausting [max_iterations]; when it stagnates in iteration [k], it has
    started [k + 1] iterations and the history holds the [k] records of the
    earlier ones, one fewer.  The two numbers never differ by more than
    that. *)
Theorem history_length_and_iterations :
  (forall init max_iterations p h n,
      gn_count init max_iterations = Ok (p, h, n) -> length h = n) /\
  (forall init max_iterations max_halving p h n,
      gnd_count init max_iterations max_halving = Ok (p, h, n) ->
      length h = n \/ S (length h) = n) /\
  (forall init max_iterations max_halving k p h step i,
      (k < Z.to_nat max_iterations)%nat ->
      dupdates init max_halving k = Some (p, h) ->
      (forall j, (j < k)%nat -> dsmall_step init max_halving j = false) ->
      the_step p = Ok step ->
      first_better p step (Z.to_nat (max_halving + 1)) 0 = Some i ->
      (norm (vscale (halved i) step) <? tolerance) = true ->
      gnd_count init max_iterations max_halving =
        Ok (trial p step i, h ++ [record (Z.of_nat k) p step i], S k) /\
      length (h ++ [record (Z.of_nat k) p step i]) = S k) /\
  (forall init max_iterations max_halving p h,
      dupdates init max_halving (Z.to_nat max_iterations) = Some (p, h) ->
      (forall j, (j < Z.to_nat max_iterations)%nat ->
                 dsmall_step init max_halving j = false) ->
      gnd_count init max_iterations max_halving =
        Ok (p, h, Z.to_nat max_iterations) /\
      length h = Z.to_nat max_iterations) /\
  (forall init max_iterations max_halving k p h step,
      (k < Z.to_nat max_iterations)%nat ->
      dupdates init max_halving k = Some (p, h) ->
      (forall j, (j < k)%nat -> dsmall_step init max_halving j = false) ->
      the_step p = Ok step ->
      first_better p step (Z.to_nat (max_halving + 1)) 0 = None ->
      gnd_count init max_iterations max_halving = Ok (p, h, S k) /\
      length h = k).
Proof.
  split; [|split; [|split; [|split]]].
  - intros init max_iterations p h n.
    unfold gauss_newton_count.
    apply for_each_count_invariant
      with (Inv := fun (s : vec F * list gn_entry) n => length (snd s) = n)
           (Post := fun (r : vec F * list gn_entry) m => length (snd r) = m);
      try reflexivity.
    + intros i [p0 h0] s' n0 Hlen. rewrite gauss_newton_body_eq.
      destruct (the_step p0) as [step|e]; [|discriminate]. cbn [bind].
      destruct (norm step <? tolerance); intros [= <-].
      cbn [snd] in *. rewrite length_app. simpl. lia.
    + intros i [p0 h0] r n0 Hlen. rewrite gauss_newton_body_eq.
      destruct (the_step p0) as [step|e]; [|discriminate]. cbn [bind].
      destruct (norm step <? tolerance); intros [= <-].
      cbn [snd] in *. rewrite length_app. simpl. lia.
    + intros s r n0 Hlen [= <-]. exact Hlen.
  - intros init max_iterations max_halving p h n.
    unfold gauss_newton_damped_count.
    apply for_each_count_invariant
      with (Inv := fun (s : vec F * list gnd_entry) n => length (snd s) = n)
           (Post := fun (r : vec F * list gnd_entry) m =>
                      length (snd r) = m \/ S (length (snd r)) = m);
      try reflexivity.
    + intros i [p0 h0] s' n0 Hlen. rewrite gauss_newton_damped_body_eq.
      destruct (the_step p0) as [step|e]; [|discriminate]. cbn [bind].
      destruct (first_better p0 step _ 0) as [j|]; [|discriminate].
      destruct (norm (vscale (halved j) step) <? tolerance); intros [= <-].
      cbn [snd] in *. rewrite length_app. simpl. lia.
    + intros i [p0 h0] r n0 Hlen. rewrite gauss_newton_damped_body_eq.
      destruct (the_step p0) as [step|e]; [|discriminate]. cbn [bind].
      destruct (first_better p0 step _ 0) as [j|].
      * destruct (norm (vscale (halved j) step) <? tolerance);
          intros [= <-].
        cbn [snd] in *. rewrite length_app. simpl. lia.
      * intros [= <-]. cbn [snd] in *. lia.
    + intros s r n0 Hlen [= <-]. left. exact Hlen.
  - intros init max_iterations max_halving k p h step i
      Hk Hup Hsmall Hstep Hfind Htest.
    unfold gauss_newton_damped_count. rewrite range_upto.
    destruct (upto_split Hk) as [rest ->].
    erewrite for_each_count_reach by (eapply gnd_reach; eassumption).
    cbn [for_each_count].
    rewrite gauss_newton_damped_body_eq, Hstep. cbn [bind].
    rewrite Hfind, Htest, upto_length, Nat.add_0_r, length_app.
    rewrite (gnd_updates_length _ _ _ Hup). split; [reflexivity|].
    simpl. lia.
  - intros init max_iterations max_halving p h Hup Hsmall. split.
    + unfold gauss_newton_damped_count. rewrite range_upto.
      rewrite <- (app_nil_r (upto _)).
      erewrite for_each_count_reach by (eapply gnd_reach; eassumption).
      cbn [for_each_count bind]. rewrite upto_length, Nat.add_0_r.
      reflexivity.
    + eapply gnd_updates_length, Hup.
  - intros init max_iterations max_halving k p h step
      Hk Hup Hsmall Hstep Hfind. split.
    + unfold gauss_newton_damped_count. rewrite range_upto.
      destruct (upto_split Hk) as [rest ->].
      erewrite for_each_count_reach by (eapply gnd_reach; eassumption).
      cbn [for_each_count].
      rewrite gauss_newton_damped_body_eq, Hstep. cbn [bind].
      rewrite Hfind, upto_length, Nat.add_0_r. reflexivity.
    + eapply gnd_updates_length, Hup.
Qed.

(** Every record of a returned history was written by an iteration that
    accepted the first improving factor of its step. *)
Lemma gnd_history_entries (init : vec F) (max_iterations max_halving : Z)
  (p : vec F) (h : list gnd_entry) :
  gnd init max_iterations max_halving = Ok (p, h) ->
  forall e, In e h ->
    exists step i,
      the_step (gnd_params e) = Ok step /\
      e = record (gnd_iteration e) (gnd_params e) step i /\
      better (gnd_params e) step i = true /\
      (forall i', (i' < i)%nat -> better (gnd_params e) step i' = false).
Proof.
  unfold gauss_newton_damped.
  set (P := fun e : gnd_entry =>
    exists step i,
      the_step (gnd_params e) = Ok step /\
      e = record (gnd_iteration e) (gnd_params e) step i /\
      better (gnd_params e) step i = true /\
      (forall i', (i' < i)%nat -> better (gnd_params e) step i' = false)).
  intros Hrun.
  assert (Hall : Forall P (snd (p, h))).
  { revert Hrun.
    apply for_each_invariant
      with (Inv := fun s : vec F * list gnd_entry => Forall P (snd s))
           (Post := fun r : vec F * list gnd_entry => Forall P (snd r))
           (s := (init, @nil gnd_entry)).
    - intros i [p0 h0] s' Hinv. rewrite gauss_newton_damped_body_eq.
      destruct (the_step p0) as [step|e] eqn:Hstep; [|discriminate].
      cbn [bind].
      destruct (first_better p0 step _ 0) as [j|] eqn:Hfind;
        [|discriminate].
      destruct (norm (vscale (halved j) step) <? tolerance); intros [= <-].
      cbn [snd] in *. apply Forall_app. split; [exact Hinv|].
      constructor; [|constructor].
      destruct (first_improving_some _ _ _ _ Hfind) as (_ & Hj & Hbefore).
      exists step, j. cbn. repeat split; try assumption.
      intros i' Hi'. apply Hbefore. lia.
    - intros i [p0 h0] r Hinv. rewrite gauss_newton_damped_body_eq.
      destruct (the_step p0) as [step|e] eqn:Hstep; [|discriminate].
      cbn [bind].
      destruct (first_better p0 step _ 0) as [j|] eqn:Hfind.
      + destruct (norm (vscale (halved j) step) <? tolerance);
          intros [= <-].
        cbn [snd] in *. apply Forall_app. split; [exact Hinv|].
        constructor; [|constructor].
        destruct (first_improving_some _ _ _ _ Hfind) as (_ & Hj & Hbefore).
        exists step, j. cbn. repeat split; try assumption.
        intros i' Hi'. apply Hbefore. lia.
      + intros [= <-]. exact Hinv.
    - intros s r Hinv [= <-]. exact Hinv.
    - constructor. }
  intros e He. cbn [snd] in Hall.
  rewrite Forall_forall in Hall. apply Hall, He.
Qed.

(** C2.  In a history returned by the damped solver every record has
    [new_error < old_error], where [old_error] is the norm of the residual
    at the recorded parameters and [new_error] the one at the recorded
    parameters plus the recorded step.  So, in an arithmetic in which 1
    halved at least once is below 1, as are exact arithmetic and
    binary64: if the full step does not decrease the norm of the residual
    at the recorded parameters, the recorded damping factor is below 1. *)
Theorem damped_records_decrease (init : vec F)
  (max_iterations max_halving : Z) (p : vec F) (h : list gnd_entry)
  (e : gnd_entry) :
  (forall i, (halved (S i) <? lit 1) = true) ->
  gnd init max_iterations max_halving = Ok (p, h) ->
  In e h ->
  (gnd_new_error e <? gnd_old_error e) = true /\
  gnd_old_error e = norm (res (gnd_params e)) /\
  gnd_new_error e = norm (res (vadd (gnd_params e) (gnd_step e))) /\
  (forall step,
      the_step (gnd_params e) = Ok step ->
      (norm (res (vadd (gnd_params e) (vscale (lit 1) step))) <?
       norm (res (gnd_params e))) = false ->
      (gnd_damping_factor e <? lit 1) = true).
Proof.
  intros Hhalved Hrun He.
  destruct (gnd_history_entries _ _ _ Hrun e He)
    as (step & i & Hstep & Hrec & Hi & Hbefore).
  set (q := gnd_params e) in *.
  rewrite Hrec. cbn [gnd_new_error gnd_old_error gnd_step gnd_params
                     gnd_damping_factor gnd_record].
  repeat split.
  - exact Hi.
  - intros step' Hstep' Hfull.
    rewrite Hstep in Hstep'. injection Hstep' as <-.
    destruct i as [|i].
    + unfold improves, trial in Hi. cbn [halved] in Hi. congruence.
    + apply Hhalved.
Qed.

End GaussNewtonFacts.

(** *** Halving in exact arithmetic and in binary64 *)

Lemma halved_Q_bounds (j : nat) : 0 < halved (F := Q) j <= 1.
Proof.
  induction j as [|j IH]; cbn [halved lit fmul Scalar_Q]; lra.
Qed.

Lemma halved_Q_below_1 (i : nat) :
  fltb (halved (F := Q) (S i)) (lit 1) = true.
Proof.
  pose proof (halved_Q_bounds i) as Hi.
  apply Qltb_lt. cbn [halved lit fmul Scalar_Q]. lra.
Qed.

(** In binary64 the factor reaches 0 after 1075 halvings and stays 0. *)
Lemma halved_float_underflow (j : nat) :
  halved (F := float) (1080 + j) = PrimFloat.zero.
Proof.
  induction j as [|j IH].
  - vm_compute. reflexivity.
  - rewrite Nat.add_succ_r. cbn [halved]. rewrite IH.
    vm_compute. reflexivity.
Qed.

Lemma halved_float_below_1 (i : nat) :
  fltb (halved (F := float) (S i)) (lit 1) = true.
Proof.
  destruct (Nat.le_gt_cases 1080 (S i)) as [Hlarge|Hsmall].
  - replace (S i) with (1080 + (S i - 1080))%nat by lia.
    rewrite halved_float_underflow. vm_compute. reflexivity.
  - assert (Hall : forallb (fun i => fltb (halved (F := float) (S i)) (lit 1))
                     (seq 0 1080) = true) by (vm_compute; reflexivity).
    rewrite forallb_forall in Hall. apply Hall.
    apply in_seq. lia.
Qed.

(** ** The root finders *)

Lemma upto_nonneg (k : nat) : Forall (fun i => (0 <= i)%Z) (upto k).
Proof.
  unfold upto. apply Forall_forall. intros i Hi.
  apply in_map_iff in Hi. destruct Hi as (j & <- & _). lia.
Qed.

Section NewtonFacts.
Context {F : Type} `{Scalar F}.
Local Open Scope scalar_scope.
Variable norm : vec F -> F.
Variable linalg_solve : mat F -> vec F -> option (vec F).
Variable f : vec F -> vec F.
Variable jacobian : vec F -> mat F.
Variable tol : F.

Local Abbreviation newton := (newton_method norm linalg_solve f jacobian tol).
Local Abbreviation nbody := (newton_method_body norm linalg_solve f jacobian
                               tol).
Local Abbreviation nstep := (newton_step linalg_solve f jacobian).
Local Abbreviation nupdates := (newton_updates linalg_solve f jacobian).
Local Abbreviation small_residual :=
  (newton_small_residual norm linalg_solve f jacobian tol).
Local Abbreviation out_of_budget :=
  (fun _ : vec F => @Raise (vec F * Z) NonConvergence).

Lemma newton_method_body_eq (i : Z) (x : vec F) :
  nbody i x =
  (delta_x <- nstep x ;;
   if norm (f x) <? tol
   then Ok (Return (vadd x delta_x, (i + 1)%Z))
   else Ok (Continue (vadd x delta_x))).
Proof. reflexivity. Qed.

(** The linear solve of [newton_method] raises nothing but its own error. *)
Lemma newton_step_raises (x : vec F) (e : exn) :
  nstep x = Raise e -> e = SingularMatrix.
Proof.
  unfold newton_step, np_linalg_solve.
  destruct (linalg_solve _ _); congruence.
Qed.

(** The loop goes through its first [k] passes exactly when [k] updates
    exist and none of the [k] tests succeeded. *)
Lemma newton_reach (x0 : vec F) (k : nat) (x : vec F) :
  run_loop nbody (upto k) x0 = Ok (Continue x) <->
  nupdates x0 k = Some x /\
  (forall j, (j < k)%nat -> small_residual x0 j = false).
Proof.
  revert x. induction k as [|k IH]; intros x.
  - simpl. split.
    + intros [= <-]. split; [reflexivity|]. intros j Hj. lia.
    + intros [[= <-] _]. reflexivity.
  - rewrite upto_S. split.
    + intros Hrun. apply run_loop_snoc_inv in Hrun.
      destruct Hrun as (x1 & Hrun & Hbody).
      apply IH in Hrun. destruct Hrun as [Hup Hsmall].
      rewrite newton_method_body_eq in Hbody.
      destruct (nstep x1) as [delta|e] eqn:Hstep; [|discriminate].
      cbn [bind] in Hbody.
      destruct (norm (f x1) <? tol) eqn:Htest; [discriminate|].
      injection Hbody as <-. split.
      * simpl. rewrite Hup, Hstep. reflexivity.
      * intros j Hj. destruct (Nat.eq_dec j k) as [->|Hne].
        -- unfold newton_small_residual. rewrite Hup. exact Htest.
        -- apply Hsmall. lia.
    + intros [Hup Hsmall]. simpl in Hup.
      destruct (nupdates x0 k) as [x1|] eqn:Hup1; [|discriminate].
      destruct (nstep x1) as [delta|e] eqn:Hstep; [|discriminate].
      injection Hup as <-.
      eapply run_loop_snoc.
      * apply IH. split; [reflexivity|]. intros j Hj. apply Hsmall. lia.
      * rewrite newton_method_body_eq, Hstep. cbn [bind].
        pose proof (Hsmall k (Nat.lt_succ_diag_r k)) as Hk.
        unfold newton_small_residual in Hk. rewrite Hup1 in Hk.
        rewrite Hk. reflexivity.
Qed.

(** The budget error comes from the end of the loop and from nowhere
    else. *)
Lemma newton_out_of_budget_iff (l : list Z) (x : vec F) :
  for_each nbody out_of_budget l x = Raise NonConvergence <->
  exists x', run_loop nbody l x = Ok (Continue x').
Proof.
  revert x. induction l as [|i l IH]; intros x; cbn [for_each run_loop].
  - split; [intros _; exists x; reflexivity | reflexivity].
  - rewrite newton_method_body_eq.
    destruct (nstep x) as [delta|e] eqn:Hstep; cbn [bind].
    + destruct (norm (f x) <? tol).
      * split; [discriminate | intros [x' Hx']; discriminate].
      * apply IH.
    + apply newton_step_raises in Hstep. subst e.
      split; [discriminate | intros [x' Hx']; discriminate].
Qed.

(** A returned iteration count is at least 1. *)
Lemma newton_count_positive (l : list Z) (x x' : vec F) (n : Z) :
  Forall (fun i => (0 <= i)%Z) l ->
  for_each nbody out_of_budget l x = Ok (x', n) -> (1 <= n)%Z.
Proof.
  intros Hl. revert x. induction Hl as [|i l Hi Hl IH]; intros x;
    cbn [for_each]; [discriminate|].
  rewrite newton_method_body_eq.
  destruct (nstep x) as [delta|e]; cbn [bind]; [|discriminate].
  destruct (norm (f x) <? tol).
  - intros [= _ <-]. lia.
  - apply IH.
Qed.

(** C7.  [newton_method] raises its non-convergence error exactly when all
    [max_iter] iterations complete and in none of them the norm of [f] at
    the point the iteration starts from is below [tol].  When the test of
    iteration [k] (counted from 0) succeeds, the earlier ones having failed,
    it returns the point after the update of that iteration and the count
    [k + 1]. *)
Theorem newton_method_outcomes (x0 : vec F) (max_iter : Z) :
  (newton x0 max_iter = Raise NonConvergence <->
   (exists x, nupdates x0 (Z.to_nat max_iter) = Some x) /\
   (forall j, (j < Z.to_nat max_iter)%nat -> small_residual x0 j = false))
  /\
  (forall k x delta_x,
      (k < Z.to_nat max_iter)%nat ->
      nupdates x0 k = Some x ->
      (forall j, (j < k)%nat -> small_residual x0 j = false) ->
      nstep x = Ok delta_x ->
      (norm (f x) <? tol) = true ->
      newton x0 max_iter = Ok (vadd x delta_x, (Z.of_nat k + 1)%Z)).
Proof.
  unfold newton_method. rewrite range_upto. split.
  - rewrite newton_out_of_budget_iff. split.
    + intros [x Hrun]. apply newton_reach in Hrun.
      destruct Hrun as [Hup Hsmall]. split; [exists x; exact Hup|].
      exact Hsmall.
    + intros [[x Hup] Hsmall]. exists x. apply newton_reach.
      split; assumption.
  - intros k x delta_x Hk Hup Hsmall Hstep Htest.
    destruct (upto_split Hk) as [rest ->].
    erewrite for_each_reach
      by (apply newton_reach; split; eassumption).
    cbn [for_each]. rewrite newton_method_body_eq, Hstep. cbn [bind].
    rewrite Htest. reflexivity.
Qed.

(** *** The damped root finder *)

Local Abbreviation dnewton := (damped_newton f jacobian tol).
Local Abbreviation dloop := (damped_newton_loop f jacobian tol).
Local Abbreviation dsearch := (damped_newton_search f).
Local Abbreviation dstep := (damped_newton_step f jacobian).

Lemma halved_by_division_shift (lambda_ : F) (j : nat) :
  halved_by_division (lambda_ / lit 2) j =
  halved_by_division lambda_ (S j).
Proof.
  induction j as [|j IH]; [reflexivity|].
  cbn [halved_by_division] in *. rewrite IH. reflexivity.
Qed.

(** What the [while True] loop leaves when it stops on [break]: a factor
    reached by halving, and the point damped by it. *)
Lemma damped_newton_search_result (fuel : nat) (x delta_x : vec F)
  (lambda0 lambda_ : F) (x_new : vec F) :
  dsearch fuel x delta_x lambda0 = Some (Ok (lambda_, x_new)) ->
  exists j, lambda_ = halved_by_division lambda0 j /\
            damped_point x delta_x lambda_ = Ok x_new.
Proof.
  revert lambda0. induction fuel as [|fuel IH]; intros lambda0;
    cbn [damped_newton_search]; [discriminate|].
  destruct (damped_point x delta_x lambda0) as [x1|e] eqn:Hpoint;
    [|discriminate].
  destruct (sum_abs (f x1)) as [s_new|e]; [|discriminate].
  destruct (sum_abs (f x)) as [s_old|e]; [|discriminate].
  destruct (s_new <? s_old).
  - intros [= <- <-]. exists 0%nat. split; [reflexivity|exact Hpoint].
  - intros Hrest. destruct (IH _ Hrest) as (j & Hj & Hp).
    exists (S j). rewrite <- halved_by_division_shift. split; assumption.
Qed.

Lemma damped_newton_count_positive (fuel : nat) (l : list Z)
  (x x' : vec F) (n : Z) :
  Forall (fun i => (0 <= i)%Z) l ->
  dloop fuel l x = Some (Ok (x', n)) -> (1 <= n)%Z.
Proof.
  intros Hl. revert x. induction Hl as [|k l Hk Hl IH]; intros x;
    cbn [damped_newton_loop]; [discriminate|].
  destruct (fx0 <- vget (f x) 0 ;; fx1 <- vget (f x) 1 ;;
            solve_linear_system (jacobian x) [- fx0; - fx1])
    as [delta|e]; [|discriminate].
  destruct (dsearch fuel x delta (lit 1)) as [[[lam x_new]|e]|];
    try discriminate.
  destruct (sum_abs (f x)) as [s|e]; [|discriminate].
  destruct (s <? tol).
  - intros [= _ <-]. lia.
  - apply IH.
Qed.

Local Abbreviation rejects := (damped_newton_rejects f).
Local Abbreviation rejects_first := (damped_newton_rejects_first f).

Lemma damped_newton_search_next (fuel : nat) (x delta_x : vec F)
  (lambda_ : F) :
  rejects x delta_x lambda_ = true ->
  dsearch (S fuel) x delta_x lambda_ =
  dsearch fuel x delta_x (lambda_ / lit 2).
Proof.
  unfold damped_newton_rejects. cbn [damped_newton_search].
  destruct (damped_point x delta_x lambda_) as [x_new|e]; [|discriminate].
  destruct (sum_abs (f x_new)) as [s_new|e]; [|discriminate].
  destruct (sum_abs (f x)) as [s_old|e]; [|discriminate].
  destruct (s_new <? s_old); [discriminate|reflexivity].
Qed.

(** While the factors are rejected the loop is still running. *)
Lemma damped_newton_search_short (n : nat) (x delta_x : vec F) :
  forall (lambda_ : F) (fuel : nat),
    rejects_first n x delta_x lambda_ = true ->
    (fuel <= n)%nat ->
    dsearch fuel x delta_x lambda_ = None.
Proof.
  induction n as [|n IH]; intros lambda_ fuel Hrej Hfuel.
  - replace fuel with 0%nat by lia. reflexivity.
  - destruct fuel as [|fuel]; [reflexivity|].
    cbn [damped_newton_rejects_first] in Hrej.
    apply andb_true_iff in Hrej. destruct Hrej as [Hnow Hlater].
    rewrite (damped_newton_search_next _ _ _ _ Hnow).
    apply IH; [exact Hlater | lia].
Qed.

Lemma damped_newton_search_skip (n : nat) (x delta_x : vec F) :
  forall (lambda_ : F) (fuel : nat),
    rejects_first n x delta_x lambda_ = true ->
    dsearch (n + fuel) x delta_x lambda_ =
    dsearch fuel x delta_x (halved_by_division lambda_ n).
Proof.
  induction n as [|n IH]; intros lambda_ fuel Hrej; [reflexivity|].
  cbn [damped_newton_rejects_first] in Hrej.
  apply andb_true_iff in Hrej. destruct Hrej as [Hnow Hlater].
  cbn [Nat.add]. rewrite (damped_newton_search_next _ _ _ _ Hnow).
  rewrite (IH _ _ Hlater). rewrite halved_by_division_shift. reflexivity.
Qed.

(** A rejected factor that halving does not change is rejected for ever. *)
Lemma damped_newton_search_stuck (x delta_x : vec F) (lambda_ : F) :
  rejects x delta_x lambda_ = true ->
  lambda_ / lit 2 = lambda_ ->
  forall fuel, dsearch fuel x delta_x lambda_ = None.
Proof.
  intros Hrej Hfix fuel. induction fuel as [|fuel IH]; [reflexivity|].
  rewrite (damped_newton_search_next _ _ _ _ Hrej), Hfix. exact IH.
Qed.

(** If the first [n] factors are rejected and the next one is rejected and
    unchanged by halving, the loop never stops. *)
Lemma damped_newton_search_never_stops (n : nat) (x delta_x : vec F)
  (lambda_ : F) :
  rejects_first n x delta_x lambda_ = true ->
  rejects x delta_x (halved_by_division lambda_ n) = true ->
  halved_by_division lambda_ n / lit 2 = halved_by_division lambda_ n ->
  forall fuel, dsearch fuel x delta_x lambda_ = None.
Proof.
  intros Hfirst Hrej Hfix fuel.
  destruct (Nat.le_gt_cases fuel n) as [Hle|Hgt].
  - eapply damped_newton_search_short; eassumption.
  - replace fuel with (n + (fuel - n))%nat by lia.
    rewrite (damped_newton_search_skip _ _ _ _ _ Hfirst).
    apply damped_newton_search_stuck; assumption.
Qed.

(** While its first halving loop runs, [damped_newton] does not return. *)
Lemma damped_newton_waits (fuel : nat) (x0 delta_x : vec F) (k_max : Z) :
  (1 <= k_max)%Z ->
  dstep x0 = Ok delta_x ->
  dsearch fuel x0 delta_x (lit 1) = None ->
  dnewton fuel x0 k_max = None.
Proof.
  intros Hmax Hstep Hsearch.
  assert (Hk : (0 < Z.to_nat k_max)%nat) by lia.
  destruct (upto_split Hk) as [rest Hsplit].
  unfold damped_newton. rewrite range_upto, Hsplit.
  cbn [upto seq map app damped_newton_loop].
  unfold damped_newton_step in Hstep. rewrite Hstep, Hsearch. reflexivity.
Qed.

(** C10, for both root finders.  With a budget of at least one iteration,
    both update before they test.  [newton_method]: if the norm of [f(x0)]
    is below [tol], it returns [x0 + delta] and the count 1; if the linear
    solve at [x0] fails, it raises; a count it returns is never below 1.
    [damped_newton] does the same with the damped step: if the sum of the
    absolute values of [f(x0)] is below [tol] and its halving loop stops
    with the factor [lambda], it returns [x0 + lambda * delta] and the
    count 1, where [lambda] is 1 halved some number of times; if its
    linear solve at [x0] fails, it raises; a count it returns is never
    below 1. *)
Theorem first_update_precedes_test (x0 : vec F) :
  (forall max_iter, (1 <= max_iter)%Z ->
     (forall delta_x,
         nstep x0 = Ok delta_x ->
         (norm (f x0) <? tol) = true ->
         newton x0 max_iter = Ok (vadd x0 delta_x, 1%Z)) /\
     (forall e, nstep x0 = Raise e ->
                newton x0 max_iter = Raise SingularMatrix) /\
     (forall x n, newton x0 max_iter = Ok (x, n) -> (1 <= n)%Z)) /\
  (forall k_max fuel, (1 <= k_max)%Z ->
     (forall delta_x lambda_ x_new s,
         dstep x0 = Ok delta_x ->
         dsearch fuel x0 delta_x (lit 1) = Some (Ok (lambda_, x_new)) ->
         sum_abs (f x0) = Ok s ->
         (s <? tol) = true ->
         dnewton fuel x0 k_max = Some (Ok (x_new, 1%Z)) /\
         damped_point x0 delta_x lambda_ = Ok x_new /\
         exists j, lambda_ = halved_by_division (lit 1) j) /\
     (forall e, dstep x0 = Raise e ->
                dnewton fuel x0 k_max = Some (Raise e)) /\
     (forall x n, dnewton fuel x0 k_max = Some (Ok (x, n)) -> (1 <= n)%Z)).
Proof.
  split.
  - intros max_iter Hmax.
    assert (Hk : (0 < Z.to_nat max_iter)%nat) by lia.
    destruct (upto_split Hk) as [rest Hsplit].
    unfold newton_method. rewrite range_upto.
    split; [|split].
    + intros delta_x Hstep Htest. rewrite Hsplit.
      cbn [upto seq map app for_each].
      rewrite newton_method_body_eq, Hstep. cbn [bind].
      rewrite Htest. reflexivity.
    + intros e Hstep. rewrite Hsplit.
      cbn [upto seq map app for_each].
      rewrite newton_method_body_eq, Hstep.
      apply newton_step_raises in Hstep. subst e. reflexivity.
    + intros x n. apply newton_count_positive, upto_nonneg.
  - intros k_max fuel Hmax.
    assert (Hk : (0 < Z.to_nat k_max)%nat) by lia.
    destruct (upto_split Hk) as [rest Hsplit].
    unfold damped_newton. rewrite range_upto.
    split; [|split].
    + intros delta_x lambda_ x_new s Hstep Hsearch Hsum Htest.
      rewrite Hsplit. cbn [upto seq map app damped_newton_loop].
      unfold damped_newton_step in Hstep. rewrite Hstep, Hsearch, Hsum.
      rewrite Htest.
      destruct (damped_newton_search_result _ _ _ _ Hsearch)
        as (j & Hj & Hpoint).
      split; [reflexivity|]. split; [exact Hpoint|].
      exists j. exact Hj.
    + intros e Hstep. rewrite Hsplit.
      cbn [upto seq map app damped_newton_loop].
      unfold damped_newton_step in Hstep. rewrite Hstep. reflexivity.
    + intros x n. apply damped_newton_count_positive, upto_nonneg.
Qed.

End NewtonFacts.

(** ** The halving loop of [damped_newton] at a root *)

Lemma sum_abs_Q_nonneg (v : vec Q) (s : Q) : sum_abs v = Ok s -> 0 <= s.
Proof.
  unfold sum_abs, vget.
  destruct (nth_error v 0) as [v0|]; [|discriminate].
  destruct (nth_error v 1) as [v1|]; [|discriminate].
  cbn [bind lit fadd fabs Scalar_Q]. intros [= <-].
  pose proof (Qabs_nonneg v0). pose proof (Qabs_nonneg v1). lra.
Qed.

(** At the root [[0, 0]] of the example system no damped point has a
    smaller sum of absolute values of [f], so the loop goes on whatever the
    step, the factor and the number of passes. *)
Lemma damped_newton_search_at_root (fuel : nat) (d0 d1 lambda_ : Q) :
  damped_newton_search Example.f fuel [0; 0] [d0; d1] lambda_ = None.
Proof.
  revert lambda_. induction fuel as [|fuel IH]; intros lambda_;
    [reflexivity|].
  cbn [damped_newton_search damped_point vget nth_error bind].
  destruct (sum_abs (Example.f [0 + lambda_ * d0; 0 + lambda_ * d1])%S)
    as [s_new|e] eqn:Hnew; [|discriminate Hnew].
  apply sum_abs_Q_nonneg in Hnew.
  change (sum_abs (Example.f [0; 0]))
    with (Ok (0 + Qabs (2 * 0 + 4 * 0) + Qabs (4 * 0 + 8 * (0 * 0 * 0)))).
  cbv iota beta.
  replace (fltb s_new _) with false; [apply IH|].
  symmetry. apply Qltb_ge.
  eapply Qle_trans; [|exact Hnew]. apply Qle_lteq. right. reflexivity.
Qed.

(** The same in binary64: after 1075 halvings the factor is 0 and stays 0,
    and no factor on the way is accepted. *)
Lemma damped_newton_search_at_root_binary64 (fuel : nat) :
  damped_newton_search (F := float) Example.f fuel [lit 0; lit 0]
    [fneg (lit 0); fneg (lit 0)] (lit 1) = None.
Proof.
  apply damped_newton_search_never_stops with (n := 1080%nat);
    vm_compute; reflexivity.
Qed.

(** C3, at the input on which the code fails.  Started at the root
    [[0, 0]] of its own example system, [damped_newton] never returns:
    whatever number of passes its halving loop is given, the loop is still
    running after them.  This holds in exact arithmetic and in binary64. *)
Theorem damped_newton_hangs_at_root :
  forall fuel : nat,
    damped_newton (F := Q) Example.f Example.jacobian (lit (1 # 1000000))
      fuel [lit 0; lit 0] 4 = None /\
    damped_newton (F := float) Example.f Example.jacobian (lit (1 # 1000000))
      fuel [lit 0; lit 0] 4 = None.
Proof.
  intros fuel. split.
  - destruct (damped_newton_step (F := Q) Example.f Example.jacobian [0; 0])
      as [[|d0 [|d1 [|d2 delta]]]|e] eqn:Hstep; try discriminate Hstep.
    eapply damped_newton_waits; [lia | exact Hstep |].
    apply damped_newton_search_at_root.
  - eapply damped_newton_waits with (delta_x := [fneg (lit 0); fneg (lit 0)]);
      [lia | vm_compute; reflexivity |].
    apply damped_newton_search_at_root_binary64.
Qed.

(** ** The solvers on concrete data *)

(** C1 does not hold when the normal equations are singular: with both
    samples at [x = 0] the straight-line fit has the normal matrix
    [[2, 0], [0, 0]], no iteration passes the stopping test, and
    [gauss_newton] raises instead of returning; in exact arithmetic and in
    binary64. *)
Lemma gauss_newton_raises_on_singular_system :
  normal_step linalg_solve_Q Example.line Example.line_jacobian
    Example.twice_x Example.line_y [0; 0] = Raise SingularMatrix /\
  (forall j, gn_small_step norm_Q linalg_solve_Q Example.line
               Example.line_jacobian Example.twice_x Example.line_y
               (1 # 100000000) [0; 0] j = false) /\
  gauss_newton norm_Q linalg_solve_Q Example.line Example.line_jacobian
    Example.twice_x Example.line_y (1 # 100000000) [0; 0] 20 =
    Raise SingularMatrix /\
  gauss_newton norm_float linalg_solve_float Example.line
    Example.line_jacobian Example.twice_x Example.line_y
    (lit (1 # 100000000)) [lit 0; lit 0] 20 = Raise SingularMatrix.
Proof.
  split; [reflexivity|]. split; [|split; vm_compute; reflexivity].
  assert (Hnone : forall j,
             gn_updates norm_Q linalg_solve_Q Example.line
               Example.line_jacobian Example.twice_x Example.line_y
               [0; 0] (S j) = None).
  { induction j as [|j IH]; [reflexivity|].
    cbn [gn_updates] in *. rewrite IH. reflexivity. }
  intros [|j]; [reflexivity|].
  unfold gn_small_step. rewrite Hnone. reflexivity.
Qed.

(** C8 does not hold when the damped solver stagnates: started at the
    exact fit [[1, 2]] of the line through (0, 1) and (1, 3), it runs one
    outer iteration, finds no improving factor and returns an empty
    history; in exact arithmetic and in binary64. *)
Lemma damped_history_shorter_than_iterations :
  gauss_newton_damped norm_Q linalg_solve_Q Example.line
    Example.line_jacobian Example.line_x Example.line_y
    (1 # 100000000) [1; 2] 20 8 = Ok ([1; 2], []) /\
  gauss_newton_damped_count norm_Q linalg_solve_Q Example.line
    Example.line_jacobian Example.line_x Example.line_y
    (1 # 100000000) [1; 2] 20 8 = Ok ([1; 2], [], 1%nat) /\
  gauss_newton_damped_count norm_float linalg_solve_float Example.line
    Example.line_jacobian Example.line_x Example.line_y
    (lit (1 # 100000000)) [lit 1; lit 2] 20 8 =
    Ok ([lit 1; lit 2], [], 1%nat) /\
  ~ (forall p h n,
        gauss_newton_damped_count norm_Q linalg_solve_Q Example.line
          Example.line_jacobian Example.line_x Example.line_y
          (1 # 100000000) [1; 2] 20 8 = Ok (p, h, n) ->
        length h = n).
Proof.
  assert (Hrun : gauss_newton_damped_count norm_Q linalg_solve_Q
                   Example.line Example.line_jacobian Example.line_x
                   Example.line_y (1 # 100000000) [1; 2] 20 8 =
                 Ok ([1; 2], [], 1%nat)) by (vm_compute; reflexivity).
  split; [vm_compute; reflexivity|]. split; [exact Hrun|].
  split; [vm_compute; reflexivity|].
  intros Hlen. specialize (Hlen _ _ _ Hrun). discriminate Hlen.
Qed.

(** C10 does not hold of [damped_newton]: from [[0, 3/5]] with
    [tol = 5] the test on [f(x0)] succeeds, the factors 1, ..., 1/64 are
    rejected, and the solver returns [x0 + delta / 128] with the count 1,
    which is not [x0 + delta]. *)
Lemma damped_newton_returns_damped_point :
  damped_newton_step Example.f Example.jacobian [0; 3 # 5] =
    Ok [-5400000 # 500000; 96000 # 20000] /\
  (exists s, sum_abs (Example.f [0; 3 # 5]) = Ok s /\ s < 5) /\
  damped_newton Example.f Example.jacobian 5 20 [0; 3 # 5] 4 =
    Some (Ok ([-5400000 # 64000000; 8160000 # 12800000], 1%Z)) /\
  Forall2 Qeq [-5400000 # 64000000; 8160000 # 12800000]
    (vadd [0; 3 # 5]
       (vscale (1 # 128) [-5400000 # 500000; 96000 # 20000])) /\
  ~ Forall2 Qeq [-5400000 # 64000000; 8160000 # 12800000]
      (vadd [0; 3 # 5] [-5400000 # 500000; 96000 # 20000]).
Proof.
  split; [vm_compute; reflexivity|].
  split; [eexists; split; [vm_compute; reflexivity | reflexivity]|].
  split; [vm_compute; reflexivity|].
  split.
  - repeat constructor.
  - intros Hall. inversion Hall as [|a b l l' Hab Hrest]; subst.
    vm_compute in Hab. discriminate Hab.
Qed.

(** The same run in binary64 accepts the factor 1/128 as well. *)
Lemma damped_point_in_binary64 :
  exists delta_x x,
    damped_newton_step (F := float) Example.f Example.jacobian
      [lit 0; lit (3 # 5)] = Ok delta_x /\
    damped_newton_search Example.f 20 [lit 0; lit (3 # 5)] delta_x (lit 1) =
      Some (Ok (lit (1 # 128), x)) /\
    damped_newton Example.f Example.jacobian (lit 5) 20
      [lit 0; lit (3 # 5)] 4 = Some (Ok (x, 1%Z)).
Proof.
  eexists. eexists.
  split; [vm_compute; reflexivity|].
  split; vm_compute; reflexivity.
Qed.

(** *** The theorems at work

    The straight line through (0, 1) and (1, 3) is fitted from [[0, 0]]:
    the first iteration steps to the exact fit [[1, 2]], the second finds a
    zero step.  The undamped solver stops there by its tolerance test. *)
Lemma gauss_newton_runs_witness :
  gauss_newton norm_Q linalg_solve_Q Example.line Example.line_jacobian
    Example.line_x Example.line_y (1 # 100000000) [0; 0] 20 =
  Ok (vadd [1; 2] [0; 0],
      [ {| gn_iteration := 0;
           gn_params := [0; 0];
           gn_step := [1; 2];
           gn_error :=
             norm_Q (residual Example.line Example.line_x Example.line_y
                       [0; 0]) |} ] ++
      [ {| gn_iteration := 1;
           gn_params := [1; 2];
           gn_step := [0; 0];
           gn_error :=
             norm_Q (residual Example.line Example.line_x Example.line_y
                       [1; 2]) |} ]).
Proof.
  apply (proj1 (gauss_newton_runs norm_Q linalg_solve_Q Example.line
                  Example.line_jacobian Example.line_x Example.line_y
                  (1 # 100000000) [0; 0] 20) 1%nat).
  - vm_compute. lia.
  - vm_compute. reflexivity.
  - intros [|j] Hj; [vm_compute; reflexivity | lia].
  - vm_compute. reflexivity.
  - vm_compute. reflexivity.
Defined.

(** The record of the same fit by the damped solver, in binary64. *)
Lemma damped_records_decrease_witness :
  exists e,
    In e [Example.line_record norm_float] /\
    fltb (gnd_new_error e) (gnd_old_error e) = true.
Proof.
  eexists. split; [left; reflexivity|].
  refine (proj1 (damped_records_decrease norm_float linalg_solve_float
                   Example.line Example.line_jacobian
                   Example.line_x Example.line_y
                   (lit (1 # 100000000)) [lit 0; lit 0] 20 8
                   (p := [lit 1; lit 2])
                   (h := [Example.line_record norm_float])
                   _ halved_float_below_1 _ _)).
  - vm_compute. reflexivity.
  - left. reflexivity.
Defined.

(** The damped solver stagnates in its second iteration, at the exact
    fit. *)
Lemma gauss_newton_damped_stagnates_witness :
  gauss_newton_damped norm_Q linalg_solve_Q Example.line
    Example.line_jacobian Example.line_x Example.line_y
    (1 # 100000000) [0; 0] 20 8 =
    Ok ([1; 2], [Example.line_record norm_Q]) /\
  (length [Example.line_record norm_Q] < Z.to_nat 20)%nat.
Proof.
  apply (gauss_newton_damped_stagnates norm_Q linalg_solve_Q Example.line
           Example.line_jacobian Example.line_x Example.line_y
           (1 # 100000000) [0; 0] 20 8 (k := 1) (step := [0; 0])).
  - vm_compute. lia.
  - vm_compute. reflexivity.
  - intros [|j] Hj; [vm_compute; reflexivity | lia].
  - vm_compute. reflexivity.
  - intros i Hi.
    do 9 (destruct i as [|i]; [vm_compute; reflexivity|]).
    vm_compute in Hi. lia.
Defined.

(** With the tolerance 3 the damped solver stops in its first iteration,
    whose full step has a norm below 3. *)
Lemma gauss_newton_damped_converges_witness :
  gauss_newton_damped norm_Q linalg_solve_Q Example.line
    Example.line_jacobian Example.line_x Example.line_y 3 [0; 0] 20 8 =
  Ok (vadd [0; 0] (vscale (halved 0) [1; 2]),
      [] ++
      [ {| gnd_iteration := 0;
           gnd_params := [0; 0];
           gnd_step := vscale (halved 0) [1; 2];
           gnd_old_error :=
             norm_Q (residual Example.line Example.line_x Example.line_y
                       [0; 0]);
           gnd_new_error :=
             norm_Q (residual Example.line Example.line_x Example.line_y
                       (vadd [0; 0] (vscale (halved 0) [1; 2])));
           gnd_damping_factor := halved 0 |} ]).
Proof.
  apply (gauss_newton_damped_converges norm_Q linalg_solve_Q Example.line
           Example.line_jacobian Example.line_x Example.line_y 3 [0; 0] 20 8
           (k := 0) (h := []) (i := 0)).
  - vm_compute. lia.
  - reflexivity.
  - intros j Hj. lia.
  - vm_compute. reflexivity.
  - vm_compute. lia.
  - vm_compute. reflexivity.
  - intros i' Hi'. lia.
  - vm_compute. reflexivity.
Defined.

(** The system with the matrix [[2, 0], [0, 3]], of determinant 6. *)
Lemma solve_2x2_solves_witness :
  exists x0 x1,
    solve_2x2 [[2; 0]; [0; 3]] [4; 9] = Ok [x0; x1] /\
    Forall2 Qeq (matvec [[2; 0]; [0; 3]] [x0; x1]) [4; 9].
Proof.
  apply (proj1 solve_2x2_solves 2 0 0 3 4 9).
  intros Hlt. vm_compute in Hlt. discriminate Hlt.
Defined.

(** [newton_method] started at the root [[2, -1]] of the example system
    passes its first test and returns after one update. *)
Lemma newton_method_outcomes_witness :
  exists delta_x,
    newton_step linalg_solve_Q Example.f Example.jacobian [2; -1] =
      Ok delta_x /\
    newton_method norm_Q linalg_solve_Q Example.f Example.jacobian
      (1 # 1000000) [2; -1] 100 =
    Ok (vadd [2; -1] delta_x, (Z.of_nat 0 + 1)%Z).
Proof.
  eexists. split; [vm_compute; reflexivity|].
  apply (proj2 (newton_method_outcomes norm_Q linalg_solve_Q Example.f
                  Example.jacobian (1 # 1000000) [2; -1] 100) 0%nat).
  - vm_compute. lia.
  - reflexivity.
  - intros j Hj. lia.
  - vm_compute. reflexivity.
  - vm_compute. reflexivity.
Defined.

(** The damped fit from [[0, 0]] starts two iterations and records one. *)
Lemma history_length_and_iterations_witness :
  gauss_newton_damped_count norm_Q linalg_solve_Q Example.line
    Example.line_jacobian Example.line_x Example.line_y
    (1 # 100000000) [0; 0] 20 8 =
    Ok ([1; 2], [Example.line_record norm_Q], 2%nat) /\
  length [Example.line_record norm_Q] = 1%nat.
Proof.
  refine (proj2 (proj2 (proj2 (proj2
            (history_length_and_iterations norm_Q linalg_solve_Q
               Example.line Example.line_jacobian Example.line_x
               Example.line_y (1 # 100000000)))))
            [0; 0] 20%Z 8%Z 1%nat _ _ [0; 0] _ _ _ _ _).
  - vm_compute. lia.
  - vm_compute. reflexivity.
  - intros [|j] Hj; [vm_compute; reflexivity | lia].
  - vm_compute. reflexivity.
  - vm_compute. reflexivity.
Defined.

(** [newton_method] at the root [[2, -1]] again: one update, count 1. *)
Lemma first_update_precedes_test_witness :
  exists delta_x,
    newton_step linalg_solve_Q Example.f Example.jacobian [2; -1] =
      Ok delta_x /\
    newton_method norm_Q linalg_solve_Q Example.f Example.jacobian
      (1 # 1000000) [2; -1] 100 = Ok (vadd [2; -1] delta_x, 1%Z).
Proof.
  eexists. split; [vm_compute; reflexivity|].
  refine (proj1 (proj1 (first_update_precedes_test norm_Q linalg_solve_Q
                          Example.f Example.jacobian (1 # 1000000) [2; -1])
                   100%Z _) _ _ _).
  - lia.
  - vm_compute. reflexivity.
  - vm_compute. reflexivity.
Defined.

(** * Further properties of the solvers *)

(** ** Loops over [range] *)

Section RangeLoopFacts.
Variables S R : Type.
Variable body : Z -> S -> result (control S R).
Variable orelse : S -> result R.

(** A property of the pass number and the state that every pass of a
    [range(n)] loop keeps holds of what the loop returns. *)
Lemma for_each_upto_invariant (n : nat) (Inv : nat -> S -> Prop)
  (Post : R -> Prop) :
  (forall k s s', (k < n)%nat -> Inv k s ->
                  body (Z.of_nat k) s = Ok (Continue s') -> Inv (Datatypes.S k) s') ->
  (forall k s r, (k < n)%nat -> Inv k s ->
                 body (Z.of_nat k) s = Ok (Return r) -> Post r) ->
  (forall k s r, (k <= n)%nat -> Inv k s -> orelse s = Ok r -> Post r) ->
  forall s r, Inv 0%nat s -> for_each body orelse (upto n) s = Ok r -> Post r.
Proof.
  intros Hstep Hret Helse.
  assert (Hgen : forall m a s r,
             (a + m = n)%nat -> Inv a s ->
             for_each body orelse (map Z.of_nat (seq a m)) s = Ok r ->
             Post r).
  { induction m as [|m IH]; intros a s r Ham Hinv; simpl.
    - apply (Helse a); [lia | exact Hinv].
    - destruct (body (Z.of_nat a) s) as [[s1|r1]|e] eqn:Hb; simpl;
        try discriminate.
      + apply (IH (Datatypes.S a)); [lia|].
        apply (Hstep a s); [lia | exact Hinv | exact Hb].
      + intros [= <-]. apply (Hret a s); [lia | exact Hinv | exact Hb]. }
  intros s r Hinv. apply (Hgen n 0%nat); [lia | exact Hinv].
Qed.

(** The same, where the code after the loop is known to start after all
    [n] passes. *)
Lemma for_each_upto_invariant_end (n : nat) (Inv : nat -> S -> Prop)
  (Post : R -> Prop) :
  (forall k s s', (k < n)%nat -> Inv k s ->
                  body (Z.of_nat k) s = Ok (Continue s') ->
                  Inv (Datatypes.S k) s') ->
  (forall k s r, (k < n)%nat -> Inv k s ->
                 body (Z.of_nat k) s = Ok (Return r) -> Post r) ->
  (forall s r, Inv n s -> orelse s = Ok r -> Post r) ->
  forall s r, Inv 0%nat s -> for_each body orelse (upto n) s = Ok r -> Post r.
Proof.
  intros Hstep Hret Helse.
  assert (Hgen : forall m a s r,
             (a + m = n)%nat -> Inv a s ->
             for_each body orelse (map Z.of_nat (seq a m)) s = Ok r ->
             Post r).
  { induction m as [|m IH]; intros a s r Ham Hinv; simpl.
    - apply Helse. replace n with a by lia. exact Hinv.
    - destruct (body (Z.of_nat a) s) as [[s1|r1]|e] eqn:Hb; simpl;
        try discriminate.
      + apply (IH (Datatypes.S a)); [lia|].
        apply (Hstep a s); [lia | exact Hinv | exact Hb].
      + intros [= <-]. apply (Hret a s); [lia | exact Hinv | exact Hb]. }
  intros s r Hinv. apply (Hgen n 0%nat); [lia | exact Hinv].
Qed.

End RangeLoopFacts.

(** ** The histories of the Gauss-Newton solvers *)

Lemma nth_error_snoc {A : Type} (l : list A) (a : A) (k : nat) (b : A) :
  nth_error (l ++ [a]) k = Some b ->
  ((k < length l)%nat /\ nth_error l k = Some b) \/
  (k = length l /\ b = a).
Proof.
  intros Hk. destruct (Nat.lt_ge_cases k (length l)) as [Hlt|Hge].
  - left. split; [exact Hlt|]. rewrite nth_error_app1 in Hk; assumption.
  - right. rewrite nth_error_app2 in Hk by exact Hge.
    destruct (k - length l)%nat as [|d] eqn:Hd; simpl in Hk.
    + split; [lia | congruence].
    + destruct d; discriminate.
Qed.

Lemma firstn_snoc_short {A : Type} (l : list A) (a : A) (k : nat) :
  (k <= length l)%nat -> firstn k (l ++ [a]) = firstn k l.
Proof.
  intros Hk. rewrite firstn_app.
  replace (k - length l)%nat with 0%nat by lia.
  simpl. apply app_nil_r.
Qed.

Lemma firstn_S_nth_error {A : Type} (l : list A) (k : nat) (a : A) :
  nth_error l k = Some a -> firstn (S k) l = firstn k l ++ [a].
Proof.
  revert l. induction k as [|k IH]; intros [|b l] Hk; try discriminate.
  - simpl in Hk. injection Hk as ->. reflexivity.
  - simpl in Hk. change (firstn (S (S k)) (b :: l))
      with (b :: firstn (S k) l).
    rewrite (IH l Hk). reflexivity.
Qed.

Section GaussNewtonHistories.
Context {F : Type} `{Scalar F}.
Local Open Scope scalar_scope.
Variable norm : vec F -> F.
Variable linalg_solve : mat F -> vec F -> option (vec F).
Variable X : Type.
Variable func : vec F -> X -> vec F.
Variable jacobian : vec F -> X -> mat F.
Variable x_vals : X.
Variable y_vals : vec F.
Variable tolerance : F.

Local Abbreviation gn := (gauss_newton norm linalg_solve func jacobian
                            x_vals y_vals tolerance).
Local Abbreviation gn_body := (gauss_newton_body norm linalg_solve func
                                 jacobian x_vals y_vals tolerance).
Local Abbreviation gnd := (gauss_newton_damped norm linalg_solve func
                             jacobian x_vals y_vals tolerance).
Local Abbreviation gnd_body := (gauss_newton_damped_body norm linalg_solve
                                  func jacobian x_vals y_vals tolerance).
Local Abbreviation the_step := (normal_step linalg_solve func jacobian
                                  x_vals y_vals).
Local Abbreviation res := (residual func x_vals y_vals).
Local Abbreviation better := (improves norm func x_vals y_vals).
Local Abbreviation first_better := (first_improving norm func x_vals y_vals).
Local Abbreviation record := (gnd_record norm func x_vals y_vals).
Local Abbreviation gn_record_ok :=
  (gn_trace_record norm linalg_solve func jacobian x_vals y_vals).
Local Abbreviation gnd_record_ok :=
  (gnd_trace_record norm linalg_solve func jacobian x_vals y_vals).

Lemma gn_record_ok_snoc (init : vec F) (h : list gn_entry) (a : gn_entry)
  (k : nat) (e : gn_entry) :
  (k <= length h)%nat ->
  gn_record_ok init h k e -> gn_record_ok init (h ++ [a]) k e.
Proof.
  intros Hk. unfold gn_trace_record. rewrite firstn_snoc_short by exact Hk.
  tauto.
Qed.

(** The state of the undamped loop before its pass number [k]. *)
Lemma gauss_newton_invariant (init : vec F) (max_iterations : Z)
  (p : vec F) (h : list gn_entry) :
  gn init max_iterations = Ok (p, h) ->
  (length h <= Z.to_nat max_iterations)%nat /\
  p = gn_position init h /\
  (forall k e, nth_error h k = Some e -> gn_record_ok init h k e).
Proof.
  unfold gauss_newton. rewrite range_upto.
  set (n := Z.to_nat max_iterations).
  apply for_each_upto_invariant
    with (Inv := fun k (s : vec F * list gn_entry) =>
                   length (snd s) = k /\
                   fst s = gn_position init (snd s) /\
                   (forall j e, nth_error (snd s) j = Some e ->
                                gn_record_ok init (snd s) j e))
         (Post := fun r : vec F * list gn_entry =>
                    (length (snd r) <= n)%nat /\
                    fst r = gn_position init (snd r) /\
                    (forall j e, nth_error (snd r) j = Some e ->
                                 gn_record_ok init (snd r) j e)).
  - intros k [p0 h0] s' Hk (Hlen & Hpos & Hrec).
    rewrite gauss_newton_body_eq.
    destruct (the_step p0) as [step|e0] eqn:Hstep; [|discriminate].
    cbn [bind]. destruct (norm step <? tolerance); intros [= <-].
    cbn [fst snd] in *. rewrite length_app. cbn [length].
    split; [lia|]. split.
    + unfold gn_position. rewrite fold_left_app. reflexivity.
    + intros j e Hj. apply nth_error_snoc in Hj.
      destruct Hj as [[Hlt Hj]|[-> ->]].
      * apply gn_record_ok_snoc; [lia | apply Hrec, Hj].
      * unfold gn_trace_record. rewrite firstn_snoc_short by lia.
        rewrite firstn_all. cbn. rewrite Hlen.
        repeat split; assumption.
  - intros k [p0 h0] r Hk (Hlen & Hpos & Hrec).
    rewrite gauss_newton_body_eq.
    destruct (the_step p0) as [step|e0] eqn:Hstep; [|discriminate].
    cbn [bind]. destruct (norm step <? tolerance); intros [= <-].
    cbn [fst snd] in *. rewrite length_app. cbn [length].
    split; [lia|]. split.
    + unfold gn_position. rewrite fold_left_app. reflexivity.
    + intros j e Hj. apply nth_error_snoc in Hj.
      destruct Hj as [[Hlt Hj]|[-> ->]].
      * apply gn_record_ok_snoc; [lia | apply Hrec, Hj].
      * unfold gn_trace_record. rewrite firstn_snoc_short by lia.
        rewrite firstn_all. cbn. rewrite Hlen.
        repeat split; assumption.
  - intros k s r Hk (Hlen & Hpos & Hrec) [= <-].
    split; [lia|]. split; assumption.
  - cbn. split; [reflexivity|]. split; [reflexivity|].
    intros [|j] e0 Hj; discriminate Hj.
Qed.

Lemma gnd_record_ok_snoc (init : vec F) (max_halving : Z)
  (h : list gnd_entry) (a : gnd_entry) (k : nat) (e : gnd_entry) :
  (k <= length h)%nat ->
  gnd_record_ok init max_halving h k e ->
  gnd_record_ok init max_halving (h ++ [a]) k e.
Proof.
  intros Hk. unfold gnd_trace_record. rewrite firstn_snoc_short by exact Hk.
  tauto.
Qed.

Lemma gnd_record_ok_new (init : vec F) (max_halving : Z)
  (h : list gnd_entry) (p step : vec F) (i : nat) :
  p = gnd_position init h ->
  the_step p = Ok step ->
  first_better p step (Z.to_nat (max_halving + 1)) 0 = Some i ->
  gnd_record_ok init max_halving
    (h ++ [record (Z.of_nat (length h)) p step i]) (length h)
    (record (Z.of_nat (length h)) p step i).
Proof.
  intros Hpos Hstep Hfind.
  destruct (first_improving_some _ _ _ _ _ _ _ _ Hfind)
    as (Hrange & Hi & Hbefore).
  unfold gnd_trace_record. rewrite firstn_snoc_short by lia.
  rewrite firstn_all. cbn [gnd_params gnd_record].
  split; [exact Hpos|]. exists step, i.
  repeat split; try assumption; try lia.
  intros i' Hi'. apply Hbefore. lia.
Qed.

(** The state of the damped loop before its pass number [k]. *)
Lemma gauss_newton_damped_invariant (init : vec F)
  (max_iterations max_halving : Z) (p : vec F) (h : list gnd_entry) :
  gnd init max_iterations max_halving = Ok (p, h) ->
  (length h <= Z.to_nat max_iterations)%nat /\
  p = gnd_position init h /\
  (forall k e, nth_error h k = Some e ->
               gnd_record_ok init max_halving h k e).
Proof.
  unfold gauss_newton_damped. rewrite range_upto.
  set (n := Z.to_nat max_iterations).
  apply for_each_upto_invariant
    with (Inv := fun k (s : vec F * list gnd_entry) =>
                   length (snd s) = k /\
                   fst s = gnd_position init (snd s) /\
                   (forall j e, nth_error (snd s) j = Some e ->
                                gnd_record_ok init max_halving (snd s) j e))
         (Post := fun r : vec F * list gnd_entry =>
                    (length (snd r) <= n)%nat /\
                    fst r = gnd_position init (snd r) /\
                    (forall j e, nth_error (snd r) j = Some e ->
                                 gnd_record_ok init max_halving (snd r) j e)).
  - intros k [p0 h0] s' Hk (Hlen & Hpos & Hrec).
    rewrite gauss_newton_damped_body_eq.
    destruct (the_step p0) as [step|e0] eqn:Hstep; [|discriminate].
    cbn [bind].
    destruct (first_better p0 step _ 0) as [i|] eqn:Hfind; [|discriminate].
    destruct (norm (vscale (halved i) step) <? tolerance); intros [= <-].
    cbn [fst snd] in *. rewrite length_app. cbn [length].
    split; [lia|]. split.
    + unfold gnd_position. rewrite fold_left_app. reflexivity.
    + intros j e Hj. apply nth_error_snoc in Hj.
      destruct Hj as [[Hlt Hj]|[-> ->]].
      * apply gnd_record_ok_snoc; [lia | apply Hrec, Hj].
      * rewrite <- Hlen. apply gnd_record_ok_new; assumption.
  - intros k [p0 h0] r Hk (Hlen & Hpos & Hrec).
    rewrite gauss_newton_damped_body_eq.
    destruct (the_step p0) as [step|e0] eqn:Hstep; [|discriminate].
    cbn [bind].
    destruct (first_better p0 step _ 0) as [i|] eqn:Hfind.
    + destruct (norm (vscale (halved i) step) <? tolerance); intros [= <-].
      cbn [fst snd] in *. rewrite length_app. cbn [length].
      split; [lia|]. split.
      * unfold gnd_position. rewrite fold_left_app. reflexivity.
      * intros j e Hj. apply nth_error_snoc in Hj.
        destruct Hj as [[Hlt Hj]|[-> ->]].
        -- apply gnd_record_ok_snoc; [lia | apply Hrec, Hj].
        -- rewrite <- Hlen. apply gnd_record_ok_new; assumption.
    + intros [= <-]. cbn [fst snd] in *.
      split; [lia|]. split; assumption.
  - intros k s r Hk (Hlen & Hpos & Hrec) [= <-].
    split; [lia|]. split; assumption.
  - cbn. split; [reflexivity|]. split; [reflexivity|].
    intros [|j] e0 Hj; discriminate Hj.
Qed.

(** X1.  Neither solver returns more records than its budget of
    iterations, and with a budget of zero or less both return the initial
    guess and an empty history. *)
Theorem history_within_budget (init : vec F)
  (max_iterations max_halving : Z) :
  ((max_iterations <= 0)%Z ->
   gn init max_iterations = Ok (init, []) /\
   gnd init max_iterations max_halving = Ok (init, [])) /\
  (forall p h, gn init max_iterations = Ok (p, h) ->
               (Z.of_nat (length h) <= Z.max 0 max_iterations)%Z) /\
  (forall p h, gnd init max_iterations max_halving = Ok (p, h) ->
               (Z.of_nat (length h) <= Z.max 0 max_iterations)%Z).
Proof.
  split; [|split].
  - intros Hmax. unfold gauss_newton, gauss_newton_damped, range.
    replace (Z.to_nat max_iterations) with 0%nat by lia.
    split; reflexivity.
  - intros p h Hrun.
    destruct (gauss_newton_invariant _ _ Hrun) as (Hlen & _). lia.
  - intros p h Hrun.
    destruct (gauss_newton_damped_invariant _ _ _ Hrun) as (Hlen & _). lia.
Qed.

(** X2.  A history returned by [gauss_newton] is the trace of the run: the
    record number [k] has the iteration number [k], its parameters are the
    initial guess for [k = 0] and otherwise the parameters plus the step of
    the record before, its step is what the linear solver returned for the
    normal equations at its parameters, and its error is the norm of the
    residual there.  The returned parameters are those of the last record
    plus its step, or the initial guess when there is no record. *)
Theorem gauss_newton_history_is_trace (init : vec F) (max_iterations : Z)
  (p : vec F) (h : list gn_entry) :
  gn init max_iterations = Ok (p, h) ->
  p = gn_position init h /\
  (forall k e, nth_error h k = Some e ->
     gn_iteration e = Z.of_nat k /\
     gn_params e = gn_position init (firstn k h) /\
     the_step (gn_params e) = Ok (gn_step e) /\
     gn_error e = norm (res (gn_params e))).
Proof.
  intros Hrun.
  destruct (gauss_newton_invariant _ _ Hrun) as (_ & Hpos & Hrec).
  split; [exact Hpos|]. intros k e Hk. apply (Hrec k e Hk).
Qed.

(** X3.  A history returned by [gauss_newton_damped] is the trace of the
    run: the record number [k] has the iteration number [k], its
    parameters are the initial guess for [k = 0] and otherwise the
    parameters plus the step of the record before, and its step is the
    step of the normal equations at its parameters times its damping
    factor, which is 1 halved [i] times for some [i] from 0 to
    [max_halving].  The returned parameters are those of the last record
    plus its step, or the initial guess when there is no record. *)
Theorem gauss_newton_damped_history_is_trace (init : vec F)
  (max_iterations max_halving : Z) (p : vec F) (h : list gnd_entry) :
  gnd init max_iterations max_halving = Ok (p, h) ->
  p = gnd_position init h /\
  (forall k e, nth_error h k = Some e ->
     gnd_iteration e = Z.of_nat k /\
     gnd_params e = gnd_position init (firstn k h) /\
     exists step i,
       the_step (gnd_params e) = Ok step /\
       (0 <= Z.of_nat i <= max_halving)%Z /\
       gnd_damping_factor e = halved i /\
       gnd_step e = vscale (halved i) step).
Proof.
  intros Hrun.
  destruct (gauss_newton_damped_invariant _ _ _ Hrun) as (_ & Hpos & Hrec).
  split; [exact Hpos|]. intros k e Hk.
  destruct (Hrec k e Hk) as (Hparams & step & i & Hstep & Hi & He & _).
  split; [rewrite He; reflexivity|]. split; [exact Hparams|].
  exists step, i. split; [exact Hstep|]. split; [lia|].
  rewrite He. split; reflexivity.
Qed.

(** X4.  With [max_halving] below 0 the inner loop of the damped solver
    tries no factor at all, so that a run which returns has made no update:
    it returns the initial guess and an empty history. *)
Theorem gauss_newton_damped_without_halving (init : vec F)
  (max_iterations max_halving : Z) (p : vec F) (h : list gnd_entry) :
  (max_halving < 0)%Z ->
  gnd init max_iterations max_halving = Ok (p, h) ->
  p = init /\ h = [].
Proof.
  intros Hneg Hrun.
  destruct (gauss_newton_damped_invariant _ _ _ Hrun) as (_ & Hpos & Hrec).
  destruct h as [|e h].
  - split; [exact Hpos | reflexivity].
  - destruct (Hrec 0%nat e eq_refl) as (_ & step & i & _ & Hi & _). lia.
Qed.

(** Each record starts where the record before ended, so that its
    [old_error] is the [new_error] of the record before. *)
Lemma gnd_errors_chain (init : vec F) (max_iterations max_halving : Z)
  (p : vec F) (h : list gnd_entry) (k : nat) (a b : gnd_entry) :
  gnd init max_iterations max_halving = Ok (p, h) ->
  nth_error h k = Some a ->
  nth_error h (S k) = Some b ->
  gnd_old_error b = gnd_new_error a /\
  (gnd_new_error b <? gnd_old_error b) = true.
Proof.
  intros Hrun Ha Hb.
  destruct (gauss_newton_damped_invariant _ _ _ Hrun) as (_ & _ & Hrec).
  destruct (Hrec _ _ Ha) as (_ & sa & ia & _ & _ & Hea & _).
  destruct (Hrec _ _ Hb) as (Hpb & sb & ib & _ & _ & Heb & Hbetter & _).
  assert (Hstart : gnd_params b = vadd (gnd_params a) (gnd_step a)).
  { rewrite Hpb. unfold gnd_position.
    rewrite (firstn_S_nth_error _ _ Ha).
    rewrite fold_left_app. reflexivity. }
  split.
  - rewrite Heb. cbn [gnd_old_error gnd_record]. rewrite Hstart.
    rewrite Hea. reflexivity.
  - rewrite Heb. exact Hbetter.
Qed.

End GaussNewtonHistories.

(** *** The damped history in exact arithmetic *)

Lemma halved_Q_power (i : nat) :
  halved (F := Q) i == (1 # 2) ^ Z.of_nat i.
Proof.
  induction i as [|i IH]; [reflexivity|].
  cbn [halved lit fmul Scalar_Q]. rewrite IH.
  rewrite Nat2Z.inj_succ, <- Z.add_1_r.
  rewrite Qpower_plus by discriminate. reflexivity.
Qed.

(** X5.  In exact arithmetic the norm of the residual decreases strictly
    along a history returned by the damped solver: each record starts with
    the error the record before ended with, and of two records the later
    one has the smaller [new_error]. *)
Theorem damped_errors_decrease (norm : vec Q -> Q)
  (linalg_solve : mat Q -> vec Q -> option (vec Q)) (X : Type)
  (func : vec Q -> X -> vec Q) (jacobian : vec Q -> X -> mat Q)
  (x_vals : X) (y_vals : vec Q) (tolerance : Q) (init : vec Q)
  (max_iterations max_halving : Z) (p : vec Q) (h : list gnd_entry)
  (i j : nat) (a b : gnd_entry) :
  gauss_newton_damped norm linalg_solve func jacobian x_vals y_vals
    tolerance init max_iterations max_halving = Ok (p, h) ->
  (i < j)%nat ->
  nth_error h i = Some a ->
  nth_error h j = Some b ->
  gnd_old_error b <= gnd_new_error a /\
  gnd_new_error b < gnd_new_error a.
Proof.
  intros Hrun Hij Ha. revert b.
  induction j as [|j IH]; intros b Hb; [lia|].
  assert (Hj : (j < length h)%nat).
  { apply Nat.lt_succ_l. apply nth_error_Some. congruence. }
  destruct (nth_error h j) as [c|] eqn:Hc;
    [|apply nth_error_Some in Hj; contradiction].
  destruct (gnd_errors_chain _ _ _ _ _ _ _ _ _ _ _ Hrun Hc Hb)
    as [Hchain Hless].
  apply Qltb_lt in Hless.
  destruct (Nat.eq_dec i j) as [->|Hne].
  - assert (c = a) as -> by congruence.
    rewrite Hchain in *. split; [apply Qle_refl | exact Hless].
  - destruct (IH ltac:(lia) c eq_refl) as [_ Hprev].
    rewrite Hchain in *. split.
    + apply Qlt_le_weak, Hprev.
    + eapply Qlt_trans; eassumption.
Qed.

(** X6.  In exact arithmetic every damping factor recorded by the damped
    solver is a power [(1/2)^i] with [i] from 0 to [max_halving]; it lies
    above 0 and does not exceed 1. *)
Theorem damping_factor_bounds (norm : vec Q -> Q)
  (linalg_solve : mat Q -> vec Q -> option (vec Q)) (X : Type)
  (func : vec Q -> X -> vec Q) (jacobian : vec Q -> X -> mat Q)
  (x_vals : X) (y_vals : vec Q) (tolerance : Q) (init : vec Q)
  (max_iterations max_halving : Z) (p : vec Q) (h : list gnd_entry)
  (e : gnd_entry) :
  gauss_newton_damped norm linalg_solve func jacobian x_vals y_vals
    tolerance init max_iterations max_halving = Ok (p, h) ->
  In e h ->
  0 < gnd_damping_factor e <= 1 /\
  exists i, (0 <= i <= max_halving)%Z /\
            gnd_damping_factor e == (1 # 2) ^ i.
Proof.
  intros Hrun He. apply In_nth_error in He. destruct He as [k Hk].
  destruct (gauss_newton_damped_invariant _ _ _ _ _ _ _ _ _ _ Hrun)
    as (_ & _ & Hrec).
  destruct (Hrec k e Hk) as (_ & step & i & _ & Hi & He & _).
  rewrite He. cbn [gnd_damping_factor gnd_record]. split.
  - apply halved_Q_bounds.
  - exists (Z.of_nat i). split; [lia | apply halved_Q_power].
Qed.

(** ** The Cramer solvers *)

(** X7.  In exact arithmetic [solve_linear_system] returns, for a 2x2
    matrix with a determinant other than 0, the solution of the system,
    and the system has no other. *)
Theorem solve_linear_system_solves (a b c d b0 b1 : Q) :
  ~ det2 a b c d == 0 ->
  exists x0 x1,
    solve_linear_system [[a; b]; [c; d]] [b0; b1] = Ok [x0; x1] /\
    Forall2 Qeq (matvec [[a; b]; [c; d]] [x0; x1]) [b0; b1] /\
    (forall y0 y1,
        a * y0 + b * y1 == b0 -> c * y0 + d * y1 == b1 ->
        y0 == x0 /\ y1 == x1).
Proof.
  intros Hnz. unfold det2 in Hnz.
  unfold solve_linear_system. cbn [mget vget nth_error bind].
  cbn [feqb fsub fmul fdiv lit Scalar_Q].
  destruct (Qeq_bool (a * d - b * c) 0) eqn:Hz.
  - apply Qeq_bool_iff in Hz. contradiction.
  - eexists. eexists. split; [reflexivity|]. split.
    + cbn [matvec map dot fadd fmul lit Scalar_Q].
      repeat constructor; field; exact Hnz.
    + intros y0 y1 H0 H1. rewrite <- H0, <- H1. split; field; exact Hnz.
Qed.

(** X8.  In exact arithmetic the two Cramer solvers differ only where
    [solve_2x2] reports a singular matrix: whenever it does not,
    [solve_linear_system] returns or raises the same. *)
Theorem solve_linear_system_agrees (A : mat Q) (v : vec Q) :
  solve_2x2 A v <> Raise SingularMatrix ->
  solve_linear_system A v = solve_2x2 A v.
Proof.
  unfold solve_2x2, solve_linear_system.
  destruct (mget A 0 0) as [m00|e]; [|reflexivity].
  destruct (mget A 1 1) as [m11|e]; [|reflexivity].
  destruct (mget A 0 1) as [m01|e]; [|reflexivity].
  destruct (mget A 1 0) as [m10|e]; [|reflexivity].
  cbn [bind]. cbn [fltb feqb fabs fsub fmul lit Scalar_Q].
  destruct (Qltb (Qabs (m00 * m11 - m01 * m10)) (1 # 100000000000000))
    eqn:Hlt; [intros Hc; exfalso; apply Hc; reflexivity|].
  intros _. apply Qltb_ge in Hlt.
  destruct (Qeq_bool (m00 * m11 - m01 * m10) 0) eqn:Hz; [|reflexivity].
  apply Qeq_bool_iff in Hz. rewrite Hz in Hlt. exfalso.
  revert Hlt. apply Qlt_not_le. reflexivity.
Qed.

(** ** Fits with two parameters *)

Lemma for_each_ext {I S R : Type}
  (body1 body2 : I -> S -> result (control S R)) (orelse : S -> result R) :
  (forall i s, body1 i s = body2 i s) ->
  forall l s, for_each body1 orelse l s = for_each body2 orelse l s.
Proof.
  intros Hext l. induction l as [|i l IH]; intros s; simpl; [reflexivity|].
  rewrite Hext. destruct (body2 i s) as [[s'|r]|e]; simpl; auto.
Qed.

Section TwoParameters.
Context {F : Type} `{Scalar F}.

Lemma transpose_two_columns (m : mat F) :
  two_columns m ->
  exists c0 c1, transpose m = [c0; c1].
Proof.
  intros [Hne Hrows]. induction m as [|r rs IH]; [contradiction|].
  inversion Hrows as [|r' rs' Hr Hrs]; subst.
  destruct r as [|a [|b [|c r]]]; try discriminate.
  destruct rs as [|r1 rs].
  - exists [a], [b]. reflexivity.
  - destruct IH as (c0 & c1 & Heq); [discriminate | exact Hrs |].
    exists (a :: c0), (b :: c1).
    change (transpose ([a; b] :: r1 :: rs))
      with (combine_rows [a; b] (transpose (r1 :: rs))).
    rewrite Heq. reflexivity.
Qed.

Lemma normal_matrix_is_2x2 (m : mat F) :
  two_columns m -> is_2x2 (matmul (transpose m) m) = true.
Proof.
  intros Hm. destruct (transpose_two_columns Hm) as (c0 & c1 & Heq).
  unfold matmul. rewrite Heq. reflexivity.
Qed.

(** X9.  When the Jacobian has two columns, as for every model with two
    parameters, the normal matrix is 2x2 and both Gauss-Newton solvers
    solve it in closed form: their results do not depend on
    [np.linalg.solve]. *)
Theorem two_parameter_fit_is_closed_form (norm : vec F -> F)
  (linalg_solve linalg_solve' : mat F -> vec F -> option (vec F))
  (X : Type) (func : vec F -> X -> vec F) (jacobian : vec F -> X -> mat F)
  (x_vals : X) (y_vals : vec F) (tolerance : F) (init : vec F)
  (max_iterations max_halving : Z) :
  (forall p, two_columns (jacobian p x_vals)) ->
  gauss_newton norm linalg_solve func jacobian x_vals y_vals tolerance
    init max_iterations =
  gauss_newton norm linalg_solve' func jacobian x_vals y_vals tolerance
    init max_iterations /\
  gauss_newton_damped norm linalg_solve func jacobian x_vals y_vals
    tolerance init max_iterations max_halving =
  gauss_newton_damped norm linalg_solve' func jacobian x_vals y_vals
    tolerance init max_iterations max_halving.
Proof.
  intros Hshape.
  assert (Hsolve : forall p v,
             solve linalg_solve
               (matmul (transpose (jacobian p x_vals)) (jacobian p x_vals))
               v =
             solve linalg_solve'
               (matmul (transpose (jacobian p x_vals)) (jacobian p x_vals))
               v).
  { intros p v. unfold solve.
    rewrite (normal_matrix_is_2x2 (Hshape p)). reflexivity. }
  split.
  - unfold gauss_newton. apply for_each_ext. intros i [p h].
    unfold gauss_newton_body. rewrite Hsolve. reflexivity.
  - unfold gauss_newton_damped. apply for_each_ext. intros i [p h].
    unfold gauss_newton_damped_body. rewrite Hsolve. reflexivity.
Qed.

End TwoParameters.

(** ** Where a loop stops *)

Section LoopOutcomes.
Variables I S R : Type.
Variable body : I -> S -> result (control S R).
Variable orelse : S -> result R.

Lemma for_each_outcome (l : list I) (s : S) :
  for_each body orelse l s =
  match run_loop body l s with
  | Ok (Continue s') => orelse s'
  | Ok (Return r) => Ok r
  | Raise e => Raise e
  end.
Proof.
  revert s. induction l as [|i l IH]; intros s; simpl; [reflexivity|].
  destruct (body i s) as [[s'|r]|e]; simpl; auto.
Qed.

Lemma run_loop_app (l1 l2 : list I) (s : S) :
  run_loop body (l1 ++ l2) s =
  match run_loop body l1 s with
  | Ok (Continue s') => run_loop body l2 s'
  | other => other
  end.
Proof.
  revert s. induction l1 as [|i l1 IH]; intros s; simpl; [reflexivity|].
  destruct (body i s) as [[s'|r]|e]; simpl; auto.
Qed.

End LoopOutcomes.

Section RangeLoopOutcomes.
Variables S R : Type.
Variable body : Z -> S -> result (control S R).

(** A [range] loop that does not run to its end stopped in some pass
    [k], which the passes before it reached. *)
Lemma run_loop_upto_stops (n : nat) (s : S) (out : result (control S R)) :
  run_loop body (upto n) s = out ->
  (forall s', out <> Ok (Continue s')) ->
  exists k s_k,
    (k < n)%nat /\
    run_loop body (upto k) s = Ok (Continue s_k) /\
    body (Z.of_nat k) s_k = out.
Proof.
  induction n as [|n IH]; intros Hrun Hstop.
  - simpl in Hrun. subst out. exfalso. apply (Hstop s). reflexivity.
  - rewrite upto_S, run_loop_app in Hrun.
    destruct (run_loop body (upto n) s) as [[s_n|r]|e] eqn:Hn.
    + exists n, s_n. split; [lia|]. split; [exact Hn|].
      simpl in Hrun.
      destruct (body (Z.of_nat n) s_n) as [[s'|r]|e]; simpl in Hrun;
        exact Hrun.
    + destruct IH as (k & s_k & Hk & Hreach & Hbody);
        [exact Hrun | exact Hstop |].
      exists k, s_k. split; [lia|]. split; assumption.
    + destruct IH as (k & s_k & Hk & Hreach & Hbody);
        [exact Hrun | exact Hstop |].
      exists k, s_k. split; [lia|]. split; assumption.
Qed.

End RangeLoopOutcomes.

(** ** What [newton_method] returns and raises *)

Section NewtonOutcomes.
Context {F : Type} `{Scalar F}.
Local Open Scope scalar_scope.
Variable norm : vec F -> F.
Variable linalg_solve : mat F -> vec F -> option (vec F).
Variable f : vec F -> vec F.
Variable jacobian : vec F -> mat F.
Variable tol : F.

Local Abbreviation newton := (newton_method norm linalg_solve f jacobian tol).
Local Abbreviation nbody := (newton_method_body norm linalg_solve f jacobian
                               tol).
Local Abbreviation nstep := (newton_step linalg_solve f jacobian).
Local Abbreviation nupdates := (newton_updates linalg_solve f jacobian).
Local Abbreviation small_residual :=
  (newton_small_residual norm linalg_solve f jacobian tol).
Local Abbreviation out_of_budget :=
  (fun _ : vec F => @Raise (vec F * Z) NonConvergence).

Lemma newton_stops (x0 : vec F) (max_iter : Z) (out : result (vec F * Z)) :
  newton x0 max_iter = out ->
  out <> Raise NonConvergence ->
  exists k x,
    (k < Z.to_nat max_iter)%nat /\
    nupdates x0 k = Some x /\
    (forall j, (j < k)%nat -> small_residual x0 j = false) /\
    match nbody (Z.of_nat k) x with
    | Ok (Return r) => out = Ok r
    | Ok (Continue _) => False
    | Raise e => out = Raise e
    end.
Proof.
  unfold newton_method. rewrite range_upto, for_each_outcome.
  intros Hout Hne.
  destruct (run_loop nbody (upto (Z.to_nat max_iter)) x0)
    as [[x'|r]|e] eqn:Hrun.
  - congruence.
  - apply run_loop_upto_stops in Hrun; [|discriminate].
    destruct Hrun as (k & x & Hk & Hreach & Hbody).
    apply newton_reach in Hreach. destruct Hreach as [Hup Hsmall].
    exists k, x. rewrite Hbody. repeat split; auto.
  - apply run_loop_upto_stops in Hrun; [|discriminate].
    destruct Hrun as (k & x & Hk & Hreach & Hbody).
    apply newton_reach in Hreach. destruct Hreach as [Hup Hsmall].
    exists k, x. rewrite Hbody. repeat split; auto.
Qed.

(** X10.  What [newton_method] returns: a count [n] between 1 and
    [max_iter] and the point after [n] updates, where the norm of [f] at
    the point after [n - 1] updates is below [tol] and was not below
    [tol] at any earlier point. *)
Theorem newton_method_returns (x0 : vec F) (max_iter : Z)
  (x' : vec F) (n : Z) :
  newton x0 max_iter = Ok (x', n) ->
  (1 <= n <= max_iter)%Z /\
  nupdates x0 (Z.to_nat n) = Some x' /\
  exists x,
    nupdates x0 (Z.to_nat (n - 1)) = Some x /\
    (norm (f x) <? tol) = true /\
    (forall j, (j < Z.to_nat (n - 1))%nat -> small_residual x0 j = false).
Proof.
  intros Hret. apply newton_stops in Hret; [|discriminate].
  destruct Hret as (k & x & Hk & Hup & Hsmall & Hbody).
  rewrite newton_method_body_eq in Hbody.
  destruct (nstep x) as [delta|e] eqn:Hstep; cbn [bind] in Hbody;
    [|discriminate Hbody].
  destruct (norm (f x) <? tol) eqn:Htest; [|contradiction].
  injection Hbody as -> ->.
  replace (Z.to_nat (Z.of_nat k + 1 - 1)) with k by lia.
  replace (Z.to_nat (Z.of_nat k + 1)) with (Datatypes.S k) by lia.
  split; [lia|]. split.
  - cbn [newton_updates]. rewrite Hup, Hstep. reflexivity.
  - exists x. repeat split; assumption.
Qed.

(** X11.  [newton_method] raises nothing but the error of the linear
    solve and its own non-convergence error, and it raises the first
    exactly when the solve fails at a point that the iterations reach
    within the budget. *)
Theorem newton_method_raises (x0 : vec F) (max_iter : Z) :
  (forall e, newton x0 max_iter = Raise e ->
             e = SingularMatrix \/ e = NonConvergence) /\
  (newton x0 max_iter = Raise SingularMatrix <->
   exists k x,
     (k < Z.to_nat max_iter)%nat /\
     nupdates x0 k = Some x /\
     (forall j, (j < k)%nat -> small_residual x0 j = false) /\
     nstep x = Raise SingularMatrix).
Proof.
  split; [|split].
  - intros e Hraise.
    destruct e; [left; reflexivity | right; reflexivity |].
    exfalso. apply newton_stops in Hraise; [|discriminate].
    destruct Hraise as (k & x & _ & _ & _ & Hbody).
    rewrite newton_method_body_eq in Hbody.
    destruct (nstep x) as [delta|e] eqn:Hstep; cbn [bind] in Hbody.
    + destruct (norm (f x) <? tol); [discriminate Hbody | contradiction].
    + apply newton_step_raises in Hstep. congruence.
  - intros Hraise. apply newton_stops in Hraise; [|discriminate].
    destruct Hraise as (k & x & Hk & Hup & Hsmall & Hbody).
    exists k, x. repeat split; try assumption.
    rewrite newton_method_body_eq in Hbody.
    destruct (nstep x) as [delta|e] eqn:Hstep; cbn [bind] in Hbody.
    + destruct (norm (f x) <? tol); [discriminate Hbody | contradiction].
    + apply newton_step_raises in Hstep. congruence.
  - intros (k & x & Hk & Hup & Hsmall & Hstep).
    destruct (upto_split Hk) as [rest Hsplit].
    unfold newton_method. rewrite range_upto, Hsplit.
    erewrite for_each_reach
      by (apply newton_reach; split; eassumption).
    cbn [for_each]. rewrite newton_method_body_eq, Hstep. reflexivity.
Qed.

End NewtonOutcomes.

(** ** What [damped_newton] returns, in exact arithmetic *)

Lemma upto_bounds (n : nat) (k : Z) :
  In k (upto n) -> (0 <= k < Z.of_nat n)%Z.
Proof.
  unfold upto. intros Hk. apply in_map_iff in Hk.
  destruct Hk as (j & <- & Hj). apply in_seq in Hj. lia.
Qed.

Section DampedNewtonOutcomes.
Variable f : vec Q -> vec Q.
Variable jacobian : vec Q -> mat Q.
Variable tol : Q.

Local Abbreviation dnewton := (damped_newton f jacobian tol).
Local Abbreviation dloop := (damped_newton_loop f jacobian tol).
Local Abbreviation dsearch := (damped_newton_search f).
Local Abbreviation dstep := (damped_newton_step f jacobian).

(** The halving loop stops only at a point with a smaller sum. *)
Lemma damped_newton_search_decreases (fuel : nat) (x delta_x : vec Q)
  (lambda0 lambda_ : Q) (x_new : vec Q) :
  dsearch fuel x delta_x lambda0 = Some (Ok (lambda_, x_new)) ->
  exists s_new s_old,
    sum_abs (f x_new) = Ok s_new /\ sum_abs (f x) = Ok s_old /\
    s_new < s_old.
Proof.
  revert lambda0. induction fuel as [|fuel IH]; intros lambda0;
    cbn [damped_newton_search]; [discriminate|].
  destruct (damped_point x delta_x lambda0) as [x1|e]; [|discriminate].
  destruct (sum_abs (f x1)) as [s_new|e] eqn:Hnew; [|discriminate].
  destruct (sum_abs (f x)) as [s_old|e] eqn:Hold; [|discriminate].
  destruct (fltb s_new s_old) eqn:Hlt.
  - intros [= <- <-]. exists s_new, s_old.
    split; [exact Hnew|]. split; [reflexivity|]. apply Qltb_lt, Hlt.
  - intros Hrest. destruct (IH _ Hrest) as (s1 & s2 & H1 & H2 & H12).
    exists s1, s2. split; [exact H1|]. split; [congruence|exact H12].
Qed.

Lemma damped_newton_loop_result (fuel : nat) (l : list Z) :
  forall (x x' : vec Q) (n : Z),
    dloop fuel l x = Some (Ok (x', n)) ->
    (exists k, In k l /\ n = (k + 1)%Z) /\
    exists s' s,
      sum_abs (f x') = Ok s' /\ sum_abs (f x) = Ok s /\
      s' < s /\ s' < tol.
Proof.
  induction l as [|k l IH]; intros x x' n; cbn [damped_newton_loop];
    [discriminate|].
  destruct (fx0 <- vget (f x) 0 ;; fx1 <- vget (f x) 1 ;;
            solve_linear_system (jacobian x) [(- fx0)%S; (- fx1)%S])
    as [delta|e]; [|discriminate].
  destruct (dsearch fuel x delta (lit 1)) as [[[lam x_new]|e]|] eqn:Hsearch;
    try discriminate.
  apply damped_newton_search_decreases in Hsearch.
  destruct Hsearch as (s_new & s_old & Hnew & Hold & Hlt).
  rewrite Hold.
  destruct (fltb s_old tol) eqn:Htest.
  - intros [= <- <-]. split.
    + exists k. split; [left; reflexivity | reflexivity].
    + exists s_new, s_old. apply Qltb_lt in Htest.
      repeat split; try assumption. lra.
  - intros Hrest. apply IH in Hrest.
    destruct Hrest as [(k' & Hin & Hn) (s' & s1 & Hs' & Hs1 & Hlt' & Htol)].
    split.
    + exists k'. split; [right; exact Hin | exact Hn].
    + assert (s1 = s_new) by congruence. subst s1.
      exists s', s_old. repeat split; try assumption. lra.
Qed.

(** X12.  What [damped_newton] returns, in exact arithmetic: a count
    between 1 and [k_max] and a point at which the sum of the absolute
    values of [f] is below [tol] and below the sum at the start. *)
Theorem damped_newton_returns (fuel : nat) (x0 : vec Q) (k_max : Z)
  (x : vec Q) (n : Z) :
  dnewton fuel x0 k_max = Some (Ok (x, n)) ->
  (1 <= n <= k_max)%Z /\
  exists s s0,
    sum_abs (f x) = Ok s /\ sum_abs (f x0) = Ok s0 /\
    s < s0 /\ s < tol.
Proof.
  unfold damped_newton. rewrite range_upto. intros Hret.
  apply damped_newton_loop_result in Hret.
  destruct Hret as [(k & Hin & ->) Hsums]. split; [|exact Hsums].
  apply upto_bounds in Hin. lia.
Qed.

(** X13.  Started at a point where the sum of the absolute values of [f]
    is 0, [damped_newton] returns no result, whatever number of passes
    its halving loop is given; when the budget allows an iteration, the
    Newton correction at the start exists and [f] has two components
    everywhere, it is then still in its first halving loop. *)
Theorem damped_newton_hangs_at_every_root (x0 : vec Q) (s : Q) :
  sum_abs (f x0) = Ok s -> s == 0 ->
  forall fuel k_max,
    (forall r, dnewton fuel x0 k_max <> Some (Ok r)) /\
    ((1 <= k_max)%Z ->
     (2 <= length x0)%nat ->
     (exists delta_x, dstep x0 = Ok delta_x) ->
     (forall a b, exists t, sum_abs (f [a; b]) = Ok t) ->
     dnewton fuel x0 k_max = None).
Proof.
  intros Hs Hzero fuel k_max. split.
  - intros [x n] Hret. unfold damped_newton in Hret.
    apply damped_newton_loop_result in Hret.
    destruct Hret as [_ (s1 & s0 & Hs1 & Hs0 & Hlt & _)].
    apply sum_abs_Q_nonneg in Hs1.
    assert (s0 = s) by congruence. subst s0. lra.
  - intros Hmax Hlen [delta_x Hstep] Htotal.
    eapply damped_newton_waits; [exact Hmax | exact Hstep |].
    assert (Hshape : exists d0 d1, delta_x = [d0; d1]).
    { unfold damped_newton_step, solve_linear_system in Hstep.
      destruct (vget (f x0) 0); [|discriminate].
      destruct (vget (f x0) 1); [|discriminate].
      cbn [bind] in Hstep.
      destruct (mget (jacobian x0) 0 0); [|discriminate].
      destruct (mget (jacobian x0) 1 1); [|discriminate].
      destruct (mget (jacobian x0) 0 1); [|discriminate].
      destruct (mget (jacobian x0) 1 0); [|discriminate].
      cbn [bind vget nth_error] in Hstep.
      destruct (feqb _ _); [discriminate|].
      injection Hstep as <-. eexists. eexists. reflexivity. }
    destruct Hshape as (d0 & d1 & ->).
    destruct x0 as [|a [|b rest]]; cbn [length] in Hlen; try lia.
    clear Hstep Hlen.
    generalize (lit (Scalar := Scalar_Q) 1). intros lambda_.
    revert lambda_. induction fuel as [|fuel IH]; intros lambda_;
      [reflexivity|].
    cbn [damped_newton_search damped_point vget nth_error bind].
    destruct (Htotal (a + lambda_ * d0)%S (b + lambda_ * d1)%S)
      as [t Ht].
    rewrite Ht, Hs.
    replace (fltb t s) with false; [apply IH|].
    symmetry. apply Qltb_ge. apply sum_abs_Q_nonneg in Ht. lra.
Qed.

End DampedNewtonOutcomes.

(** ** The example system *)

(** X14.  [jacobian] is the derivative of [f]: in exact arithmetic
    [f(x + d)] is [f(x) + J(x) d] up to a remainder that has no first
    component and whose second component is [24 x1 d1^2 + 8 d1^3]. *)
Theorem jacobian_linearises_f (x0 x1 d0 d1 : Q) :
  Forall2 Qeq
    (vsub (Example.f (vadd [x0; x1] [d0; d1]))
       (vadd (Example.f [x0; x1])
          (matvec (Example.jacobian [x0; x1]) [d0; d1])))
    [0; 24 * x1 * (d1 * d1) + 8 * (d1 * d1 * d1)].
Proof.
  cbn [Example.f Example.jacobian vadd vsub map2 matvec map dot
         fadd fsub fmul lit Scalar_Q].
  repeat constructor; ring.
Qed.

(** X15.  In exact arithmetic [f] vanishes at [[0, 0]], [[-2, 1]] and
    [[2, -1]] and nowhere else. *)
Theorem roots_of_f (a b : Q) :
  Forall2 Qeq (Example.f [a; b]) [0; 0] <->
  (a == 0 /\ b == 0) \/ (a == -2 /\ b == 1) \/ (a == 2 /\ b == -1).
Proof.
  cbn [Example.f fadd fmul lit Scalar_Q]. split.
  - intros Hroot.
    inversion Hroot as [|u v l l' H0 Hrest]; subst.
    inversion Hrest as [|u v l l' H1 _]; subst.
    assert (Ha : a == -2 * b) by lra.
    assert (Hb : b * ((b - 1) * (b + 1)) == 0).
    { rewrite Ha in H1. 
      assert (Hexp : b * ((b - 1) * (b + 1)) ==
                     (4 * (-2 * b) + 8 * (b * b * b)) / 8) by field.
      rewrite Hexp, H1. reflexivity. }
    apply Qmult_integral in Hb. destruct Hb as [Hb|Hb].
    + left. split; [rewrite Ha, Hb; reflexivity | exact Hb].
    + apply Qmult_integral in Hb. destruct Hb as [Hb|Hb].
      * right. left. assert (Hb1 : b == 1) by lra.
        split; [rewrite Ha, Hb1; reflexivity | exact Hb1].
      * right. right. assert (Hb1 : b == -1) by lra.
        split; [rewrite Ha, Hb1; reflexivity | exact Hb1].
  - intros [[Ha Hb]|[[Ha Hb]|[Ha Hb]]];
      repeat constructor; rewrite Ha, Hb; reflexivity.
Qed.

(** ** The linear solvers of [vereinfachtes_newton_verfahren.py] *)

(** What the Cramer solver does with a 2x2 system in exact arithmetic. *)
Lemma solve_linear_system_2x2_cases (a b c d b0 b1 : Q) :
  (det2 a b c d == 0 /\
   solve_linear_system [[a; b]; [c; d]] [b0; b1] = Raise SingularMatrix) \/
  (~ det2 a b c d == 0 /\
   solve_linear_system [[a; b]; [c; d]] [b0; b1] =
   Ok [(b0 * d - b1 * b) / det2 a b c d;
       (a * b1 - c * b0) / det2 a b c d]).
Proof.
  unfold solve_linear_system, det2. cbn [mget vget nth_error bind].
  cbn [feqb fsub fmul fdiv lit Scalar_Q].
  destruct (Qeq_bool (a * d - b * c) 0) eqn:Hz.
  - left. apply Qeq_bool_iff in Hz. split; [exact Hz | reflexivity].
  - right. apply Qeq_bool_neq in Hz. split; [exact Hz | reflexivity].
Qed.

(** What the decomposition does with a 2x2 system in exact arithmetic:
    it divides by [a] and then by [d - (c / a) * b]. *)
Lemma lu_decomposition_2x2_cases (a b c d b0 b1 : Q) :
  ((a == 0 \/ det2 a b c d == 0) /\
   Simplified.lu_decomposition [[a; b]; [c; d]] [b0; b1] =
   Fail ZeroDivisionError) \/
  (~ a == 0 /\ ~ det2 a b c d == 0 /\
   exists x0 x1,
     Simplified.lu_decomposition [[a; b]; [c; d]] [b0; b1] =
     Done [x0; x1] /\
     x0 == (b0 * d - b1 * b) / det2 a b c d /\
     x1 == (a * b1 - c * b0) / det2 a b c d).
Proof.
  unfold det2.
  unfold Simplified.lu_decomposition, Simplified.lu_factors.
  cbn -[Qplus Qminus Qmult Qdiv Qeq_bool].
  unfold Simplified.divide.
  cbn -[Qplus Qminus Qmult Qdiv Qeq_bool].
  destruct (Qeq_bool (a - 0) 0) eqn:Ha;
    cbn -[Qplus Qminus Qmult Qdiv Qeq_bool].
  - left. apply Qeq_bool_iff in Ha. split; [|reflexivity].
    left. lra.
  - apply Qeq_bool_neq in Ha.
    assert (Ha' : ~ a == 0) by (intros Hz; apply Ha; lra).
    assert (Hpivot : d - (0 + (c - 0) / (a - 0) * (b - 0)) ==
                     (a * d - b * c) / a) by (field; exact Ha').
    match goal with
    | |- context [Qeq_bool ?u 0] => destruct (Qeq_bool u 0) eqn:Hu
    end; cbn -[Qplus Qminus Qmult Qdiv Qeq_bool].
    + left. split; [|reflexivity]. right.
      apply Qeq_bool_iff in Hu. rewrite Hpivot in Hu.
      assert (Hdet : a * d - b * c == (a * d - b * c) / a * a)
        by (field; exact Ha').
      rewrite Hdet, Hu. ring.
    + apply Qeq_bool_neq in Hu.
      assert (Hdet : ~ a * d - b * c == 0).
      { intros Hz. apply Hu. rewrite Hpivot, Hz. field. exact Ha'. }
      right. split; [exact Ha'|]. split; [exact Hdet|].
      destruct (Qeq_bool (a - 0) 0) eqn:Ha2;
        [apply Qeq_bool_iff in Ha2; contradiction|].
      cbn -[Qplus Qminus Qmult Qdiv Qeq_bool].
      eexists. eexists. split; [reflexivity|].
      split; field; split; assumption.
Qed.

(** X16.  [lu_decomposition] on a 2x2 system, in exact arithmetic: it
    raises [ZeroDivisionError] exactly when the first entry of the matrix
    or the determinant is 0, never an index error, and otherwise returns
    what [solve_linear_system] returns.  It does not exchange rows: with
    the first entry 0 and the determinant not 0 it raises where the
    Cramer solver solves. *)
Theorem lu_decomposition_2x2 (a b c d b0 b1 : Q) :
  (Simplified.lu_decomposition [[a; b]; [c; d]] [b0; b1] =
     Fail ZeroDivisionError <->
   a == 0 \/ det2 a b c d == 0) /\
  (~ a == 0 -> ~ det2 a b c d == 0 ->
   exists x0 x1 y0 y1,
     Simplified.lu_decomposition [[a; b]; [c; d]] [b0; b1] =
       Done [x0; x1] /\
     solve_linear_system [[a; b]; [c; d]] [b0; b1] = Ok [y0; y1] /\
     x0 == y0 /\ x1 == y1) /\
  (a == 0 -> ~ det2 a b c d == 0 ->
   Simplified.lu_decomposition [[a; b]; [c; d]] [b0; b1] =
     Fail ZeroDivisionError /\
   exists y0 y1,
     solve_linear_system [[a; b]; [c; d]] [b0; b1] = Ok [y0; y1]).
Proof.
  destruct (lu_decomposition_2x2_cases a b c d b0 b1)
    as [[Hzero Hlu]|(Ha & Hdet & x0 & x1 & Hlu & Hx0 & Hx1)];
    destruct (solve_linear_system_2x2_cases a b c d b0 b1)
      as [[Hz Hsolve]|[Hnz Hsolve]];
    rewrite Hlu, Hsolve.
  - split; [tauto|]. split; [tauto|]. intros Ha Hdet. contradiction.
  - split; [tauto|]. split; [tauto|]. intros Ha Hdet.
    split; [reflexivity|]. eexists. eexists. reflexivity.
  - contradiction.
  - split; [split; [discriminate | tauto]|].
    split; [|tauto]. intros _ _.
    eexists. eexists. eexists. eexists.
    split; [reflexivity|]. split; [reflexivity|]. split; assumption.
Qed.

Section MethodNames.
Import Stdlib.Strings.String.

(** X17.  Whatever the method, a result that [solve_with_method] returns
    for a 2x2 system solves it, in exact arithmetic; and it raises its
    own error for every method other than "2x2", "LU" and "LGS". *)
Theorem solve_with_method_sound (a b c d b0 b1 : Q)
  (method : String.string) :
  (forall x,
      Simplified.solve_with_method [[a; b]; [c; d]] [b0; b1] method =
        Done x ->
      Forall2 Qeq (matvec [[a; b]; [c; d]] x) [b0; b1]) /\
  (Simplified.solve_with_method [[a; b]; [c; d]] [b0; b1] method =
     Fail UnknownMethod <->
   method <> "2x2"%string /\ method <> "LU"%string /\
   method <> "LGS"%string).
Proof.
  assert (Hcramer : forall x,
             lift (solve_linear_system [[a; b]; [c; d]] [b0; b1]) =
               Done x ->
             Forall2 Qeq (matvec [[a; b]; [c; d]] x) [b0; b1]).
  { intros x.
    destruct (solve_linear_system_2x2_cases a b c d b0 b1)
      as [[Hz ->]|[Hnz ->]]; [discriminate|].
    intros [= <-]. cbn [matvec map dot fadd fmul lit Scalar_Q].
    unfold det2 in *. repeat constructor; field; exact Hnz. }
  assert (Hlu : forall x,
             Simplified.lu_decomposition [[a; b]; [c; d]] [b0; b1] =
               Done x ->
             Forall2 Qeq (matvec [[a; b]; [c; d]] x) [b0; b1]).
  { intros x.
    destruct (lu_decomposition_2x2_cases a b c d b0 b1)
      as [[Hzero ->]|(Ha & Hdet & x0 & x1 & -> & Hx0 & Hx1)];
      [discriminate|].
    intros [= <-]. cbn [matvec map dot fadd fmul lit Scalar_Q].
    unfold det2 in *.
    repeat constructor; rewrite Hx0, Hx1; field; exact Hdet. }
  assert (Hknown : forall r : result (vec Q), lift r <> Fail UnknownMethod).
  { intros [x|e]; discriminate. }
  assert (Hlu_known :
            Simplified.lu_decomposition [[a; b]; [c; d]] [b0; b1] <>
            Fail UnknownMethod).
  { destruct (lu_decomposition_2x2_cases a b c d b0 b1)
      as [[Hzero ->]|(Ha & Hdet & x0 & x1 & -> & Hx0 & Hx1)];
      discriminate. }
  unfold Simplified.solve_with_method.
  destruct (String.eqb_spec method "2x2") as [->|H1].
  - split; [exact Hcramer|]. split; [intros Hu; elim (Hknown _ Hu)|].
    intros [Hne _]. contradiction.
  - destruct (String.eqb_spec method "LU") as [->|H2].
    + split; [exact Hlu|]. split; [intros Hu; contradiction|].
      intros (_ & Hne & _). contradiction.
    + destruct (String.eqb_spec method "LGS") as [->|H3].
      * split; [exact Hcramer|]. split; [intros Hu; elim (Hknown _ Hu)|].
        intros (_ & _ & Hne). contradiction.
      * split; [discriminate|]. split; [tauto | reflexivity].
Qed.

End MethodNames.

(** ** What the Gauss-Newton solvers raise *)

Section GaussNewtonErrors.
Context {F : Type} `{Scalar F}.
Local Open Scope scalar_scope.
Variable norm : vec F -> F.
Variable linalg_solve : mat F -> vec F -> option (vec F).
Variable X : Type.
Variable func : vec F -> X -> vec F.
Variable jacobian : vec F -> X -> mat F.
Variable x_vals : X.
Variable y_vals : vec F.
Variable tolerance : F.

Local Abbreviation gn := (gauss_newton norm linalg_solve func jacobian
                            x_vals y_vals tolerance).
Local Abbreviation gn_body := (gauss_newton_body norm linalg_solve func
                                 jacobian x_vals y_vals tolerance).
Local Abbreviation gnd := (gauss_newton_damped norm linalg_solve func jacobian
                             x_vals y_vals tolerance).
Local Abbreviation gnd_body := (gauss_newton_damped_body norm linalg_solve
                                  func jacobian x_vals y_vals tolerance).
Local Abbreviation the_step := (normal_step linalg_solve func jacobian
                                  x_vals y_vals).
Local Abbreviation updates := (gn_updates norm linalg_solve func jacobian
                                 x_vals y_vals).
Local Abbreviation small_step := (gn_small_step norm linalg_solve func
                                    jacobian x_vals y_vals tolerance).
Local Abbreviation dupdates := (gnd_updates norm linalg_solve func jacobian
                                  x_vals y_vals).
Local Abbreviation dsmall_step := (gnd_small_step norm linalg_solve func
                                     jacobian x_vals y_vals tolerance).
Local Abbreviation first_better := (first_improving norm func x_vals y_vals).

(** The linear solve of the normal equations has no non-convergence
    error. *)
Lemma normal_step_raises (p : vec F) (e : exn) :
  the_step p = Raise e -> e <> NonConvergence.
Proof.
  unfold normal_step, solve, solve_2x2, np_linalg_solve, mget, vget.
  destruct (is_2x2 _).
  - repeat (match goal with
            | |- context [nth_error ?l ?i] => destruct (nth_error l i)
            | |- context [if ?b then _ else _] => destruct b
            end; cbn [bind]);
      intros Heq; try discriminate Heq; injection Heq as <-; discriminate.
  - destruct (linalg_solve _ _); intros Heq; try discriminate Heq.
    injection Heq as <-. discriminate.
Qed.

(** The passes that the undamped loop has completed are updates without
    a small step. *)
Lemma gn_reached (init : vec F) (k : nat) (p : vec F) (h : list gn_entry) :
  run_loop gn_body (upto k) (init, []) = Ok (Continue (p, h)) ->
  updates init k = Some (p, h) /\
  (forall j, (j < k)%nat -> small_step init j = false).
Proof.
  revert p h. induction k as [|k IH]; intros p h.
  - simpl. intros [= <- <-]. split; [reflexivity|]. intros j Hj. lia.
  - rewrite upto_S. intros Hrun. apply run_loop_snoc_inv in Hrun.
    destruct Hrun as ([p0 h0] & Hrun & Hbody).
    apply IH in Hrun. destruct Hrun as [Hup Hsmall].
    rewrite gauss_newton_body_eq in Hbody.
    destruct (the_step p0) as [step|e] eqn:Hstep; [|discriminate].
    cbn [bind] in Hbody.
    destruct (norm step <? tolerance) eqn:Htest; [discriminate|].
    injection Hbody as <- <-. split.
    + cbn [gn_updates]. rewrite Hup, Hstep. reflexivity.
    + intros j Hj. destruct (Nat.eq_dec j k) as [->|Hne].
      * unfold gn_small_step. rewrite Hup, Hstep. exact Htest.
      * apply Hsmall. lia.
Qed.

Lemma gnd_reached (init : vec F) (max_halving : Z) (k : nat) (p : vec F)
  (h : list gnd_entry) :
  run_loop (gnd_body max_halving) (upto k) (init, []) =
    Ok (Continue (p, h)) ->
  dupdates init max_halving k = Some (p, h) /\
  (forall j, (j < k)%nat -> dsmall_step init max_halving j = false).
Proof.
  revert p h. induction k as [|k IH]; intros p h.
  - simpl. intros [= <- <-]. split; [reflexivity|]. intros j Hj. lia.
  - rewrite upto_S. intros Hrun. apply run_loop_snoc_inv in Hrun.
    destruct Hrun as ([p0 h0] & Hrun & Hbody).
    apply IH in Hrun. destruct Hrun as [Hup Hsmall].
    rewrite gauss_newton_damped_body_eq in Hbody.
    destruct (the_step p0) as [step|e] eqn:Hstep; [|discriminate].
    cbn [bind] in Hbody.
    destruct (first_better p0 step (Z.to_nat (max_halving + 1)) 0)
      as [i|] eqn:Hfind; [|discriminate].
    destruct (norm (vscale (halved i) step) <? tolerance) eqn:Htest;
      [discriminate|].
    injection Hbody as <- <-. split.
    + cbn [gnd_updates]. rewrite Hup, Hstep, Hfind. reflexivity.
    + intros j Hj. destruct (Nat.eq_dec j k) as [->|Hne].
      * unfold gnd_small_step. rewrite Hup, Hstep, Hfind. exact Htest.
      * apply Hsmall. lia.
Qed.

(** X18.  The Gauss-Newton solvers have no error of their own: each
    raises exactly when the linear solve of the normal equations raises
    at parameters that the iterations reach within the budget, and then
    it raises that error.  In particular neither raises for having used
    up its budget. *)
Theorem gauss_newton_solvers_raise (init : vec F)
  (max_iterations max_halving : Z) (e : exn) :
  (gn init max_iterations = Raise e <->
   exists k p h,
     (k < Z.to_nat max_iterations)%nat /\
     updates init k = Some (p, h) /\
     (forall j, (j < k)%nat -> small_step init j = false) /\
     the_step p = Raise e) /\
  (gnd init max_iterations max_halving = Raise e <->
   exists k p h,
     (k < Z.to_nat max_iterations)%nat /\
     dupdates init max_halving k = Some (p, h) /\
     (forall j, (j < k)%nat -> dsmall_step init max_halving j = false) /\
     the_step p = Raise e) /\
  (gn init max_iterations = Raise e \/
   gnd init max_iterations max_halving = Raise e ->
   e <> NonConvergence).
Proof.
  assert (Hgn : gn init max_iterations = Raise e <->
                exists k p h,
                  (k < Z.to_nat max_iterations)%nat /\
                  updates init k = Some (p, h) /\
                  (forall j, (j < k)%nat -> small_step init j = false) /\
                  the_step p = Raise e).
  { unfold gauss_newton. rewrite range_upto, for_each_outcome. split.
    - destruct (run_loop gn_body (upto (Z.to_nat max_iterations)) (init, []))
        as [[st|r]|e0] eqn:Hrun; try discriminate.
      intros [= ->].
      apply run_loop_upto_stops in Hrun; [|discriminate].
      destruct Hrun as (k & [p h] & Hk & Hreach & Hbody).
      apply gn_reached in Hreach. destruct Hreach as [Hup Hsmall].
      exists k, p, h. repeat split; try assumption.
      rewrite gauss_newton_body_eq in Hbody.
      destruct (the_step p) as [step|e1]; cbn [bind] in Hbody.
      + destruct (norm step <? tolerance); discriminate Hbody.
      + congruence.
    - intros (k & p & h & Hk & Hup & Hsmall & Hstep).
      destruct (upto_split Hk) as [rest ->].
      rewrite run_loop_app.
      erewrite gn_reach by eassumption.
      cbn [run_loop]. rewrite gauss_newton_body_eq, Hstep. reflexivity. }
  assert (Hgnd : gnd init max_iterations max_halving = Raise e <->
                 exists k p h,
                   (k < Z.to_nat max_iterations)%nat /\
                   dupdates init max_halving k = Some (p, h) /\
                   (forall j, (j < k)%nat ->
                              dsmall_step init max_halving j = false) /\
                   the_step p = Raise e).
  { unfold gauss_newton_damped. rewrite range_upto, for_each_outcome. split.
    - destruct (run_loop (gnd_body max_halving)
                  (upto (Z.to_nat max_iterations)) (init, []))
        as [[st|r]|e0] eqn:Hrun; try discriminate.
      intros [= ->].
      apply run_loop_upto_stops in Hrun; [|discriminate].
      destruct Hrun as (k & [p h] & Hk & Hreach & Hbody).
      apply gnd_reached in Hreach. destruct Hreach as [Hup Hsmall].
      exists k, p, h. repeat split; try assumption.
      rewrite gauss_newton_damped_body_eq in Hbody.
      destruct (the_step p) as [step|e1]; cbn [bind] in Hbody.
      + destruct (first_better p step _ 0); [|discriminate Hbody].
        destruct (norm _ <? tolerance); discriminate Hbody.
      + congruence.
    - intros (k & p & h & Hk & Hup & Hsmall & Hstep).
      destruct (upto_split Hk) as [rest ->].
      rewrite run_loop_app.
      erewrite gnd_reach by eassumption.
      cbn [run_loop].
      rewrite gauss_newton_damped_body_eq, Hstep. reflexivity. }
  split; [exact Hgn|]. split; [exact Hgnd|].
  intros [Hraise|Hraise].
  - apply Hgn in Hraise. destruct Hraise as (k & p & h & _ & _ & _ & Hstep).
    exact (normal_step_raises _ Hstep).
  - apply Hgnd in Hraise. destruct Hraise as (k & p & h & _ & _ & _ & Hstep).
    exact (normal_step_raises _ Hstep).
Qed.

End GaussNewtonErrors.

(** ** What [gauss_newton] leaves in the array of its caller *)

Section InPlaceFacts.
Context {F : Type} `{Scalar F}.
Local Open Scope scalar_scope.
Variable norm : vec F -> F.
Variable linalg_solve : mat F -> vec F -> option (vec F).
Variable X : Type.
Variable func : vec F -> X -> vec F.
Variable jacobian : vec F -> X -> mat F.
Variable x_vals : X.
Variable y_vals : vec F.
Variable tolerance : F.

Local Abbreviation gn := (gauss_newton norm linalg_solve func jacobian
                            x_vals y_vals tolerance).
Local Abbreviation gn_body := (gauss_newton_body norm linalg_solve func
                                 jacobian x_vals y_vals tolerance).
Local Abbreviation gn_in_place :=
  (gauss_newton_in_place norm linalg_solve func jacobian x_vals y_vals
     tolerance).
Local Abbreviation gn_in_place_body :=
  (gauss_newton_in_place_body norm linalg_solve func jacobian x_vals y_vals
     tolerance).
Local Abbreviation the_step := (normal_step linalg_solve func jacobian
                                  x_vals y_vals).
Local Abbreviation res := (residual func x_vals y_vals).

Lemma gauss_newton_in_place_erase (l : list Z) (st : vec F * list gn_entry) :
  for_each gn_body (fun st => Ok st) l st =
  match for_each gn_in_place_body (fun st => Ok (st, fst st)) l st with
  | Ok (r, _) => Ok r
  | Raise e => Raise e
  end.
Proof.
  revert st. induction l as [|i l IH]; intros st; cbn [for_each];
    [reflexivity|].
  unfold gauss_newton_in_place_body.
  destruct (gn_body i st) as [[st'|r]|e]; cbn [bind]; auto.
Qed.

(** X19.  When [initial_guess] is an array of floats, [gauss_newton]
    works in that array.  What it returns is not affected; but after a
    call that returned by its tolerance test the array holds the
    parameters of the last record, not those it held before the call, and
    after a call that used up its budget it holds the returned
    parameters. *)
Theorem gauss_newton_writes_initial_guess (init : vec F)
  (max_iterations : Z) :
  gn init max_iterations =
    match gn_in_place init max_iterations with
    | Ok (r, _) => Ok r
    | Raise e => Raise e
    end /\
  (forall p h a,
      gn_in_place init max_iterations = Ok (p, h, a) ->
      (exists h' e, h = h' ++ [e] /\ a = gn_params e /\
                    p = vadd a (gn_step e) /\
                    (norm (gn_step e) <? tolerance) = true) \/
      (a = p /\ a = gn_position init h /\
       length h = Z.to_nat max_iterations)).
Proof.
  split; [apply gauss_newton_in_place_erase|].
  intros p h a. unfold gauss_newton_in_place. rewrite range_upto.
  revert p h a.
  assert (Hall : forall r : vec F * list gn_entry * vec F,
             for_each gn_in_place_body (fun st => Ok (st, fst st))
               (upto (Z.to_nat max_iterations)) (init, []) = Ok r ->
             (exists h' e, snd (fst r) = h' ++ [e] /\ snd r = gn_params e /\
                           fst (fst r) = vadd (snd r) (gn_step e) /\
                           (norm (gn_step e) <? tolerance) = true) \/
             (snd r = fst (fst r) /\
              snd r = gn_position init (snd (fst r)) /\
              length (snd (fst r)) = Z.to_nat max_iterations)).
  { intros r.
    apply for_each_upto_invariant_end
      with (Inv := fun k (s : vec F * list gn_entry) =>
                     length (snd s) = k /\
                     fst s = gn_position init (snd s))
           (Post := fun r : vec F * list gn_entry * vec F =>
              (exists h' e,
                  snd (fst r) = h' ++ [e] /\ snd r = gn_params e /\
                  fst (fst r) = vadd (snd r) (gn_step e) /\
                  (norm (gn_step e) <? tolerance) = true) \/
              (snd r = fst (fst r) /\
               snd r = gn_position init (snd (fst r)) /\
               length (snd (fst r)) = Z.to_nat max_iterations)).
    - intros k [p h] [p' h'] Hk [Hlen Hpos]. cbn [fst snd] in *.
      unfold gauss_newton_in_place_body.
      rewrite gauss_newton_body_eq.
      destruct (the_step p) as [step|e]; cbn [bind]; [|discriminate].
      destruct (norm step <? tolerance); [discriminate|].
      intros [= <- <-]. split.
      + rewrite length_app. cbn [length]. lia.
      + unfold gn_position. rewrite fold_left_app. reflexivity.
    - intros k [p h] r0 Hk [Hlen Hpos]. cbn [fst snd] in *.
      unfold gauss_newton_in_place_body.
      rewrite gauss_newton_body_eq.
      destruct (the_step p) as [step|e]; cbn [bind]; [|discriminate].
      destruct (norm step <? tolerance) eqn:Htest; [|discriminate].
      intros [= <-]. left. cbn [fst snd].
      eexists. eexists. split; [reflexivity|].
      cbn [gn_params gn_step]. repeat split. exact Htest.
    - intros [p h] r0 [Hlen Hpos] [= <-]. cbn [fst snd] in *.
      right. split; [reflexivity|]. split; assumption.
    - split; reflexivity. }
  intros p h a Hrun. apply (Hall _ Hrun).
Qed.

End InPlaceFacts.

(** ** [lu_decomposition] on systems of any size *)

(** *** Reading and writing arrays *)

Lemma vget_entry (v : vec Q) (i : nat) :
  (i < length v)%nat -> vget v i = Ok (entry v i).
Proof.
  intros Hi. unfold vget, entry.
  rewrite (nth_error_nth' v 0 Hi). reflexivity.
Qed.

Lemma mget_entry2 (m : mat Q) (i j : nat) :
  (i < length m)%nat -> (j < length (nth i m []))%nat ->
  mget m i j = Ok (entry2 m i j).
Proof.
  intros Hi Hj. unfold mget, entry2.
  rewrite (nth_error_nth' m [] Hi). apply vget_entry, Hj.
Qed.

Lemma mget_square (n : nat) (m : mat Q) (i j : nat) :
  square n m -> (i < n)%nat -> (j < n)%nat ->
  mget m i j = Ok (entry2 m i j).
Proof.
  intros [Hlen Hrows] Hi Hj. apply mget_entry2.
  - lia.
  - rewrite Hrows by exact Hi. exact Hj.
Qed.

Lemma nth_update {A : Type} (l : list A) (i : nat) (a d : A) (j : nat) :
  (i < length l)%nat ->
  nth j (firstn i l ++ a :: skipn (S i) l) d =
  if Nat.eqb j i then a else nth j l d.
Proof.
  intros Hi.
  assert (Hlen : length (firstn i l) = i) by (rewrite length_firstn; lia).
  destruct (Nat.eqb_spec j i) as [->|Hne].
  - rewrite app_nth2 by lia. rewrite Hlen, Nat.sub_diag. reflexivity.
  - destruct (Nat.lt_ge_cases j i) as [Hlt|Hge].
    + rewrite app_nth1 by lia. rewrite nth_firstn.
      apply Nat.ltb_lt in Hlt. rewrite Hlt. reflexivity.
    + rewrite app_nth2 by lia. rewrite Hlen.
      destruct (j - i)%nat as [|k] eqn:Hk; [lia|].
      cbn [nth]. rewrite nth_skipn. f_equal. lia.
Qed.

Lemma length_update {A : Type} (l : list A) (i : nat) (a : A) :
  (i < length l)%nat ->
  length (firstn i l ++ a :: skipn (S i) l) = length l.
Proof.
  intros Hi. rewrite length_app, length_firstn. cbn [length].
  rewrite length_skipn. lia.
Qed.

(** [v[i] = a] within the array writes that entry and no other. *)
Lemma vset_spec (v : vec Q) (i : nat) (a : Q) :
  (i < length v)%nat ->
  exists v',
    Simplified.vset v i a = Done v' /\
    length v' = length v /\
    entry v' i = a /\
    (forall j, j <> i -> entry v' j = entry v j).
Proof.
  intros Hi. unfold Simplified.vset.
  apply Nat.ltb_lt in Hi as Hb. rewrite Hb.
  eexists. split; [reflexivity|]. split; [apply length_update, Hi|].
  unfold entry. split.
  - rewrite nth_update by exact Hi. rewrite Nat.eqb_refl. reflexivity.
  - intros j Hj. rewrite nth_update by exact Hi.
    apply Nat.eqb_neq in Hj. rewrite Hj. reflexivity.
Qed.

(** [m[i][j] = a] within a square matrix. *)
Lemma mset_spec (n : nat) (m : mat Q) (i j : nat) (a : Q) :
  square n m -> (i < n)%nat -> (j < n)%nat ->
  exists m',
    Simplified.mset m i j a = Done m' /\
    square n m' /\
    entry2 m' i j = a /\
    (forall r c, ~ (r = i /\ c = j) -> entry2 m' r c = entry2 m r c).
Proof.
  intros [Hlen Hrows] Hi Hj. unfold Simplified.mset.
  assert (Hi' : (i < length m)%nat) by lia.
  rewrite (nth_error_nth' m [] Hi').
  destruct (@vset_spec (nth i m []) j a) as (r' & Hset & Hlr & Hat & Hother).
  { rewrite Hrows by exact Hi. exact Hj. }
  rewrite Hset. cbn [and_then].
  eexists. split; [reflexivity|]. split; [|split].
  - split.
    + rewrite length_update by exact Hi'. exact Hlen.
    + intros r Hr. rewrite nth_update by exact Hi'.
      destruct (Nat.eqb_spec r i) as [->|Hne].
      * rewrite Hlr. apply Hrows, Hi.
      * apply Hrows, Hr.
  - unfold entry2. rewrite nth_update by exact Hi'.
    rewrite Nat.eqb_refl. exact Hat.
  - intros r c Hrc. unfold entry2. rewrite nth_update by exact Hi'.
    destruct (Nat.eqb_spec r i) as [->|Hne]; [|reflexivity].
    apply Hother. intros ->. apply Hrc. split; reflexivity.
Qed.

Lemma square_zeros (n : nat) :
  square n (repeat (Simplified.zeros n) n).
Proof.
  split; [apply repeat_length|].
  intros r Hr. rewrite nth_repeat_lt by exact Hr.
  apply repeat_length.
Qed.

(** *** Sums *)

Lemma sum_from_sigma (term : nat -> outcome Q) (t : nat -> Q)
  (ks : list nat) :
  (forall k, In k ks -> term k = Done (t k)) ->
  forall acc,
    Simplified.sum_from acc ks term =
    Done (fold_left (fun a k => a + t k) ks acc).
Proof.
  induction ks as [|k ks IH]; intros Hterm acc; [reflexivity|].
  cbn [Simplified.sum_from fold_left].
  rewrite (Hterm k) by (left; reflexivity). cbn [and_then].
  apply IH. intros k' Hk'. apply Hterm. right. exact Hk'.
Qed.

Lemma py_sum_sigma (term : nat -> outcome Q) (t : nat -> Q)
  (ks : list nat) :
  (forall k, In k ks -> term k = Done (t k)) ->
  Simplified.py_sum ks term = Done (sigma t ks).
Proof.
  intros Hterm. unfold Simplified.py_sum, sigma.
  apply sum_from_sigma, Hterm.
Qed.

(** Two sums of the same terms are the same number. *)
Lemma sigma_same (t t' : nat -> Q) (ks : list nat) :
  (forall k, In k ks -> t k = t' k) -> sigma t ks = sigma t' ks.
Proof.
  unfold sigma. generalize 0.
  induction ks as [|k ks IH]; intros acc Hsame; [reflexivity|].
  cbn [fold_left]. rewrite (Hsame k) by (left; reflexivity).
  apply IH. intros k' Hk'. apply Hsame. right. exact Hk'.
Qed.

Lemma fold_sigma_acc (t : nat -> Q) (ks : list nat) (acc : Q) :
  fold_left (fun a k => a + t k) ks acc == acc + sigma t ks.
Proof.
  unfold sigma. revert acc.
  induction ks as [|k ks IH]; intros acc; cbn [fold_left]; [ring|].
  rewrite IH, (IH (0 + t k)). ring.
Qed.

Lemma sigma_nil (t : nat -> Q) : sigma t [] = 0.
Proof. reflexivity. Qed.

Lemma sigma_cons (t : nat -> Q) (k : nat) (ks : list nat) :
  sigma t (k :: ks) == t k + sigma t ks.
Proof.
  unfold sigma at 1. cbn [fold_left]. rewrite fold_sigma_acc. ring.
Qed.

Lemma sigma_app (t : nat -> Q) (ks ks' : list nat) :
  sigma t (ks ++ ks') == sigma t ks + sigma t ks'.
Proof.
  induction ks as [|k ks IH]; cbn [app].
  - rewrite sigma_nil. ring.
  - rewrite !sigma_cons, IH. ring.
Qed.

Lemma sigma_ext (t t' : nat -> Q) (ks : list nat) :
  (forall k, In k ks -> t k == t' k) -> sigma t ks == sigma t' ks.
Proof.
  induction ks as [|k ks IH]; intros Hext; [reflexivity|].
  rewrite !sigma_cons. rewrite (Hext k) by (left; reflexivity).
  rewrite IH; [reflexivity|]. intros k' Hk'. apply Hext. right. exact Hk'.
Qed.

Lemma sigma_zero (t : nat -> Q) (ks : list nat) :
  (forall k, In k ks -> t k == 0) -> sigma t ks == 0.
Proof.
  induction ks as [|k ks IH]; intros Hzero; [reflexivity|].
  rewrite sigma_cons, (Hzero k) by (left; reflexivity).
  rewrite IH; [ring|]. intros k' Hk'. apply Hzero. right. exact Hk'.
Qed.

Lemma sigma_plus (t t' : nat -> Q) (ks : list nat) :
  sigma (fun k => t k + t' k) ks == sigma t ks + sigma t' ks.
Proof.
  induction ks as [|k ks IH]; [rewrite !sigma_nil; ring|].
  rewrite !sigma_cons, IH. ring.
Qed.

Lemma sigma_scale (c : Q) (t : nat -> Q) (ks : list nat) :
  sigma (fun k => c * t k) ks == c * sigma t ks.
Proof.
  induction ks as [|k ks IH]; [rewrite !sigma_nil; ring|].
  rewrite !sigma_cons, IH. ring.
Qed.

Lemma sigma_swap (t : nat -> nat -> Q) (ks ls : list nat) :
  sigma (fun k => sigma (fun l => t k l) ls) ks ==
  sigma (fun l => sigma (fun k => t k l) ks) ls.
Proof.
  induction ks as [|k ks IH].
  - rewrite sigma_nil. symmetry. apply sigma_zero. reflexivity.
  - rewrite sigma_cons, IH. rewrite <- sigma_plus.
    apply sigma_ext. intros l _. rewrite sigma_cons. reflexivity.
Qed.

Lemma for_in_app {I S : Type} (l1 l2 : list I) (body : I -> S -> outcome S)
  (s : S) :
  for_in (l1 ++ l2) body s =
  (s' <~ for_in l1 body s ;; for_in l2 body s').
Proof.
  revert s. induction l1 as [|i l1 IH]; intros s; cbn [app for_in and_then];
    [reflexivity|].
  destruct (body i s) as [s1|e]; cbn [and_then]; [apply IH | reflexivity].
Qed.

Lemma for_in_one {I S : Type} (i : I) (body : I -> S -> outcome S) (s : S) :
  for_in [i] body s = body i s.
Proof.
  cbn [for_in]. destruct (body i s); reflexivity.
Qed.

Section Decomposition.
Variable n : nat.
Variable A : mat Q.
Hypothesis A_square : square n A.

Lemma entry_product_entry2 (L U : mat Q) (i k j : nat) :
  square n L -> square n U -> (i < n)%nat -> (k < n)%nat -> (j < n)%nat ->
  Simplified.entry_product L U i k j = Done (entry2 L i k * entry2 U k j).
Proof.
  intros HL HU Hi Hk Hj. unfold Simplified.entry_product.
  rewrite (mget_square HL Hi Hk), (mget_square HU Hk Hj). reflexivity.
Qed.

(** Row [i] of [U]: the first inner loop writes the entries from the
    diagonal on and nothing else, and it raises nothing. *)
Lemma lu_upper_row (L U : mat Q) (i m : nat) :
  square n L -> square n U -> (i + m <= n)%nat ->
  exists U',
    for_in (seq i m)
      (fun j '(L, U) =>
         a <~ lift (mget A i j) ;;
         s <~ Simplified.py_sum (seq 0 i)
                (fun k => Simplified.entry_product L U i k j) ;;
         U' <~ Simplified.mset U i j (a - s)%S ;;
         Done (L, U'))
      (L, U) = Done (L, U') /\
    square n U' /\
    (forall c, (i <= c < i + m)%nat ->
       entry2 U' i c =
       entry2 A i c -
       sigma (fun k => entry2 L i k * entry2 U k c) (seq 0 i)) /\
    (forall r c, ~ (r = i /\ (i <= c < i + m)%nat) ->
       entry2 U' r c = entry2 U r c).
Proof.
  intros HL HU. induction m as [|m IH]; intros Hm.
  - exists U. split; [reflexivity|]. split; [exact HU|].
    split; [intros c Hc; lia | reflexivity].
  - destruct IH as (U1 & Hrun & HU1 & Hrow & Hrest); [lia|].
    rewrite seq_S, for_in_app, Hrun. cbn [and_then].
    rewrite for_in_one.
    assert (Hi : (i < n)%nat) by lia.
    assert (Hj : (i + m < n)%nat) by lia.
    rewrite (mget_square A_square Hi Hj). cbn [lift and_then].
    rewrite (@py_sum_sigma _
               (fun k => entry2 L i k * entry2 U k (i + m)) _).
    2:{ intros k Hk. apply in_seq in Hk.
        rewrite entry_product_entry2 by (assumption || lia).
        rewrite Hrest by lia. reflexivity. }
    cbn [and_then].
    destruct (mset_spec (entry2 A i (i + m) -
                         sigma (fun k => entry2 L i k * entry2 U k (i + m))
                           (seq 0 i)) HU1 Hi Hj)
      as (U2 & Hset & HU2 & Hat & Hother).
    cbn [fsub Scalar_Q]. rewrite Hset. cbn [and_then].
    exists U2. split; [reflexivity|]. split; [exact HU2|]. split.
    + intros c Hc. destruct (Nat.eq_dec c (i + m)) as [->|Hne].
      * exact Hat.
      * rewrite Hother by lia. apply Hrow. lia.
    + intros r c Hrc. rewrite Hother by lia. apply Hrest. lia.
Qed.

(** Column [i] of [L]: the second inner loop raises nothing but the
    error of a division by a pivot that is 0; otherwise it has written the
    entries from the diagonal on and nothing else. *)
Lemma lu_lower_column (L U : mat Q) (i m : nat) :
  square n L -> square n U -> (i + m <= n)%nat ->
  match
    for_in (seq i m)
      (fun j '(L, U) =>
         if Nat.eqb i j
         then
           L' <~ Simplified.mset L i i (lit 1) ;;
           Done (L', U)
         else
           a <~ lift (mget A j i) ;;
           s <~ Simplified.py_sum (seq 0 i)
                  (fun k => Simplified.entry_product L U j k i) ;;
           u <~ lift (mget U i i) ;;
           q <~ Simplified.divide (a - s)%S u ;;
           L' <~ Simplified.mset L j i q ;;
           Done (L', U))
      (L, U)
  with
  | Done (L', U') =>
      U' = U /\
      square n L' /\
      (forall r, (i < r < i + m)%nat ->
         ~ entry2 U i i == 0 /\
         entry2 L' r i =
         (entry2 A r i -
          sigma (fun k => entry2 L r k * entry2 U k i) (seq 0 i)) /
         entry2 U i i) /\
      (forall r c, ~ (c = i /\ (i <= r < i + m)%nat) ->
         entry2 L' r c = entry2 L r c)
  | Fail e => e = ZeroDivisionError
  end.
Proof.
  intros HL HU. induction m as [|m IH]; intros Hm.
  - cbn [seq for_in]. split; [reflexivity|].
    split; [exact HL|]. split; [intros r Hr; lia | reflexivity].
  - rewrite seq_S, for_in_app.
    match goal with
    | |- context [for_in (seq i m) ?body (L, U)] =>
        destruct (for_in (seq i m) body (L, U)) as [[L1 U1]|e] eqn:Hrun
    end; cbn [and_then]; [|apply IH; lia].
    destruct IH as (-> & HL1 & Hcol & Hrest); [lia|].
    rewrite for_in_one.
    assert (Hi : (i < n)%nat) by lia.
    assert (Hj : (i + m < n)%nat) by lia.
    destruct (Nat.eqb_spec i (i + m)) as [Heq|Hne].
    + assert (m = 0)%nat by lia. subst m.
      destruct (mset_spec (lit 1) HL1 Hi Hi)
        as (L2 & Hset & HL2 & Hat & Hother).
      rewrite Hset. cbn [and_then].
      split; [reflexivity|]. split; [exact HL2|]. split.
      * intros r Hr. lia.
      * intros r c Hrc. rewrite Hother by lia. apply Hrest. lia.
    + rewrite (mget_square A_square Hj Hi). cbn [lift and_then].
      rewrite (@py_sum_sigma _
                 (fun k => entry2 L (i + m) k * entry2 U k i) _).
      2:{ intros k Hk. apply in_seq in Hk.
          rewrite entry_product_entry2 by (assumption || lia).
          rewrite Hrest by lia. reflexivity. }
      cbn [and_then].
      rewrite (mget_square HU Hi Hi). cbn [lift and_then].
      unfold Simplified.divide. cbn [feqb fsub fdiv lit Scalar_Q].
      destruct (Qeq_bool (entry2 U i i) 0) eqn:Hpivot;
        cbn [and_then]; [reflexivity|].
      apply Qeq_bool_neq in Hpivot.
      match goal with
      | |- context [Simplified.mset L1 (i + m) i ?q] =>
          destruct (mset_spec q HL1 Hj Hi) as (L2 & Hset & HL2 & Hat & Hother)
      end.
      rewrite Hset. cbn [and_then].
      split; [reflexivity|]. split; [exact HL2|]. split.
      * intros r Hr. split; [exact Hpivot|].
        destruct (Nat.eq_dec r (i + m)) as [->|Hne'].
        -- exact Hat.
        -- rewrite Hother by lia. apply Hcol. lia.
      * intros r c Hrc. rewrite Hother by lia. apply Hrest. lia.
Qed.

End Decomposition.

Section Factors.
Variable n : nat.
Variable A : mat Q.
Hypothesis A_square : square n A.

(** What the decomposition has established after its first [m] passes,
    unless it has raised for a division by 0: the rows of [U] and the
    columns of [L] that are written satisfy the equations of [A = L U]. *)
Lemma lu_factors_passes (m : nat) (L0 U0 : mat Q) :
  (m <= n)%nat -> square n L0 -> square n U0 ->
  match
    for_in (seq 0 m)
      (fun i LU =>
         LU' <~ Simplified.lu_upper A n i LU ;;
         Simplified.lu_lower A n i LU')
      (L0, U0)
  with
  | Done (L, U) =>
      square n L /\ square n U /\
      (forall r c, (r < m)%nat -> (r <= c < n)%nat ->
         entry2 U r c ==
         entry2 A r c -
         sigma (fun k => entry2 L r k * entry2 U k c) (seq 0 r)) /\
      (forall r c, (c < m)%nat -> (c < r < n)%nat ->
         entry2 L r c * entry2 U c c ==
         entry2 A r c -
         sigma (fun k => entry2 L r k * entry2 U k c) (seq 0 c))
  | Fail e => e = ZeroDivisionError
  end.
Proof.
  intros Hm HL0 HU0. induction m as [|m IH].
  - cbn [seq for_in].
    split; [exact HL0|]. split; [exact HU0|].
    split; intros r c Hr; lia.
  - rewrite seq_S, for_in_app.
    match goal with
    | |- context [for_in (seq 0 m) ?body (L0, U0)] =>
        destruct (for_in (seq 0 m) body (L0, U0)) as [[L1 U1]|e] eqn:Hrun
    end; cbn [and_then]; [|apply IH; lia].
    destruct IH as (HL1 & HU1 & HUeq & HLeq); [lia|].
    rewrite for_in_one. cbn [Nat.add].
    unfold Simplified.lu_upper.
    destruct (@lu_upper_row n A A_square L1 U1 m (n - m) HL1 HU1)
      as (U' & Hupper & HU' & Hrow & Hrest); [lia|].
    rewrite Hupper. cbn [and_then].
    unfold Simplified.lu_lower.
    pose proof (@lu_lower_column n A A_square L1 U' m (n - m) HL1 HU')
      as Hlower.
    match type of Hlower with
    | _ -> match ?run with _ => _ end =>
        destruct run as [[L U]|e]; [|apply Hlower; lia]
    end.
    destruct Hlower as (-> & HL & Hcol & Hkeep); [lia|].
    split; [exact HL|]. split; [exact HU'|]. split.
    + intros r c Hr Hc.
      assert (Hsum : sigma (fun k => entry2 L r k * entry2 U' k c) (seq 0 r) =
                     sigma (fun k => entry2 L1 r k * entry2 U1 k c)
                       (seq 0 r)).
      { apply sigma_same. intros k Hk. apply in_seq in Hk.
        rewrite Hkeep by lia. rewrite Hrest by lia. reflexivity. }
      rewrite Hsum.
      destruct (Nat.eq_dec r m) as [->|Hne].
      * rewrite Hrow by lia. reflexivity.
      * rewrite Hrest by lia. apply HUeq; lia.
    + intros r c Hc Hr.
      assert (Hsum : sigma (fun k => entry2 L r k * entry2 U' k c) (seq 0 c) =
                     sigma (fun k => entry2 L1 r k * entry2 U1 k c)
                       (seq 0 c)).
      { apply sigma_same. intros k Hk. apply in_seq in Hk.
        rewrite Hkeep by lia. rewrite Hrest by lia. reflexivity. }
      rewrite Hsum.
      destruct (Nat.eq_dec c m) as [->|Hne].
      * destruct (Hcol r) as [Hpivot Hentry]; [lia|].
        rewrite Hentry.
        assert (Hsum' : sigma (fun k => entry2 L1 r k * entry2 U' k m)
                          (seq 0 m) =
                        sigma (fun k => entry2 L1 r k * entry2 U1 k m)
                          (seq 0 m)).
        { apply sigma_same. intros k Hk. apply in_seq in Hk.
          rewrite Hrest by lia. reflexivity. }
        rewrite Hsum'. field. exact Hpivot.
      * rewrite Hkeep by lia. rewrite Hrest by lia. apply HLeq; lia.
Qed.

End Factors.

Section Forward.
Variable n : nat.
Variable L : mat Q.
Hypothesis L_square : square n L.
Variable b : vec Q.
Hypothesis b_length : length b = n.

(** The forward substitution raises nothing and solves [L y = b], where
    the diagonal of [L] counts as 1. *)
Lemma forward_substitution_passes (m : nat) (y0 : vec Q) :
  (m <= n)%nat -> length y0 = n ->
  exists y,
    for_in (seq 0 m)
      (fun i y =>
         b_i <~ lift (vget b i) ;;
         s <~ Simplified.py_sum (seq 0 i)
                (fun j =>
                   l <~ lift (mget L i j) ;;
                   y_j <~ lift (vget y j) ;;
                   Done (l * y_j)%S) ;;
         Simplified.vset y i (b_i - s)%S)
      y0 = Done y /\
    length y = n /\
    (forall i, (i < m)%nat ->
       entry y i =
       entry b i - sigma (fun j => entry2 L i j * entry y j) (seq 0 i)) /\
    (forall i, (m <= i)%nat -> entry y i = entry y0 i).
Proof.
  intros Hm Hy0. induction m as [|m IH].
  - exists y0. split; [reflexivity|]. split; [exact Hy0|].
    split; [intros i Hi; lia | reflexivity].
  - destruct IH as (y1 & Hrun & Hy1 & Hdone & Hrest); [lia|].
    rewrite seq_S, for_in_app, Hrun. cbn [and_then Nat.add].
    rewrite for_in_one.
    rewrite vget_entry by lia. cbn [lift and_then].
    rewrite (@py_sum_sigma _ (fun j => entry2 L m j * entry y1 j) _).
    2:{ intros j Hj. apply in_seq in Hj.
        rewrite (mget_square L_square) by lia.
        rewrite vget_entry by lia. reflexivity. }
    cbn [and_then fsub Scalar_Q].
    destruct (@vset_spec y1 m
                (entry b m -
                 sigma (fun j => entry2 L m j * entry y1 j) (seq 0 m)))
      as (y2 & Hset & Hy2 & Hat & Hother); [lia|].
    rewrite Hset. exists y2. split; [reflexivity|]. split; [lia|].
    split.
    + intros i Hi.
      assert (Hsum : sigma (fun j => entry2 L i j * entry y2 j) (seq 0 i) =
                     sigma (fun j => entry2 L i j * entry y1 j) (seq 0 i)).
      { apply sigma_same. intros j Hj. apply in_seq in Hj.
        rewrite Hother by lia. reflexivity. }
      rewrite Hsum.
      destruct (Nat.eq_dec i m) as [->|Hne]; [exact Hat|].
      rewrite Hother by lia. apply Hdone. lia.
    + intros i Hi. rewrite Hother by lia. apply Hrest. lia.
Qed.

End Forward.

Section Backward.
Variable n : nat.
Variable U : mat Q.
Hypothesis U_square : square n U.
Variable y : vec Q.
Hypothesis y_length : length y = n.

(** The backward substitution raises nothing but the error of a
    division by a diagonal entry of [U] that is 0; otherwise it solves
    [U x = y]. *)
Lemma backward_substitution_passes (m : nat) (x0 : vec Q) :
  (m <= n)%nat -> length x0 = n ->
  match
    for_in (rev (seq 0 m))
      (fun i x =>
         y_i <~ lift (vget y i) ;;
         s <~ Simplified.py_sum (seq (i + 1) (n - (i + 1)))
                (fun j =>
                   u <~ lift (mget U i j) ;;
                   x_j <~ lift (vget x j) ;;
                   Done (u * x_j)%S) ;;
         u_ii <~ lift (mget U i i) ;;
         q <~ Simplified.divide (y_i - s)%S u_ii ;;
         Simplified.vset x i q)
      x0
  with
  | Done x =>
      length x = n /\
      (forall i, (i < m)%nat ->
         ~ entry2 U i i == 0 /\
         entry x i =
         (entry y i -
          sigma (fun j => entry2 U i j * entry x j)
            (seq (i + 1) (n - (i + 1)))) /
         entry2 U i i) /\
      (forall i, (m <= i)%nat -> entry x i = entry x0 i)
  | Fail e => e = ZeroDivisionError
  end.
Proof.
  match goal with
  | |- context [for_in _ ?b _] => set (body := b)
  end.
  revert x0. induction m as [|m IH]; intros x0 Hm Hx0.
  - cbn [seq rev for_in]. split; [exact Hx0|].
    split; [intros i Hi; lia | reflexivity].
  - rewrite seq_S, rev_app_distr. cbn [rev app Nat.add for_in].
    assert (Hpass :
              body m x0 =
              if Qeq_bool (entry2 U m m) 0
              then Fail ZeroDivisionError
              else Simplified.vset x0 m
                     ((entry y m -
                       sigma (fun j => entry2 U m j * entry x0 j)
                         (seq (m + 1) (n - (m + 1)))) /
                      entry2 U m m)).
    { unfold body. rewrite vget_entry by lia. cbn [lift and_then].
      rewrite (@py_sum_sigma _ (fun j => entry2 U m j * entry x0 j) _).
      2:{ intros j Hj. apply in_seq in Hj.
          rewrite (mget_square U_square) by lia.
          rewrite vget_entry by lia. reflexivity. }
      cbn [and_then].
      rewrite (mget_square U_square) by lia. cbn [lift and_then].
      unfold Simplified.divide. cbn [feqb fsub fdiv lit Scalar_Q].
      destruct (Qeq_bool (entry2 U m m) 0); reflexivity. }
    rewrite Hpass. clear Hpass.
    destruct (Qeq_bool (entry2 U m m) 0) eqn:Hpivot;
      cbn [and_then]; [reflexivity|].
    apply Qeq_bool_neq in Hpivot.
    match goal with
    | |- context [Simplified.vset x0 m ?q] =>
        destruct (@vset_spec x0 m q) as (x2 & Hset & Hx2 & Hat & Hother);
          [lia|]
    end.
    rewrite Hset. cbn [and_then].
    specialize (IH x2).
    destruct (for_in (rev (seq 0 m)) body x2) as [x|e];
      [|apply IH; lia].
    destruct IH as (Hx & Hdone & Hrest); [lia|lia|].
    split; [exact Hx|]. split.
    + intros i Hi. destruct (Nat.eq_dec i m) as [->|Hne].
      * split; [exact Hpivot|].
        rewrite Hrest by lia. rewrite Hat. f_equal. f_equal.
        apply sigma_same. intros j Hj. apply in_seq in Hj.
        rewrite Hrest by lia. rewrite Hother by lia. reflexivity.
      * apply Hdone. lia.
    + intros i Hi. rewrite Hrest by lia. apply Hother. lia.
Qed.

End Backward.

(** *** From the equations of the loops to [A x = b] *)

Lemma seq_split (n k : nat) :
  (k < n)%nat -> seq 0 n = seq 0 k ++ k :: seq (S k) (n - S k).
Proof.
  intros Hk. replace n with (k + S (n - S k))%nat at 1 by lia.
  rewrite seq_app. reflexivity.
Qed.

Lemma sigma_map (t : nat -> Q) (g : nat -> nat) (ks : list nat) :
  sigma t (map g ks) = sigma (fun k => t (g k)) ks.
Proof.
  unfold sigma. generalize 0.
  induction ks as [|k ks IH]; intros acc; [reflexivity|].
  cbn [map fold_left]. apply IH.
Qed.

Lemma dot_sigma (u v : vec Q) :
  length u = length v ->
  dot u v == sigma (fun c => entry u c * entry v c) (seq 0 (length u)).
Proof.
  revert v. induction u as [|a u IH]; intros [|b v] Hlen;
    try discriminate Hlen; [reflexivity|].
  cbn [dot length seq]. rewrite sigma_cons.
  rewrite <- seq_shift, sigma_map.
  cbn [fadd fmul Scalar_Q]. rewrite IH by (injection Hlen; auto).
  reflexivity.
Qed.

Lemma Forall2_entries (u v : vec Q) :
  length u = length v ->
  (forall i, (i < length u)%nat -> entry u i == entry v i) ->
  Forall2 Qeq u v.
Proof.
  revert v. induction u as [|a u IH]; intros [|b v] Hlen Hall;
    try discriminate Hlen; constructor.
  - apply (Hall 0%nat). cbn [length]. lia.
  - apply IH; [injection Hlen; auto|].
    intros i Hi. apply (Hall (S i)). cbn [length]. lia.
Qed.

Section Triangular.
Variable n : nat.
Variables A L U : nat -> nat -> Q.
Variables b x y : nat -> Q.

Hypothesis U_rows :
  forall r c, (r <= c < n)%nat ->
    U r c == A r c - sigma (fun k => L r k * U k c) (seq 0 r).
Hypothesis L_columns :
  forall r c, (c < r < n)%nat ->
    L r c * U c c == A r c - sigma (fun k => L r k * U k c) (seq 0 c).
Hypothesis forward :
  forall i, (i < n)%nat ->
    y i == b i - sigma (fun j => L i j * y j) (seq 0 i).
Hypothesis backward :
  forall i, (i < n)%nat ->
    x i * U i i ==
    y i - sigma (fun j => U i j * x j) (seq (S i) (n - S i)).

(** An entry of [A] as the product of a row of [L], with 1 on the
    diagonal, and a column of [U]. *)
Lemma entry_of_product (r c : nat) :
  (r < n)%nat -> (c < n)%nat ->
  A r c ==
  sigma (fun k => if Nat.leb k c then L r k * U k c else 0) (seq 0 r) +
  (if Nat.leb r c then U r c else 0).
Proof.
  intros Hr Hc. destruct (Nat.leb_spec r c) as [Hle|Hlt].
  - rewrite (U_rows (r := r) (c := c)) by lia.
    rewrite (@sigma_ext _ (fun k => L r k * U k c)); [ring|].
    intros k Hk. apply in_seq in Hk.
    destruct (Nat.leb_spec k c); [reflexivity | lia].
  - rewrite (seq_split Hlt), sigma_app, sigma_cons.
    rewrite Nat.leb_refl.
    rewrite (@sigma_ext _ (fun k => L r k * U k c) (seq 0 c)).
    2:{ intros k Hk. apply in_seq in Hk.
        destruct (Nat.leb_spec k c); [reflexivity | lia]. }
    rewrite (@sigma_zero _ (seq (S c) (r - S c))).
    2:{ intros k Hk. apply in_seq in Hk.
        destruct (Nat.leb_spec k c); [lia | reflexivity]. }
    rewrite (L_columns (r := r) (c := c)) by lia. ring.
Qed.

(** A row of [U] times [x]. *)
Lemma row_of_U (k : nat) :
  (k < n)%nat ->
  sigma (fun c => if Nat.leb k c then U k c * x c else 0) (seq 0 n) == y k.
Proof.
  intros Hk. rewrite (seq_split Hk), sigma_app, sigma_cons.
  rewrite Nat.leb_refl.
  rewrite (@sigma_zero _ (seq 0 k)).
  2:{ intros c Hc. apply in_seq in Hc.
      destruct (Nat.leb_spec k c); [lia | reflexivity]. }
  rewrite (@sigma_ext _ (fun c => U k c * x c) (seq (S k) (n - S k))).
  2:{ intros c Hc. apply in_seq in Hc.
      destruct (Nat.leb_spec k c); [reflexivity | lia]. }
  pose proof (backward Hk) as Hback. lra.
Qed.

Lemma triangular_systems_solve (r : nat) :
  (r < n)%nat ->
  sigma (fun c => A r c * x c) (seq 0 n) == b r.
Proof.
  intros Hr.
  rewrite (@sigma_ext _
             (fun c =>
                sigma (fun k => L r k *
                                (if Nat.leb k c then U k c * x c else 0))
                  (seq 0 r) +
                (if Nat.leb r c then U r c * x c else 0))).
  2:{ intros c Hc. apply in_seq in Hc.
      rewrite (entry_of_product Hr) by lia.
      rewrite Qmult_plus_distr_l.
      apply Qplus_comp.
      - rewrite Qmult_comm, <- sigma_scale.
        apply sigma_ext. intros k _.
        destruct (Nat.leb k c); ring.
      - destruct (Nat.leb r c); ring. }
  rewrite sigma_plus, sigma_swap, (row_of_U Hr).
  rewrite (@sigma_ext _ (fun k => L r k * y k) (seq 0 r)).
  2:{ intros k Hk. apply in_seq in Hk.
      rewrite sigma_scale, row_of_U by lia. reflexivity. }
  rewrite (forward Hr). ring.
Qed.

End Triangular.

(** *** The solver *)

(** X20.  [lu_decomposition] on systems of every size, in exact
    arithmetic.  When the matrix has [n] rows of [n] entries and the right
    side has [n] entries, a result that is returned has [n] entries and
    solves the system, and nothing is raised but the [ZeroDivisionError]
    of a division by a pivot that is 0. *)
Theorem lu_decomposition_solves (A : mat Q) (b : vec Q) :
  square (length A) A ->
  length b = length A ->
  match Simplified.lu_decomposition A b with
  | Done x => length x = length A /\ Forall2 Qeq (matvec A x) b
  | Fail e => e = ZeroDivisionError
  end.
Proof.
  intros HA Hb. unfold Simplified.lu_decomposition, Simplified.lu_factors.
  set (n := length A) in *.
  pose proof (@lu_factors_passes n A HA n (repeat (Simplified.zeros n) n)
                (repeat (Simplified.zeros n) n))
    as Hfactors.
  match type of Hfactors with
  | _ -> _ -> _ -> match ?run with _ => _ end =>
      match goal with
      | |- match and_then ?run' _ with _ => _ end => change run' with run
      end;
      destruct run as [[L U]|e]; cbn [and_then];
        [|apply Hfactors; [lia|apply square_zeros|apply square_zeros]]
  end.
  destruct Hfactors as (HL & HU & HUeq & HLeq);
    [lia|apply square_zeros|apply square_zeros|].
  cbn [fst snd].
  unfold Simplified.forward_substitution.
  destruct (@forward_substitution_passes n L HL b Hb n (Simplified.zeros n))
    as (y & Hrun & Hy & Hyeq & _);
    [lia | apply repeat_length |].
  rewrite Hrun. cbn [and_then].
  unfold Simplified.backward_substitution.
  pose proof (@backward_substitution_passes n U HU y Hy n
                (Simplified.zeros n))
    as Hbackward.
  match type of Hbackward with
  | _ -> _ -> match ?run with _ => _ end =>
      match goal with
      | |- match ?run' with _ => _ end => change run' with run
      end;
      destruct run as [x|e]; [|apply Hbackward; [lia|apply repeat_length]]
  end.
  destruct Hbackward as (Hx & Hxeq & _); [lia|apply repeat_length|].
  split; [exact Hx|].
  apply Forall2_entries.
  - unfold matvec. rewrite length_map. symmetry. exact Hb.
  - unfold matvec. rewrite length_map. fold n. intros r Hr.
    unfold entry.
    rewrite (nth_indep _ 0 (dot [] x)) by (rewrite length_map; exact Hr).
    rewrite (map_nth (fun row => dot row x) A [] r).
    destruct HA as [_ Hrows].
    rewrite dot_sigma by (rewrite Hrows by exact Hr; lia).
    rewrite Hrows by exact Hr.
    apply (@triangular_systems_solve n (entry2 A) (entry2 L) (entry2 U)
             (entry b) (entry x) (entry y)).
    + intros r0 c Hc. apply HUeq; lia.
    + intros r0 c Hc. apply HLeq; lia.
    + intros i Hi. rewrite Hyeq by exact Hi. reflexivity.
    + intros i Hi. destruct (Hxeq i Hi) as [Hpivot Hentry].
      rewrite Hentry. replace (i + 1)%nat with (S i) by lia.
      field. exact Hpivot.
    + exact Hr.
Qed.

(** ** What the records of the Gauss-Newton solvers hold *)

(** X21.  For a model with two parameters, in exact arithmetic, every step
    that [gauss_newton] records solves the normal equations
    [(J^T J) step = J^T r] at the parameters recorded with it, and every
    step that [gauss_newton_damped] records is its damping factor times
    such a solution. *)
Theorem recorded_steps_solve_normal_equations (norm : vec Q -> Q)
  (linalg_solve : mat Q -> vec Q -> option (vec Q)) (X : Type)
  (func : vec Q -> X -> vec Q) (jacobian : vec Q -> X -> mat Q)
  (x_vals : X) (y_vals : vec Q) (tolerance : Q) (init : vec Q)
  (max_iterations max_halving : Z) :
  (forall q, two_columns (jacobian q x_vals)) ->
  (forall p h e,
      gauss_newton norm linalg_solve func jacobian x_vals y_vals tolerance
        init max_iterations = Ok (p, h) ->
      In e h ->
      Forall2 Qeq
        (matvec (matmul (transpose (jacobian (gn_params e) x_vals))
                   (jacobian (gn_params e) x_vals)) (gn_step e))
        (matvec (transpose (jacobian (gn_params e) x_vals))
           (residual func x_vals y_vals (gn_params e)))) /\
  (forall p h e,
      gauss_newton_damped norm linalg_solve func jacobian x_vals y_vals
        tolerance init max_iterations max_halving = Ok (p, h) ->
      In e h ->
      exists step,
        gnd_step e = vscale (gnd_damping_factor e) step /\
        Forall2 Qeq
          (matvec (matmul (transpose (jacobian (gnd_params e) x_vals))
                     (jacobian (gnd_params e) x_vals)) step)
          (matvec (transpose (jacobian (gnd_params e) x_vals))
             (residual func x_vals y_vals (gnd_params e)))).
Proof.
  intros Hshape. split.
  - intros p h e Hrun He. apply In_nth_error in He. destruct He as [k Hk].
    destruct (gauss_newton_invariant _ _ _ _ _ _ _ _ _ Hrun)
      as (_ & _ & Hrec).
    destruct (Hrec k e Hk) as (_ & _ & Hstep & _).
    eapply normal_step_solves_normal_equations; [|exact Hstep].
    apply normal_matrix_is_2x2, Hshape.
  - intros p h e Hrun He. apply In_nth_error in He. destruct He as [k Hk].
    destruct (gauss_newton_damped_invariant _ _ _ _ _ _ _ _ _ _ Hrun)
      as (_ & _ & Hrec).
    destruct (Hrec k e Hk) as (_ & step & i & Hstep & _ & Heq & _).
    exists step. split.
    + rewrite Heq. reflexivity.
    + eapply normal_step_solves_normal_equations; [|exact Hstep].
      apply normal_matrix_is_2x2, Hshape.
Qed.

(** X22.  The damping factor that [gauss_newton_damped] records is the
    first of the factors 1, 1/2, 1/4, ... that decreases the norm of the
    residual: the recorded step is the step of the normal equations times
    the factor number [i], the trial point of that factor improves, and
    no factor before it does. *)
Theorem recorded_factor_is_first_improving {F : Type} `{Scalar F}
  (norm : vec F -> F)
  (linalg_solve : mat F -> vec F -> option (vec F)) (X : Type)
  (func : vec F -> X -> vec F) (jacobian : vec F -> X -> mat F)
  (x_vals : X) (y_vals : vec F) (tolerance : F) (init : vec F)
  (max_iterations max_halving : Z) (p : vec F) (h : list gnd_entry)
  (e : gnd_entry) :
  gauss_newton_damped norm linalg_solve func jacobian x_vals y_vals
    tolerance init max_iterations max_halving = Ok (p, h) ->
  In e h ->
  exists step i,
    normal_step linalg_solve func jacobian x_vals y_vals (gnd_params e) =
      Ok step /\
    gnd_damping_factor e = halved i /\
    gnd_step e = vscale (halved i) step /\
    gnd_new_error e =
      norm (residual func x_vals y_vals (trial (gnd_params e) step i)) /\
    improves norm func x_vals y_vals (gnd_params e) step i = true /\
    (forall i', (i' < i)%nat ->
       improves norm func x_vals y_vals (gnd_params e) step i' = false).
Proof.
  intros Hrun He. apply In_nth_error in He. destruct He as [k Hk].
  destruct (gauss_newton_damped_invariant _ _ _ _ _ _ _ _ _ _ Hrun)
    as (_ & _ & Hrec).
  destruct (Hrec k e Hk) as (_ & step & i & Hstep & _ & Heq & Hi & Hbefore).
  exists step, i. split; [exact Hstep|].
  split; [rewrite Heq; reflexivity|].
  split; [rewrite Heq; reflexivity|].
  split; [rewrite Heq; reflexivity|].
  split; assumption.
Qed.

(** ** The further properties at work *)

(** With a budget of 0 both fits of the straight line return at once. *)
Lemma history_within_budget_witness :
  gauss_newton norm_Q linalg_solve_Q Example.line Example.line_jacobian
    Example.line_x Example.line_y (1 # 100000000) [0; 0] 0 =
    Ok ([0; 0], []) /\
  gauss_newton_damped norm_Q linalg_solve_Q Example.line
    Example.line_jacobian Example.line_x Example.line_y
    (1 # 100000000) [0; 0] 0 8 = Ok ([0; 0], []).
Proof.
  apply (proj1 (history_within_budget norm_Q linalg_solve_Q Example.line
                  Example.line_jacobian Example.line_x Example.line_y
                  (1 # 100000000) [0; 0] 0 8)).
  lia.
Defined.

(** The two records of the undamped fit of [1 + 2^2 * x] from [[0, 1]]. *)
Lemma gauss_newton_history_is_trace_witness :
  exists p h,
    gauss_newton norm_Q linalg_solve_Q Curve.model Curve.model_jacobian
      Curve.data_x Curve.data_y (1 # 100000000) [0; 1] 2 = Ok (p, h) /\
    length h = 2%nat /\
    p = gn_position [0; 1] h.
Proof.
  eexists. eexists. split; [vm_compute; reflexivity|].
  split; [reflexivity|].
  refine (proj1 (gauss_newton_history_is_trace norm_Q linalg_solve_Q
                   Curve.model Curve.model_jacobian Curve.data_x
                   Curve.data_y (1 # 100000000) [0; 1] 2 _)).
  vm_compute. reflexivity.
Defined.

(** The same fit by the damped solver. *)
Lemma gauss_newton_damped_history_is_trace_witness :
  exists p h,
    gauss_newton_damped norm_Q linalg_solve_Q Curve.model
      Curve.model_jacobian Curve.data_x Curve.data_y
      (1 # 100000000) [0; 1] 2 8 = Ok (p, h) /\
    length h = 2%nat /\
    p = gnd_position [0; 1] h.
Proof.
  eexists. eexists. split; [vm_compute; reflexivity|].
  split; [reflexivity|].
  refine (proj1 (gauss_newton_damped_history_is_trace norm_Q linalg_solve_Q
                   Curve.model Curve.model_jacobian Curve.data_x
                   Curve.data_y (1 # 100000000) [0; 1] 2 8 _)).
  vm_compute. reflexivity.
Defined.

(** With [max_halving = -1] the damped fit of the line stays where it
    starts. *)
Lemma gauss_newton_damped_without_halving_witness :
  exists p h,
    gauss_newton_damped norm_Q linalg_solve_Q Example.line
      Example.line_jacobian Example.line_x Example.line_y
      (1 # 100000000) [0; 0] 20 (-1) = Ok (p, h) /\
    p = [0; 0] /\ h = [].
Proof.
  eexists. eexists. split; [vm_compute; reflexivity|].
  refine (gauss_newton_damped_without_halving norm_Q linalg_solve_Q
            Example.line Example.line_jacobian Example.line_x
            Example.line_y (1 # 100000000) [0; 0] 20
            (max_halving := (-1)%Z) _ _).
  - lia.
  - vm_compute. reflexivity.
Defined.

(** The errors of the two records of the damped fit of [1 + 2^2 * x]. *)
Lemma damped_errors_decrease_witness :
  exists p h a b,
    gauss_newton_damped norm_Q linalg_solve_Q Curve.model
      Curve.model_jacobian Curve.data_x Curve.data_y
      (1 # 100000000) [0; 1] 2 8 = Ok (p, h) /\
    nth_error h 0 = Some a /\
    nth_error h 1 = Some b /\
    gnd_old_error b <= gnd_new_error a /\
    gnd_new_error b < gnd_new_error a.
Proof.
  eexists. eexists. eexists. eexists.
  split; [vm_compute; reflexivity|].
  split; [reflexivity|]. split; [reflexivity|].
  refine (damped_errors_decrease norm_Q linalg_solve_Q Curve.model
            Curve.model_jacobian Curve.data_x Curve.data_y
            (1 # 100000000) [0; 1] 2 8 (i := 0) (j := 1) _ _ _ _).
  - vm_compute. reflexivity.
  - lia.
  - reflexivity.
  - reflexivity.
Defined.

(** The factor of the one record of the damped fit of the line. *)
Lemma damping_factor_bounds_witness :
  0 < gnd_damping_factor (Example.line_record norm_Q) <= 1 /\
  exists i, (0 <= i <= 8)%Z /\
            gnd_damping_factor (Example.line_record norm_Q) ==
            (1 # 2) ^ i.
Proof.
  refine (damping_factor_bounds norm_Q linalg_solve_Q Example.line
            Example.line_jacobian Example.line_x Example.line_y
            (1 # 100000000) [0; 0] 20 8 (p := [1; 2])
            (h := [Example.line_record norm_Q])
            (Example.line_record norm_Q) _ _).
  - vm_compute. reflexivity.
  - left. reflexivity.
Defined.

(** The Jacobian of the example system at the start [[4, 2]] of the
    scripts. *)
Lemma solve_linear_system_solves_witness :
  exists x0 x1,
    solve_linear_system [[2; 4]; [4; 96]] [-16; -80] = Ok [x0; x1] /\
    Forall2 Qeq (matvec [[2; 4]; [4; 96]] [x0; x1]) [-16; -80].
Proof.
  assert (Hnz : ~ det2 2 4 4 96 == 0)
    by (intros Hz; vm_compute in Hz; discriminate Hz).
  destruct (@solve_linear_system_solves 2 4 4 96 (-16) (-80) Hnz)
    as (x0 & x1 & Hsolve & Hsound & _).
  exists x0, x1. split; assumption.
Defined.

Lemma solve_linear_system_agrees_witness :
  solve_linear_system [[2; 4]; [4; 96]] [-16; -80] =
  solve_2x2 [[2; 4]; [4; 96]] [-16; -80].
Proof.
  apply solve_linear_system_agrees.
  vm_compute. discriminate.
Defined.

(** The Jacobian of the straight line has two columns. *)
Lemma two_parameter_fit_is_closed_form_witness :
  gauss_newton norm_Q linalg_solve_Q Example.line Example.line_jacobian
    Example.line_x Example.line_y (1 # 100000000) [0; 0] 20 =
  gauss_newton norm_Q (fun _ _ => None) Example.line Example.line_jacobian
    Example.line_x Example.line_y (1 # 100000000) [0; 0] 20.
Proof.
  refine (proj1 (two_parameter_fit_is_closed_form norm_Q linalg_solve_Q
                   (fun _ _ => None) Example.line Example.line_jacobian
                   Example.line_x Example.line_y (1 # 100000000) [0; 0]
                   20 8 _)).
  intros p. split; [discriminate|]. repeat constructor.
Defined.

(** [newton_method] at the root [[2, -1]]. *)
Lemma newton_method_returns_witness :
  exists x' n,
    newton_method norm_Q linalg_solve_Q Example.f Example.jacobian
      (1 # 1000000) [2; -1] 100 = Ok (x', n) /\
    (1 <= n <= 100)%Z /\
    newton_updates linalg_solve_Q Example.f Example.jacobian [2; -1]
      (Z.to_nat n) = Some x'.
Proof.
  eexists. eexists. split; [vm_compute; reflexivity|].
  refine (let Hret :=
            @newton_method_returns _ _ norm_Q linalg_solve_Q Example.f
              Example.jacobian (1 # 1000000) [2; -1] 100 _ _ _ in
          conj (proj1 Hret) (proj1 (proj2 Hret))).
  vm_compute. reflexivity.
Defined.

(** A Jacobian of zeros stops [newton_method] in its first iteration. *)
Lemma newton_method_raises_witness :
  newton_method norm_Q linalg_solve_Q Example.f
    (fun _ => [[0; 0]; [0; 0]]) (1 # 1000000) [4; 2] 100 =
  Raise SingularMatrix.
Proof.
  apply (proj2 (newton_method_raises norm_Q linalg_solve_Q Example.f
                  (fun _ => [[0; 0]; [0; 0]]) (1 # 1000000) [4; 2] 100)).
  exists 0%nat, [4; 2].
  split; [vm_compute; lia|]. split; [reflexivity|].
  split; [intros j Hj; lia|]. vm_compute. reflexivity.
Defined.

(** The run of [damped_newton] from [[0, 3/5]] with the tolerance 5. *)
Lemma damped_newton_returns_witness :
  exists x n,
    damped_newton Example.f Example.jacobian 5 20 [0; 3 # 5] 4 =
      Some (Ok (x, n)) /\
    (1 <= n <= 4)%Z /\
    exists s s0,
      sum_abs (Example.f x) = Ok s /\
      sum_abs (Example.f [0; 3 # 5]) = Ok s0 /\
      s < s0 /\ s < 5.
Proof.
  eexists. eexists. split; [vm_compute; reflexivity|].
  apply (@damped_newton_returns Example.f Example.jacobian 5 20%nat
           [0; 3 # 5] 4 _ _).
  vm_compute. reflexivity.
Defined.

(** [damped_newton] started at the root [[-2, 1]]. *)
Lemma damped_newton_hangs_at_every_root_witness :
  damped_newton Example.f Example.jacobian (1 # 1000000) 1000
    [-2; 1] 4 = None.
Proof.
  refine (proj2 (@damped_newton_hangs_at_every_root Example.f
                   Example.jacobian (1 # 1000000) [-2; 1]
                   (0 + Qabs (2 * -2 + 4 * 1) +
                    Qabs (4 * -2 + 8 * (1 * 1 * 1)))
                   _ _ 1000%nat 4) _ _ _ _).
  - reflexivity.
  - reflexivity.
  - lia.
  - simpl. lia.
  - eexists. vm_compute. reflexivity.
  - intros a b. eexists. reflexivity.
Defined.

(** The system of the script in [vereinfachtes_newton_verfahren.py]. *)
Lemma lu_decomposition_2x2_witness :
  exists x0 x1 y0 y1,
    Simplified.lu_decomposition [[2; 4]; [4; 96]] [-16; -80] =
      Done [x0; x1] /\
    solve_linear_system [[2; 4]; [4; 96]] [-16; -80] = Ok [y0; y1] /\
    x0 == y0 /\ x1 == y1.
Proof.
  apply (proj1 (proj2 (lu_decomposition_2x2 2 4 4 96 (-16) (-80)))).
  - intros Hz. vm_compute in Hz. discriminate Hz.
  - intros Hz. vm_compute in Hz. discriminate Hz.
Defined.

(** The fit of a line to two samples at [x = 0] raises in its first
    iteration. *)
Lemma gauss_newton_solvers_raise_witness :
  gauss_newton norm_Q linalg_solve_Q Example.line Example.line_jacobian
    Example.twice_x Example.line_y (1 # 100000000) [0; 0] 20 =
  Raise SingularMatrix.
Proof.
  apply (proj2 (proj1 (gauss_newton_solvers_raise norm_Q linalg_solve_Q
                         Example.line Example.line_jacobian
                         Example.twice_x Example.line_y (1 # 100000000)
                         [0; 0] 20 8 SingularMatrix))).
  exists 0%nat, [0; 0], [].
  split; [vm_compute; lia|]. split; [reflexivity|].
  split; [intros j Hj; lia|]. vm_compute. reflexivity.
Defined.

(** After the fit of the straight line from an array that held [[0, 0]],
    the array holds the parameters of the second record. *)
Lemma gauss_newton_writes_initial_guess_witness :
  exists p h a,
    gauss_newton_in_place norm_Q linalg_solve_Q Example.line
      Example.line_jacobian Example.line_x Example.line_y
      (1 # 100000000) [0; 0] 20 = Ok (p, h, a) /\
    a <> [0; 0] /\
    ((exists h' e, h = h' ++ [e] /\ a = gn_params e /\
                   p = vadd a (gn_step e) /\
                   fltb (norm_Q (gn_step e)) (1 # 100000000) = true) \/
     (a = p /\ a = gn_position [0; 0] h /\ length h = Z.to_nat 20)).
Proof.
  eexists. eexists. eexists.
  split; [vm_compute; reflexivity|]. split; [discriminate|].
  apply (proj2 (gauss_newton_writes_initial_guess norm_Q linalg_solve_Q
                  Example.line Example.line_jacobian Example.line_x
                  Example.line_y (1 # 100000000) [0; 0] 20)).
  vm_compute. reflexivity.
Defined.

(** A system of three equations. *)
Lemma lu_decomposition_solves_witness :
  exists x,
    Simplified.lu_decomposition [[2; 1; 1]; [4; 3; 3]; [8; 7; 9]]
      [1; 2; 3] = Done x /\
    length x = 3%nat /\
    Forall2 Qeq (matvec [[2; 1; 1]; [4; 3; 3]; [8; 7; 9]] x) [1; 2; 3].
Proof.
  assert (Hsquare : square (length [[2; 1; 1]; [4; 3; 3]; [8; 7; 9]])
                      [[2; 1; 1]; [4; 3; 3]; [8; 7; 9]]).
  { split; [reflexivity|].
    intros [|[|[|r]]] Hr; try reflexivity. cbn [length] in Hr. lia. }
  pose proof (@lu_decomposition_solves [[2; 1; 1]; [4; 3; 3]; [8; 7; 9]]
                [1; 2; 3] Hsquare eq_refl) as Hsolves.
  destruct (Simplified.lu_decomposition [[2; 1; 1]; [4; 3; 3]; [8; 7; 9]]
              [1; 2; 3]) as [x|e] eqn:Hrun.
  - exists x. split; [reflexivity | exact Hsolves].
  - vm_compute in Hrun. discriminate Hrun.
Defined.

(** The first step of the fit of the straight line. *)
Lemma recorded_steps_solve_normal_equations_witness :
  exists p h e,
    gauss_newton norm_Q linalg_solve_Q Example.line Example.line_jacobian
      Example.line_x Example.line_y (1 # 100000000) [0; 0] 20 =
      Ok (p, h) /\
    nth_error h 0 = Some e /\
    Forall2 Qeq
      (matvec (matmul (transpose (Example.line_jacobian (gn_params e)
                                    Example.line_x))
                 (Example.line_jacobian (gn_params e) Example.line_x))
         (gn_step e))
      (matvec (transpose (Example.line_jacobian (gn_params e)
                            Example.line_x))
         (residual Example.line Example.line_x Example.line_y
            (gn_params e))).
Proof.
  eexists. eexists. eexists.
  split; [vm_compute; reflexivity|]. split; [reflexivity|].
  refine (proj1 (@recorded_steps_solve_normal_equations norm_Q
                   linalg_solve_Q _ Example.line Example.line_jacobian
                   Example.line_x Example.line_y (1 # 100000000) [0; 0]
                   20 8 _) _ _ _ _ _).
  - intros q. split; [discriminate|]. repeat constructor.
  - vm_compute. reflexivity.
  - left. reflexivity.
Defined.

(** The second record of the damped fit of [1 + 2^2 * x]. *)
Lemma recorded_factor_is_first_improving_witness :
  exists p h e step i,
    gauss_newton_damped norm_Q linalg_solve_Q Curve.model
      Curve.model_jacobian Curve.data_x Curve.data_y
      (1 # 100000000) [0; 1] 2 8 = Ok (p, h) /\
    nth_error h 1 = Some e /\
    gnd_damping_factor e = halved i /\
    gnd_step e = vscale (halved i) step.
Proof.
  eexists. eexists. eexists.
  match goal with
  | |- exists step i, ?run /\ ?rec /\ _ =>
      assert (Hrun : run) by (vm_compute; reflexivity);
      assert (Hrec : rec) by reflexivity
  end.
  destruct (@recorded_factor_is_first_improving Q _ norm_Q linalg_solve_Q
              _ Curve.model Curve.model_jacobian Curve.data_x Curve.data_y
              (1 # 100000000) [0; 1] 2 8 _ _ _ Hrun
              (nth_error_In _ _ Hrec))
    as (step & i & _ & Hfactor & Hstep & _).
  exists step, i. repeat split; assumption.
Defined.
